(** * EdiCollection: properties of a set of MT stations

    A shallow embedding of [mtpy/core/edi_collection.py]: the tolerance
    membership test [is_it_in], the class [EdiCollection] with its
    constructor, [_get_all_periods], [get_periods_by_stats],
    [create_mt_station_gdf], [create_csv_files_moved] and
    [get_bounding_box], and the script of the module.

    Numbers.  Every number the module handles is an IEEE binary64 value
    (a Python [float] or a [numpy.float64]).  The functions are written once
    over the operations they use ([Scalar]); the arithmetic [binary64] is
    Rocq's primitive [float], which computes what CPython computes.  A
    value [x] is [comparable] when [x == x], that is, when it is not a NaN.

    Containers.  A [set] and a [dict] promise no order.  What the module
    makes of a set it sorts, so its order does not matter; a dict it lists
    with [items()], in an order that is left open here ([DictOrder]).

    Effects.  Logging, printing, file writes and exceptions are explicit: a
    computation of type [M A] is the list of events it emits, in order,
    with the [result] it ends in.  An object is a record that the methods
    take and, where they assign to an attribute, give back. *)

From Stdlib Require Import String Floats.
From Stdlib Require Import List Bool Arith ZArith Lia.
From Stdlib Require Import Sorted Permutation.
From Stdlib Require Uint63.
Import ListNotations.

Set Implicit Arguments.

(** ** Numbers *)

Class Scalar : Type := {
  num : Type;
  nadd : num -> num -> num;          (* x + y *)
  nsub : num -> num -> num;          (* x - y *)
  nmul : num -> num -> num;          (* x * y *)
  ndiv : num -> num -> num;          (* x / y, numpy's: no exception *)
  nabs : num -> num;                 (* abs(x) *)
  nltb : num -> num -> bool;         (* x < y *)
  nleb : num -> num -> bool;         (* x <= y *)
  neqb : num -> num -> bool;         (* x == y, the equality of set and dict keys *)
  of_int : Z -> num;                 (* float(n) of a Python int *)
  lit_tolerance : num;               (* the literal 0.00001 *)
  lit_ptol : num;                    (* the literal 0.05 *)
}.

Declare Scope num_scope.
Delimit Scope num_scope with num.
Infix "+" := nadd : num_scope.
Infix "-" := nsub : num_scope.
Infix "*" := nmul : num_scope.
Infix "/" := ndiv : num_scope.
Infix "<?" := nltb : num_scope.
Infix "<=?" := nleb : num_scope.
Infix "==?" := neqb (at level 70) : num_scope.
(** Python's [x > y] and [x >= y] on floats are [y < x] and [y <= x]. *)
Notation "x >? y" := (nltb y x) (only parsing) : num_scope.
Notation "x >=? y" := (nleb y x) (only parsing) : num_scope.

Definition comparable {S : Scalar} (x : num) : Prop := neqb x x = true.

(** IEEE binary64, the arithmetic of the running program.  [of_int]
    rounds to nearest even, as the conversion of an int does. *)
Definition binary64 : Scalar := {|
  num := float;
  nadd := PrimFloat.add;
  nsub := PrimFloat.sub;
  nmul := PrimFloat.mul;
  ndiv := PrimFloat.div;
  nabs := PrimFloat.abs;
  nltb := PrimFloat.ltb;
  nleb := PrimFloat.leb;
  neqb := PrimFloat.eqb;
  of_int := fun z => SF2Prim (binary_normalize prec emax z 0 false);
  lit_tolerance := 0x1.4f8b588e368f1p-17%float;
  lit_ptol := 0x1.999999999999ap-5%float;
|}.

(** ** Python's containers *)

Section Containers.
Variables A K V : Type.

(** [sorted(l)]: a stable comparison sort that asks [<] only.  Insertion
    from the right keeps an element in front of the later ones it is not
    greater than.  On numbers that [<] orders (no NaN among them) every
    stable sort answers this list; with a NaN the answer of CPython's sort
    is not specified, and nothing is proved of it. *)
Fixpoint insert_sorted (lt : A -> A -> bool) (x : A) (l : list A) : list A :=
  match l with
  | [] => [x]
  | y :: l' => if lt y x then y :: insert_sorted lt x l' else x :: l
  end.

Fixpoint sorted (lt : A -> A -> bool) (l : list A) : list A :=
  match l with
  | [] => []
  | x :: l' => insert_sorted lt x (sorted lt l')
  end.

(** [sorted(l, reverse=True)]: descending, equal elements in their
    original order (the list is reversed, sorted and reversed again). *)
Definition sorted_reverse (lt : A -> A -> bool) (l : list A) : list A :=
  rev (sorted lt (rev l)).

(** [list(set(l))]: one representative of every class of [==], the first
    inserted.  The order in which a set is listed is unspecified; the
    model lists the representatives in order of first insertion, and
    [sorted_set_order_irrelevant] shows the choice does not matter once
    the list is sorted. *)
Fixpoint set_add (eqb : A -> A -> bool) (s : list A) (x : A) : list A :=
  match s with
  | [] => [x]
  | y :: s' => if eqb y x then s else y :: set_add eqb s' x
  end.

Definition list_set (eqb : A -> A -> bool) (l : list A) : list A :=
  fold_left (set_add eqb) l [].

(** A [dict] as the list of its items as stored: assigning to a key that
    is present keeps the key object and replaces the value, a new key is
    stored last.  The order of the store is not observed: the order in
    which the interpreter lists a dict is a [DictOrder], below. *)
Fixpoint dict_set (eqb : K -> K -> bool) (d : list (K * V)) (k : K) (v : V)
  : list (K * V) :=
  match d with
  | [] => [(k, v)]
  | (k', v') :: d' =>
      if eqb k' k then (k', v) :: d' else (k', v') :: dict_set eqb d' k v
  end.
End Containers.

(** [adict.items()]: the items of a dict in the order in which the
    interpreter lists them.  The module is Python 2 code, where a dict is a
    hash table listed slot by slot: the order depends on the hashes of the
    keys and on the size of the table, and the language promises none.  It
    is left open here: a [DictOrder] is any way of listing the stored
    items, each once. *)
Class DictOrder {S : Scalar} : Type := {
  items : list (num * nat) -> list (num * nat);
  items_perm : forall adict, Permutation (items adict) adict;
}.

(** ** Effects *)

Inductive exn : Set :=
| AssertionError | AttributeError | TypeError | IndexError | ZeroDivisionError.

Inductive result (A : Type) : Type :=
| Ok (a : A)
| Raise (e : exn).
Arguments Ok {A} a.
Arguments Raise {A} e.

Inductive level : Set := DEBUG | INFO | WARN | ERROR | STDOUT.

Section Program.
Context {S : Scalar}.
Local Open Scope num_scope.

(** *** Station records

    Modelled from the spec: the station record [mt.MT] yields for an EDI
    file ([mtpy.core.mt] is not part of the sources at hand), with the
    attributes this module reads.  [pt.phimin] and its siblings are pairs
    (values, errors) of arrays with one entry per sampled frequency. *)
Record ZObj : Type := { freq : list num }.

Record PhaseTensor : Type := {
  phimin : list num * list num;
  phimax : list num * list num;
  azimuth : list num * list num;
  beta : list num * list num;
  ellipticity : list num * list num;
}.

Record TipperObj : Type := {
  mag_real : list num;
  mag_imag : list num;
  angle_real : list num;
  angle_imag : list num;
}.

Record MT : Type := {
  station : string;
  lon : num;
  lat : num;
  elev : num;
  utm_zone : string;
  MT_Z : ZObj;                     (* mt_obj.Z *)
  pt : PhaseTensor;
  Tipper : TipperObj;
}.

(** *** Tables *)

(** A row of the station frame of [create_mt_station_gdf]. *)
Record StationRow : Type := {
  StationId : string;
  Lon : num;
  Lat : num;
  Elev : num;
  UtmZone : string;
  geometry : num * num;            (* Point(Lon, Lat) *)
}.

Record GeoDataFrame : Type := {
  gdf_rows : list StationRow;
  crs : nat;                       (* EPSG code *)
}.

Record BoundBox : Type := {
  MinLon : num;
  MinLat : num;
  MaxLon : num;
  MaxLat : num;
}.

(** A row [pt_stat] of the phase tensor table, one field per column of
    [csv_header]. *)
Record PtRow : Type := {
  c_station : string;
  c_freq : num;
  c_lon : num;
  c_lat : num;
  c_phi_min : num;
  c_phi_max : num;
  c_azimuth : num;
  c_skew : num;
  c_n_skew : num;
  c_elliptic : num;
  c_tip_mag_re : num;
  c_tip_mag_im : num;
  c_tip_ang_re : num;
  c_tip_ang_im : num;
}.

Inductive csv_line : Type :=
| Header                           (* csv_header *)
| Data (r : PtRow).

(** *** Events: log records, printed lines and file writes *)

Inductive message : Type :=
| NumEdiFiles (n : nat)            (* number of edi files in this collection: %s *)
| NumStations (n : nat)            (* number of stations/edifiles = %s *)
| NumFrequencies (n : nat)         (* Number of MT Frequencies: %s *)
| NumPeriods (n : nat)             (* Number of MT Periods: %s *)
| PeriodsArray (p : list num)
| PeriodIgnored (p : num)          (* Period %s is ignored *)
| MoreThanOneFreq (idx : list nat) (* more than one fre found %s *)
| FreqNotFound (f : num) (st : string) (* Freq %s NOT found for this station %s *)
| BoundBoxDict (b : BoundBox).

(** The files of a run are named by what they hold: the path arithmetic
    of the source ([os.path.join], [str(freq)]) is not modelled. *)
Inductive path : Type :=
| SummaryCsv (dest_dir : string)            (* phase_tensor_tipper.csv *)
| FreqCsv (dest_dir : string) (f : num)     (* phase_tensor_tipper_<freq>Hz.csv *)
| ShapeFile (name : string).

Inductive mode : Set := wb | ab.

Inductive event : Type :=
| Log (l : level) (m : message)
| WriteCsv (p : path) (md : mode) (lines : list csv_line)
| WriteShape (p : path) (g : GeoDataFrame).

(** A computation: the events it emits, in order, and how it ends.  The
    events emitted before an exception stay emitted. *)
Definition M (A : Type) : Type := list event * result A.

Definition ret {A} (a : A) : M A := ([], Ok a).

Definition bind {A B} (m : M A) (f : A -> M B) : M B :=
  match m with
  | (tr, Ok a) => let (tr', r) := f a in (tr ++ tr', r)
  | (tr, Raise e) => (tr, Raise e)
  end.

Definition raise {A} (e : exn) : M A := ([], Raise e).
Definition emit (ev : event) : M unit := ([ev], Ok tt).
Definition logger (l : level) (m : message) : M unit := emit (Log l m).
Definition assert (b : bool) : M unit :=
  if b then ret tt else raise AssertionError.

(** [for x in l: acc = body acc x] *)
Fixpoint for_each {A B} (l : list A) (acc : B) (body : B -> A -> M B) : M B :=
  match l with
  | [] => ret acc
  | x :: l' => bind (body acc x) (fun acc' => for_each l' acc' body)
  end.

(** [a[i]] of an array: an index out of range raises. *)
Definition index {A} (a : list A) (i : nat) : M A :=
  match nth_error a i with
  | Some x => ret x
  | None => raise IndexError
  end.

(** Iterating what may be [None] raises a TypeError. *)
Definition iter {A} (o : option (list A)) : M (list A) :=
  match o with
  | Some l => ret l
  | None => raise TypeError
  end.
End Program.

Notation "x <- m ;; k" := (bind m (fun x => k))
  (at level 61, m at next level, right associativity).
Notation "' pat <- m ;; k" :=
  (bind m (fun x => match x with pat => k end))
  (at level 61, pat pattern, m at next level, right associativity).
Notation "m ;;; k" := (bind m (fun _ => k))
  (at level 61, right associativity).

(** ** The module *)

Section EdiCollectionModule.
Context {S : Scalar} {D : DictOrder}.
Local Open Scope num_scope.

(** The int literals [1], [2] and the float literals [1.0], [100.0] as
    floats. *)
Definition lit (n : BinNums.Z) : num := of_int n.

Definition tolerance : num := lit_tolerance.

(** [is_it_in(anum, aseq)]: check if anum is in asequence by a small
    tolerance. *)
Fixpoint is_it_in (anum : num) (aseq : list num) : bool :=
  match aseq with
  | [] => false
  | an_number :: aseq' =>
      if nabs (anum - an_number) <? tolerance then true
      else is_it_in anum aseq'
  end.

(** *** class EdiCollection

    An attribute that is [None], or not assigned yet, is [None] here. *)
Record EdiCollection : Type := {
  edifiles : list MT;
  num_of_edifiles : nat;
  ptol : num;
  mt_obj_list : list MT;
  all_frequencies : option (list num);
  all_periods : option (list num);
  geopdf : option GeoDataFrame;
  bound_box_dict : option BoundBox;
}.

Definition set_all_frequencies (self : EdiCollection) v : EdiCollection :=
  {| edifiles := edifiles self; num_of_edifiles := num_of_edifiles self;
     ptol := ptol self; mt_obj_list := mt_obj_list self;
     all_frequencies := v; all_periods := all_periods self;
     geopdf := geopdf self; bound_box_dict := bound_box_dict self |}.

Definition set_all_periods (self : EdiCollection) v : EdiCollection :=
  {| edifiles := edifiles self; num_of_edifiles := num_of_edifiles self;
     ptol := ptol self; mt_obj_list := mt_obj_list self;
     all_frequencies := all_frequencies self; all_periods := v;
     geopdf := geopdf self; bound_box_dict := bound_box_dict self |}.

Definition set_geopdf (self : EdiCollection) v : EdiCollection :=
  {| edifiles := edifiles self; num_of_edifiles := num_of_edifiles self;
     ptol := ptol self; mt_obj_list := mt_obj_list self;
     all_frequencies := all_frequencies self; all_periods := all_periods self;
     geopdf := v; bound_box_dict := bound_box_dict self |}.

Definition set_bound_box_dict (self : EdiCollection) v : EdiCollection :=
  {| edifiles := edifiles self; num_of_edifiles := num_of_edifiles self;
     ptol := ptol self; mt_obj_list := mt_obj_list self;
     all_frequencies := all_frequencies self; all_periods := all_periods self;
     geopdf := geopdf self; bound_box_dict := v |}.

(** [_get_all_periods(self)]: from the list of edi files get a list of all
    unique frequencies.  It answers the periods (or [None], by the bare
    [return] of its first lines) and the object with [all_frequencies]
    assigned. *)
Definition _get_all_periods (self : EdiCollection)
  : M (option (list num) * EdiCollection) :=
  match all_frequencies self with
  | Some _ => ret (None, self)                       (* already initialized *)
  | None =>
      let all_freqs :=
        flat_map (fun mt_obj => freq (MT_Z mt_obj)) (mt_obj_list self) in
      let freqs := sorted nltb (list_set neqb all_freqs) in
      let self := set_all_frequencies self (Some freqs) in
      logger INFO (NumFrequencies (length freqs));;;
      let all_periods := map (fun f => lit 1 / f) (sorted_reverse nltb freqs) in
      logger INFO (NumPeriods (length all_periods));;;
      logger DEBUG (PeriodsArray all_periods);;;
      ret (Some all_periods, self)
  end.

(** The number of stations whose frequencies hold [afreq]: the inner loop
    of [get_periods_by_stats]. *)
Definition acount_of (self : EdiCollection) (afreq : num) : nat :=
  fold_left
    (fun acount mt_obj =>
       if is_it_in afreq (freq (MT_Z mt_obj)) then (acount + 1)%nat else acount)
    (mt_obj_list self) 0%nat.

(** [(100.0*acount)/self.num_of_edifiles >= percentage]; dividing a float
    by the int zero raises. *)
Definition enough (self : EdiCollection) (acount : nat) (percentage : num)
  : M bool :=
  if (num_of_edifiles self =? 0)%nat then raise ZeroDivisionError
  else ret ((lit 100 * of_int (Z.of_nat acount))
              / of_int (Z.of_nat (num_of_edifiles self)) >=? percentage).

(** [get_periods_by_stats(self, percentage)]: check the presence of each
    period in all edi files, keep a list of periods which are at least
    percentage present. *)
Definition get_periods_by_stats (self : EdiCollection) (percentage : num)
  : M (list num) :=
  periods <- iter (all_periods self);;
  adict <- for_each periods []
    (fun adict aper =>
       let afreq := lit 1 / aper in
       let acount := acount_of self afreq in
       keep <- enough self acount percentage;;
       if keep then ret (dict_set neqb adict aper acount)
       else logger INFO (PeriodIgnored aper);;; ret adict);;
  let mydict_ordered :=
    sorted_reverse (fun a b : num * nat => (snd a <? snd b)%nat) (items adict) in
  let selected_periods := map fst mydict_ordered in
  ret selected_periods.

(** [create_mt_station_gdf(self, outshpfile)]: the station location
    frame, written to a shape file when a name is given. *)
Definition create_mt_station_gdf (self : EdiCollection)
           (outshpfile : option string) : M GeoDataFrame :=
  let mt_stations :=
    map (fun mtobj =>
           {| StationId := station mtobj; Lon := lon mtobj; Lat := lat mtobj;
              Elev := elev mtobj; UtmZone := utm_zone mtobj;
              geometry := (lon mtobj, lat mtobj) |})
        (mt_obj_list self) in
  let gdf := {| gdf_rows := mt_stations; crs := 4283 |} in
  match outshpfile with
  | Some f => emit (WriteShape (ShapeFile f) gdf);;; ret gdf
  | None => ret gdf
  end.

(** [enumerate(l)] *)
Definition enumerate {A} (l : list A) : list (nat * A) :=
  combine (seq 0 (length l)) l.

(** The indices [ff] of the samples [f2] of a station that fall in the
    window of [fq]: the list comprehension of [create_csv_files_moved]. *)
Definition f_index_list (self : EdiCollection) (fq : num) (mt_obj : MT)
  : list nat :=
  map fst
    (filter (fun '(ff, f2) =>
               (f2 >? fq * (lit 1 - ptol self))
               && (f2 <? fq * (lit 1 + ptol self)))
            (enumerate (freq (MT_Z mt_obj)))).

(** The row [pt_stat] of a station at the sample [p_index]; the fields
    are read in the order of the list display. *)
Definition pt_stat (fq : num) (mt_obj : MT) (p_index : nat) : M PtRow :=
  v_phimin <- index (fst (phimin (pt mt_obj))) p_index;;
  v_phimax <- index (fst (phimax (pt mt_obj))) p_index;;
  v_azimuth <- index (fst (azimuth (pt mt_obj))) p_index;;
  v_beta <- index (fst (beta (pt mt_obj))) p_index;;
  v_beta' <- index (fst (beta (pt mt_obj))) p_index;;
  v_ellipticity <- index (fst (ellipticity (pt mt_obj))) p_index;;
  v_mag_real <- index (mag_real (Tipper mt_obj)) p_index;;
  v_mag_imag <- index (mag_imag (Tipper mt_obj)) p_index;;
  v_angle_real <- index (angle_real (Tipper mt_obj)) p_index;;
  v_angle_imag <- index (angle_imag (Tipper mt_obj)) p_index;;
  ret {| c_station := station mt_obj; c_freq := fq;
         c_lon := lon mt_obj; c_lat := lat mt_obj;
         c_phi_min := v_phimin; c_phi_max := v_phimax;
         c_azimuth := v_azimuth;
         c_skew := v_beta; c_n_skew := lit 2 * v_beta';
         c_elliptic := v_ellipticity;
         c_tip_mag_re := v_mag_real; c_tip_mag_im := v_mag_imag;
         c_tip_ang_re := v_angle_real; c_tip_ang_im := v_angle_imag |}.

(** The body of [for mt_obj in self.mt_obj_list] *)
Definition export_station (self : EdiCollection) (fq : num)
           (ptlist : list PtRow) (mt_obj : MT) : M (list PtRow) :=
  let idx := f_index_list self fq mt_obj in
  (if (1 <? length idx)%nat then logger WARN (MoreThanOneFreq idx) else ret tt);;;
  match idx with
  | p_index :: _ =>
      row <- pt_stat fq mt_obj p_index;;
      ret (ptlist ++ [row])
  | [] =>
      logger WARN (FreqNotFound fq (station mt_obj));;;
      ret ptlist
  end.

(** The body of [for freq in self.all_frequencies] *)
Definition export_freq (self : EdiCollection) (dest_dir : string)
           (pt_dict : list (num * list PtRow)) (fq : num)
  : M (list (num * list PtRow)) :=
  ptlist <- for_each (mt_obj_list self) [] (export_station self fq);;
  emit (WriteCsv (SummaryCsv dest_dir) ab (map Data ptlist));;;
  emit (WriteCsv (FreqCsv dest_dir fq) wb (Header :: map Data ptlist));;;
  ret (dict_set neqb pt_dict fq ptlist).

(** [create_csv_files_moved(self, dest_dir)].  Without a [dest_dir] the
    method reads [self.outputdir], an attribute no method assigns. *)
Definition create_csv_files_moved (self : EdiCollection)
           (dest_dir : option string) : M (list (num * list PtRow)) :=
  dest_dir <- match dest_dir with
              | Some d => ret d
              | None => raise AttributeError
              end;;
  emit (WriteCsv (SummaryCsv dest_dir) wb [Header]);;;
  freqs <- iter (all_frequencies self);;
  for_each freqs [] (export_freq self dest_dir).

(** [geopandas]' reprojection of a point from one EPSG code to another is
    a collaborator: any function will do. *)
Variable to_crs : nat -> nat -> num * num -> num * num.

Definition gdf_to_crs (g : GeoDataFrame) (epsg : nat) : GeoDataFrame :=
  {| gdf_rows :=
       map (fun r =>
              {| StationId := StationId r; Lon := Lon r; Lat := Lat r;
                 Elev := Elev r; UtmZone := UtmZone r;
                 geometry := to_crs (crs g) epsg (geometry r) |})
           (gdf_rows g);
     crs := epsg |}.

Definition nmin (x y : num) : num := if y <? x then y else x.
Definition nmax (x y : num) : num := if x <? y then y else x.

(** Modelled from the spec: [GeoDataFrame.total_bounds] of geopandas,
    "min/max longitude and latitude over all station positions", as the
    tuple (minx, miny, maxx, maxy).  An empty frame has no bounds. *)
Definition total_bounds (g : GeoDataFrame) : option (num * num * num * num) :=
  match map geometry (gdf_rows g) with
  | [] => None
  | (x, y) :: pts =>
      Some (fold_left nmin (map fst pts) x, fold_left nmin (map snd pts) y,
            fold_left nmax (map fst pts) x, fold_left nmax (map snd pts) y)
  end.

(** [get_bounding_box(self, epsgcode)]: bounding box in given proj coord
    system. *)
Definition get_bounding_box (self : EdiCollection) (epsgcode : option nat)
  : M BoundBox :=
  geopdf <- match geopdf self with
            | Some g => ret g
            | None => raise AttributeError
            end;;
  let new_gdf :=
    match epsgcode with
    | None => geopdf
    | Some code => gdf_to_crs geopdf code
    end in
  tup <- match total_bounds new_gdf with
         | Some tup => ret tup
         | None => raise IndexError
         end;;
  let '(tup0, tup1, tup2, tup3) := tup in
  let bdict := {| MinLon := tup0; MinLat := tup1;
                  MaxLon := tup2; MaxLat := tup3 |} in
  logger DEBUG (BoundBoxDict bdict);;;
  ret bdict.

(** [EdiCollection(edilist, ptol)]: the constructor.  An EDI file stands
    for the station record [mt.MT] reads from it.  The branch of
    [if self.edifiles is not None] that logs "None Edi file set" cannot be
    taken once [len(self.edifiles)] has been computed, and is left out; the
    [print] is an event on [STDOUT]; assertions are enabled. *)
Definition __init__ (edilist : list MT) (ptol : num) : M EdiCollection :=
  logger INFO (NumEdiFiles (length edilist));;;
  assert (0 <? length edilist)%nat;;;
  emit (Log STDOUT (NumStations (length edilist)));;;
  let self := {| edifiles := edilist; num_of_edifiles := length edilist;
                 ptol := ptol; mt_obj_list := edilist;
                 all_frequencies := None; all_periods := None;
                 geopdf := None; bound_box_dict := None |} in
  '(periods, self) <- _get_all_periods self;;
  let self := set_all_periods self periods in
  gdf <- create_mt_station_gdf self None;;
  let self := set_geopdf self (Some gdf) in
  bdict <- get_bounding_box self None;;
  let self := set_bound_box_dict self (Some bdict) in
  ret self.
End EdiCollectionModule.

(** ** The script

    The lines under [if __name__ == "__main__"].  The file system and the
    reader of EDI files are collaborators ([os.path.isdir],
    [os.path.isfile], [glob.glob] and [mt.MT]): any functions will do.  As
    in the constructor, an EDI file stands for the station record read
    from it. *)

(** How the script stops short of its last line. *)
Inductive stop : Set :=
| Uncaught (e : exn)               (* an exception of the module *)
| NameError                        (* name 'obj' is not defined *)
| SystemExit (status : BinNums.Z). (* sys.exit(status) *)

Section CommandLine.
Context {S : Scalar} {D : DictOrder}.

Inductive output : Type :=
| Usage (prog : string)            (* USAGE: %s edi_dir OR edi_list *)
| Collected (ev : event)           (* what the collection logs, prints, writes *)
| SelectedHeading                  (* selected periods: *)
| SelectedPeriods (periods : list num).

(** A run of the script: what it puts out, in order, and its value or the
    way it stops. *)
Definition Script (A : Type) : Type := list output * (A + stop).

Definition pret {A} (a : A) : Script A := ([], inl a).

Definition pbind {A B} (m : Script A) (f : A -> Script B) : Script B :=
  match m with
  | (out, inl a) => let (out', r) := f a in (out ++ out', r)
  | (out, inr s) => (out, inr s)
  end.

Definition halt {A} (s : stop) : Script A := ([], inr s).
Definition print (o : output) : Script unit := ([o], inl tt).

(** A function or method of the module, run by the script. *)
Definition lift {A} (m : M A) : Script A :=
  (map Collected (fst m),
   match snd m with Ok a => inl a | Raise e => inr (Uncaught e) end).

(** [sys.argv[i]] *)
Definition arg (argv : list string) (i : nat) : Script string :=
  match nth_error argv i with
  | Some a => pret a
  | None => halt (Uncaught IndexError)
  end.

(** [s.endswith(suffix)] *)
Definition endswith (s suffix : string) : bool :=
  (String.length suffix <=? String.length s)%nat
  && String.eqb (substring (String.length s - String.length suffix)
                           (String.length suffix) s) suffix.

Variable to_crs : nat -> nat -> num * num -> num * num.
Variables isdir isfile : string -> bool.
Variable glob : string -> list string.
Variable MT_of : string -> MT.

Local Notation "x <-- m ;; k" := (pbind m (fun x => k))
  (at level 61, m at next level, right associativity).
Local Notation "m ;;;; k" := (pbind m (fun _ => k))
  (at level 61, right associativity).

(** [EdiCollection(edilist)], with the default [ptol=0.05]. *)
Definition collect (edilist : list string) : Script EdiCollection :=
  lift (__init__ to_crs (map MT_of edilist) lit_ptol).

(** [obj] is [None] while the name is not bound: the branch [else: pass]
    leaves it so.  The int [10] of [percentage=10] compares as the float
    10.0. *)
Definition main (argv : list string) : Script unit :=
  if (length argv <? 2)%nat then
    prog <-- arg argv 0;;
    print (Usage prog);;;;
    halt (SystemExit 1)
  else
    argv1 <-- arg argv 1;;
    obj <-- (if isdir argv1 then
               let edilist := glob (argv1 ++ "/*.edi") in
               lift (assert (0 <? length edilist)%nat);;;;
               obj <-- collect edilist;;
               pret (Some obj)
             else if isfile argv1 && endswith argv1 ".edi" then
               obj <-- collect (tl argv);;
               pret (Some obj)
             else pret None);;
    obj <-- match obj with
            | Some obj => pret obj
            | None => halt NameError
            end;;
    dest_dir <-- arg argv 2;;
    lift (create_csv_files_moved obj (Some dest_dir));;;;
    myper <-- lift (get_periods_by_stats obj (of_int 10));;
    print SelectedHeading;;;;
    print (SelectedPeriods myper).
End CommandLine.

(** * The vocabulary of the properties *)

(** ** The order of numbers

    What the proofs ask of [<], [<=] and [==].  NaN compares false with
    everything, itself included, so totality is asked of comparable
    numbers only. *)

Class ScalarOrder (S : Scalar) : Prop := {
  nleb_spec : forall x y : num, nleb x y = nltb x y || neqb x y;
  neqb_sym : forall x y : num, neqb x y = neqb y x;
  neqb_trans : forall x y z : num,
      neqb x y = true -> neqb y z = true -> neqb x z = true;
  nltb_irrefl : forall x : num, nltb x x = false;
  nltb_trans : forall x y z : num,
      nltb x y = true -> nltb y z = true -> nltb x z = true;
  neqb_nltb_trans : forall x y z : num,
      neqb x y = true -> nltb y z = true -> nltb x z = true;
  nltb_neqb_trans : forall x y z : num,
      nltb x y = true -> neqb y z = true -> nltb x z = true;
  nltb_comparable : forall x y : num,
      nltb x y = true -> comparable x /\ comparable y;
  nltb_total : forall x y : num,
      comparable x -> comparable y ->
      nltb x y = true \/ neqb x y = true \/ nltb y x = true;
}.

Section Vocabulary.
Context {S : Scalar}.
Local Open Scope num_scope.

(** Strictly ascending: sorted, and no two equal. *)
Definition ascending (l : list num) : Prop :=
  StronglySorted (fun x y => (x <? y) = true) l.

(** No two periods compare equal. *)
Definition distinct (periods : list num) : Prop :=
  ForallOrdPairs (fun a b => (a ==? b) = false) periods.

(** No two periods of the list compare equal without being the same
    number. *)
Definition keys_same (periods : list num) : Prop :=
  forall p q, In p periods -> In q periods -> (p ==? q) = true -> p = q.

(** The test as the specification words it: [y] within the distance
    0.00001 of [anum], the bound included.  (The test of the source,
    in [is_it_in], is strict.) *)
Definition within_tolerance (anum y : num) : bool :=
  nabs (anum - y) <=? tolerance.

(** The reciprocal reverses the order of the numbers of [l]: of two
    frequencies, the greater has the period that is not greater. *)
Definition reciprocal_reverses (l : list num) : Prop :=
  forall x y, In x l -> In y l ->
              (x <? y) = true -> (lit 1 / y <=? lit 1 / x) = true.

(** A point with both coordinates comparable. *)
Definition located (p : num * num) : Prop :=
  comparable (fst p) /\ comparable (snd p).

(** ** The constructor *)

(** What [__init__] computes from a list of stations. *)
Definition frequencies_of (edilist : list MT) : list num :=
  sorted nltb (list_set neqb (flat_map (fun mt_obj => freq (MT_Z mt_obj)) edilist)).

Definition periods_of (edilist : list MT) : list num :=
  map (fun f => lit 1 / f) (sorted_reverse nltb (frequencies_of edilist)).

Definition frame_of (edilist : list MT) : GeoDataFrame :=
  {| gdf_rows :=
       map (fun mtobj =>
              {| StationId := station mtobj; Lon := lon mtobj; Lat := lat mtobj;
                 Elev := elev mtobj; UtmZone := utm_zone mtobj;
                 geometry := (lon mtobj, lat mtobj) |}) edilist;
     crs := 4283 |}.

Definition box_of (first : MT) (others : list MT) : BoundBox :=
  {| MinLon := fold_left nmin (map lon others) (lon first);
     MinLat := fold_left nmin (map lat others) (lat first);
     MaxLon := fold_left nmax (map lon others) (lon first);
     MaxLat := fold_left nmax (map lat others) (lat first) |}.

Definition collection_of (first : MT) (others : list MT) (ptol : num)
  : EdiCollection :=
  let edilist := first :: others in
  {| edifiles := edilist; num_of_edifiles := length edilist; ptol := ptol;
     mt_obj_list := edilist;
     all_frequencies := Some (frequencies_of edilist);
     all_periods := Some (periods_of edilist);
     geopdf := Some (frame_of edilist);
     bound_box_dict := Some (box_of first others) |}.

(** ** The phase tensor table *)

(** A station is well formed when its arrays have one entry per sampled
    frequency. *)
Definition well_formed (mt_obj : MT) : Prop :=
  let n := length (freq (MT_Z mt_obj)) in
  length (fst (phimin (pt mt_obj))) = n
  /\ length (fst (phimax (pt mt_obj))) = n
  /\ length (fst (azimuth (pt mt_obj))) = n
  /\ length (fst (beta (pt mt_obj))) = n
  /\ length (fst (ellipticity (pt mt_obj))) = n
  /\ length (mag_real (Tipper mt_obj)) = n
  /\ length (mag_imag (Tipper mt_obj)) = n
  /\ length (angle_real (Tipper mt_obj)) = n
  /\ length (angle_imag (Tipper mt_obj)) = n.

(** The window test of the list comprehension. *)
Definition in_window (self : EdiCollection) (fq f2 : num) : bool :=
  (f2 >? fq * (lit 1 - ptol self)) && (f2 <? fq * (lit 1 + ptol self)).

(** The row of a station at a sample, when every array has that sample. *)
Definition row_at (fq : num) (mt_obj : MT) (p_index : nat) : option PtRow :=
  match nth_error (fst (phimin (pt mt_obj))) p_index,
        nth_error (fst (phimax (pt mt_obj))) p_index,
        nth_error (fst (azimuth (pt mt_obj))) p_index,
        nth_error (fst (beta (pt mt_obj))) p_index,
        nth_error (fst (ellipticity (pt mt_obj))) p_index,
        nth_error (mag_real (Tipper mt_obj)) p_index,
        nth_error (mag_imag (Tipper mt_obj)) p_index,
        nth_error (angle_real (Tipper mt_obj)) p_index,
        nth_error (angle_imag (Tipper mt_obj)) p_index
  with
  | Some v_phimin, Some v_phimax, Some v_azimuth, Some v_beta,
    Some v_ellipticity, Some v_mag_real, Some v_mag_imag,
    Some v_angle_real, Some v_angle_imag =>
      Some {| c_station := station mt_obj; c_freq := fq;
              c_lon := lon mt_obj; c_lat := lat mt_obj;
              c_phi_min := v_phimin; c_phi_max := v_phimax;
              c_azimuth := v_azimuth;
              c_skew := v_beta; c_n_skew := lit 2 * v_beta;
              c_elliptic := v_ellipticity;
              c_tip_mag_re := v_mag_real; c_tip_mag_im := v_mag_imag;
              c_tip_ang_re := v_angle_real; c_tip_ang_im := v_angle_imag |}
  | _, _, _, _, _, _, _, _, _ => None
  end.

(** What a station adds to the rows of a frequency, and what it logs. *)
Definition station_rows (self : EdiCollection) (fq : num) (mt_obj : MT)
  : list PtRow :=
  match f_index_list self fq mt_obj with
  | [] => []
  | p_index :: _ =>
      match row_at fq mt_obj p_index with Some row => [row] | None => [] end
  end.

Definition station_events (self : EdiCollection) (fq : num) (mt_obj : MT)
  : list event :=
  match f_index_list self fq mt_obj with
  | [] => [Log WARN (FreqNotFound fq (station mt_obj))]
  | [_] => []
  | _ :: _ :: _ => [Log WARN (MoreThanOneFreq (f_index_list self fq mt_obj))]
  end.

Definition freq_rows (self : EdiCollection) (fq : num) : list PtRow :=
  flat_map (station_rows self fq) (mt_obj_list self).

Definition freq_events (self : EdiCollection) (dest_dir : string) (fq : num)
  : list event :=
  flat_map (station_events self fq) (mt_obj_list self)
  ++ [WriteCsv (SummaryCsv dest_dir) ab (map Data (freq_rows self fq));
      WriteCsv (FreqCsv dest_dir fq) wb (Header :: map Data (freq_rows self fq))].

(** The window of the documentation: the closed interval
    [freq*(1-ptol), freq*(1+ptol)]. *)
Definition in_closed_window (self : EdiCollection) (fq f2 : num)
  : bool :=
  (fq * (lit 1 - ptol self) <=? f2) && (f2 <=? fq * (lit 1 + ptol self)).

(** A row as the export builds it: [skew] is the value of [beta] at the
    first matching sample of a station, [n_skew] twice that value. *)
Definition derived (self : EdiCollection) (row : PtRow) : Prop :=
  exists fq mt_obj p_index rest,
    In mt_obj (mt_obj_list self)
    /\ f_index_list self fq mt_obj = p_index :: rest
    /\ nth_error (fst (beta (pt mt_obj))) p_index = Some (c_skew row)
    /\ c_n_skew row = lit 2 * c_skew row.

Definition rows_derived (self : EdiCollection) (ev : event) : Prop :=
  match ev with
  | WriteCsv _ _ lines => forall row, In (Data row) lines -> derived self row
  | _ => True
  end.

(** ** The selection of periods *)

(** The number of stations among whose frequencies [is_it_in] finds the
    frequency [1/aper] of a period, and the test of the percentage. *)
Definition coverage (self : EdiCollection) (aper : num) : nat :=
  length (filter (fun mt_obj => is_it_in (lit 1 / aper) (freq (MT_Z mt_obj)))
                 (mt_obj_list self)).

Definition percent (acount n : nat) : num :=
  (lit 100 * of_int (Z.of_nat acount)) / of_int (Z.of_nat n).

Definition retained (self : EdiCollection) (percentage : num) (aper : num)
  : bool :=
  percent (coverage self aper) (num_of_edifiles self) >=? percentage.

(** The keys of [adict] when the loop ends, as stored: the periods that
    pass the test, one of every class of [==].  And [adict] itself: every
    key with its count. *)
Definition kept (self : EdiCollection) (percentage : num) (periods : list num)
  : list num :=
  list_set neqb (filter (retained self percentage) periods).

Definition kept_dict (self : EdiCollection) (percentage : num)
           (periods : list num) : list (num * nat) :=
  map (fun aper => (aper, coverage self aper)) (kept self percentage periods).

(** The percentage of [k] stations out of [n] passes the threshold 0,
    and passes the threshold 100 only for [k = n]. *)
Definition percent_exact (n : nat) : Prop :=
  forall k, (k <= n)%nat ->
            (percent k n >=? of_int 0) = true
            /\ ((percent k n >=? lit 100) = true <-> k = n).

(** Every station holds the frequency of the period, by [is_it_in]. *)
Definition present_everywhere (self : EdiCollection) (aper : num) : bool :=
  forallb (fun mt_obj => is_it_in (lit 1 / aper) (freq (MT_Z mt_obj)))
          (mt_obj_list self).

(** [percent_exact], decided. *)
Definition percent_exactb (n : nat) : bool :=
  forallb (fun k => (percent k n >=? of_int 0)
                    && Bool.eqb (percent k n >=? lit 100) (k =? n)%nat)
          (seq 0 (Datatypes.S n)).
End Vocabulary.

(** ** The tables of the export *)

Section ExportVocabulary.
Context {S : Scalar}.
Local Open Scope num_scope.

(** The lines of the summary file of [dest_dir] after a run: a write in
    mode [wb] truncates the file, one in mode [ab] appends to it (and
    creates it). *)
Definition summary_write (dest_dir : string) (file : option (list csv_line))
           (ev : event) : option (list csv_line) :=
  match ev with
  | WriteCsv (SummaryCsv d) md lines =>
      if String.eqb d dest_dir then
        match md, file with
        | wb, _ => Some lines
        | ab, Some old => Some (old ++ lines)
        | ab, None => Some lines
        end
      else file
  | _ => file
  end.

Definition summary_file (dest_dir : string) (tr : list event)
  : option (list csv_line) :=
  fold_left (summary_write dest_dir) tr None.

(** A station has a sample in the window of [fq]. *)
Definition matched (self : EdiCollection) (fq : num) (mt_obj : MT) : bool :=
  match f_index_list self fq mt_obj with [] => false | _ :: _ => true end.

(** A row read off a station of the collection, at the first sample the
    station has in the window of the frequency of the row. *)
Definition sourced (self : EdiCollection) (row : PtRow) : Prop :=
  exists mt_obj p_index rest,
    In mt_obj (mt_obj_list self)
    /\ f_index_list self (c_freq row) mt_obj = p_index :: rest
    /\ row_at (c_freq row) mt_obj p_index = Some row.

(** The rows of an entry of the dictionary: read off the stations at the
    frequency of the loop, which is the key or compares equal to it. *)
Definition entry_sourced (self : EdiCollection) (kv : num * list PtRow) : Prop :=
  Forall (fun row => sourced self row
                     /\ (c_freq row = fst kv \/ (fst kv ==? c_freq row) = true))
         (snd kv).

Definition lines_sourced (self : EdiCollection) (ev : event) : Prop :=
  match ev with
  | WriteCsv _ _ lines => forall row, In (Data row) lines -> sourced self row
  | _ => True
  end.
End ExportVocabulary.

(** ** Loops and lists *)

Section LoopEvents.
Context {S : Scalar}.
Variables A B : Type.

(** The events of a loop whose body emits [ev acc x] and goes on with
    [step acc x]. *)
Fixpoint loop_events (ev : B -> A -> list event) (step : B -> A -> B)
         (l : list A) (acc : B) : list event :=
  match l with
  | [] => []
  | x :: l' => ev acc x ++ loop_events ev step l' (step acc x)
  end.
End LoopEvents.

Section ListVocabulary.
Variable A : Type.
Variable key : A -> nat.

(** The comparison of [sorted(..., key=...)] on int keys. *)
Definition key_lt (a b : A) : bool := (key a <? key b)%nat.

(** [p] stands somewhere before [q] in [l]. *)
Definition before (l : list A) (p q : A) : Prop :=
  exists l1 l2 l3, l = l1 ++ p :: l2 ++ q :: l3.

Inductive subseq : list A -> list A -> Prop :=
| subseq_nil : forall l, subseq [] l
| subseq_take : forall x s l, subseq s l -> subseq (x :: s) (x :: l)
| subseq_skip : forall x s l, subseq s l -> subseq s (x :: l).
End ListVocabulary.

(** ** The percentage in binary64 *)

(** A faster check for binary64, on primitive integers: [k] runs from
    [0] to [n]. *)
Fixpoint percent_check (fuel : nat) (k n : PrimInt63.int) (fn : float) : bool :=
  match fuel with
  | O => true
  | Datatypes.S fuel' =>
      let pk := PrimFloat.div (PrimFloat.mul 100%float (PrimFloat.of_uint63 k)) fn in
      PrimFloat.leb 0%float pk
      && Bool.eqb (PrimFloat.leb 100%float pk) (Uint63.eqb k n)
      && percent_check fuel' (Uint63.add k (Uint63.of_Z 1)) n fn
  end.

Definition percent_check_upto (bound : nat) : bool :=
  forallb (fun n => let i := Uint63.of_Z (Z.of_nat n) in
                    percent_check (Datatypes.S n) (Uint63.of_Z 0) i (PrimFloat.of_uint63 i))
          (seq 1 bound).

(** The bound of the check: five thousand stations. *)
Definition station_bound : nat := Z.to_nat 5000.

(** ** Sample data, in binary64 *)

Definition no_reprojection (from to : nat)
           (p : num (Scalar := binary64) * num (Scalar := binary64)) := p.

(** The first row of a table known to have one. *)
Definition station_rows_hd (rows : list (PtRow (S := binary64)))
  : PtRow (S := binary64) :=
  match rows with
  | row :: _ => row
  | [] => @Build_PtRow binary64 "" 0%float 0%float 0%float 0%float 0%float
                       0%float 0%float 0%float 0%float 0%float 0%float
                       0%float 0%float
  end.

(** A station whose every array repeats its frequencies. *)
Definition station_of (name : string) (x y : num (Scalar := binary64))
           (fs : list (num (Scalar := binary64))) : MT (S := binary64) :=
  {| station := name; lon := x; lat := y; elev := of_int 0; utm_zone := "53K";
     MT_Z := {| freq := fs |};
     pt := {| phimin := (fs, fs); phimax := (fs, fs); azimuth := (fs, fs);
              beta := (fs, fs); ellipticity := (fs, fs) |};
     Tipper := {| mag_real := fs; mag_imag := fs;
                  angle_real := fs; angle_imag := fs |} |}.

Definition ST01 : MT (S := binary64) :=
  station_of "ST01" 136.5%float (-20.5)%float [1; 2]%float.
Definition ST02 : MT (S := binary64) :=
  station_of "ST02" 136.75%float (-20.25)%float [1; 2]%float.
Definition ST03 : MT (S := binary64) :=
  station_of "ST03" 136.25%float (-20.75)%float [1; 3]%float.
(** A station sampled at 0.5 Hz and 1 Hz, and one at 1 Hz and 1.03125 Hz. *)
Definition ST04 : MT (S := binary64) :=
  station_of "ST04" 136.5%float (-20.5)%float [0.5; 1]%float.
Definition ST05 : MT (S := binary64) :=
  station_of "ST05" 136.5%float (-20.5)%float [1; 1.03125]%float.

(** The three stations of the documentation's scenario, and what their
    export holds (at 2 Hz the row of [ST01] has skew 2 and normalised
    skew 4). *)
Definition demo : EdiCollection (S := binary64) :=
  collection_of ST01 [ST02; ST03] lit_ptol.

Definition demo_rows_2Hz : list (PtRow (S := binary64)) :=
  Eval vm_compute in freq_rows demo 2%float.

Definition demo_pt_dict
  : list (num (Scalar := binary64) * list (PtRow (S := binary64))) :=
  Eval vm_compute in
    fold_left (fun d fq => dict_set neqb d fq (freq_rows demo fq))
              [1; 2; 3]%float [].

(** A station sampled at 0.125 Hz and 1 Hz (periods 8 s and 1 s), one
    sampled at 0.125 Hz only, and one with a negative frequency. *)
Definition ST07 : MT (S := binary64) :=
  station_of "ST07" 136.5%float (-20.5)%float [0.125; 1]%float.
Definition ST08 : MT (S := binary64) :=
  station_of "ST08" 136.75%float (-20.25)%float [0.125]%float.
Definition ST09 : MT (S := binary64) :=
  station_of "ST09" 136.5%float (-20.5)%float [-1; 1]%float.

Definition octave : EdiCollection (S := binary64) :=
  collection_of ST07 [] lit_ptol.
Definition octave_pair : EdiCollection (S := binary64) :=
  collection_of ST07 [ST08] lit_ptol.
Definition signed : EdiCollection (S := binary64) :=
  collection_of ST09 [] lit_ptol.

(** ** The listing of CPython 2.7, for a small dict of whole numbers

    CPython 2.7 keeps a dict of up to five keys in a table of eight slots
    and lists it slot by slot.  A key goes to the slot [hash mod 8] when
    that slot is free, and the hash of a float that is a whole number (of
    magnitude up to 2^62) is that number, -2 for -1.  That much is
    modelled: a dict of up to five whole numbers that fall into different
    slots is listed by slot.  The probing after a collision, the growth of
    the table and the hash of the other floats are not: such a dict is
    listed as it is stored. *)
Definition whole_number (k : float) : option BinNums.Z :=
  match Prim2SF k with
  | S754_zero _ => Some 0%Z
  | S754_finite s m e =>
      let magnitude :=
        match e with
        | Z0 => Some (Zpos m)
        | Zpos p => Some (Zpos m * 2 ^ Zpos p)%Z
        | Zneg p => if (Zpos m mod 2 ^ Zpos p =? 0)%Z
                    then Some (Zpos m / 2 ^ Zpos p)%Z else None
        end in
      option_map (fun n => if s then (- n)%Z else n) magnitude
  | _ => None
  end.

Definition float_hash (k : float) : option BinNums.Z :=
  match whole_number k with
  | Some n => if (Z.abs n <=? 2 ^ 62)%Z
              then Some (if (n =? -1)%Z then (-2)%Z else n) else None
  | None => None
  end.

Definition slot (k : float) : option nat :=
  option_map (fun h => Z.to_nat (h mod 8)) (float_hash k).

Fixpoint slots (keys : list float) : option (list nat) :=
  match keys with
  | [] => Some []
  | k :: keys' =>
      match slot k, slots keys' with
      | Some i, Some l => Some (i :: l)
      | _, _ => None
      end
  end.

Fixpoint all_different (l : list nat) : bool :=
  match l with
  | [] => true
  | i :: l' => negb (existsb (Nat.eqb i) l') && all_different l'
  end.

Definition slot_or_zero (item : float * nat) : nat :=
  match slot (fst item) with Some i => i | None => 0%nat end.

Definition python2_items (adict : list (float * nat)) : list (float * nat) :=
  match slots (map fst adict) with
  | Some l =>
      if (length adict <=? 5)%nat && all_different l
      then sorted (key_lt slot_or_zero) adict
      else adict
  | None => adict
  end.

(** A station whose arrays [vs] need not be as long as its frequencies
    [fs]; [ST06] has two frequencies and arrays of one entry. *)
Definition station_with (name : string) (x y : num (Scalar := binary64))
           (fs vs : list (num (Scalar := binary64))) : MT (S := binary64) :=
  {| station := name; lon := x; lat := y; elev := of_int 0; utm_zone := "53K";
     MT_Z := {| freq := fs |};
     pt := {| phimin := (vs, vs); phimax := (vs, vs); azimuth := (vs, vs);
              beta := (vs, vs); ellipticity := (vs, vs) |};
     Tipper := {| mag_real := vs; mag_imag := vs;
                  angle_real := vs; angle_imag := vs |} |}.

Definition ST06 : MT (S := binary64) :=
  station_with "ST06" 136.5%float (-20.5)%float [1; 2]%float [1]%float.

Definition short_collection : EdiCollection (S := binary64) :=
  collection_of ST06 [] lit_ptol.

(** A directory [survey] holding the files of [ST01], [ST02] and [ST03]. *)
Definition survey_isdir (p : string) : bool := String.eqb p "survey".
Definition survey_isfile (p : string) : bool :=
  String.eqb p "ST01.edi" || String.eqb p "ST02.edi" || String.eqb p "ST03.edi".
Definition survey_glob (pattern : string) : list string :=
  if String.eqb pattern "survey/*.edi"
  then ["ST01.edi"; "ST02.edi"; "ST03.edi"]%string else [].
Definition survey_MT (p : string) : MT (S := binary64) :=
  if String.eqb p "ST01.edi" then ST01
  else if String.eqb p "ST02.edi" then ST02 else ST03.

(** ** The rounding of a reciprocal

    What [1/x] is in binary64, in integers: the quotient [N/D] rounded to
    the nearest integer, ties to even, at the exponent [recip_exp] of the
    result, and packed as a number of 53 digits or fewer. *)
Definition rne (N D : BinNums.Z) : BinNums.Z :=
  round_nearest_even (N / D)%Z (new_location D (N mod D)%Z).

Definition finite_or_inf (s : bool) (M E : BinNums.Z) : spec_float :=
  if (E <=? emax - prec)%Z then S754_finite s (Z.to_pos M) E
  else S754_infinity s.

Definition pack (s : bool) (M E : BinNums.Z) : spec_float :=
  if (M =? 2 ^ 53)%Z then finite_or_inf s (2 ^ 52)%Z (E + 1)%Z
  else finite_or_inf s M E.

Definition recip_exp (m : positive) (e : BinNums.Z) : BinNums.Z :=
  Z.max (-52 - (Zpos (digits2_pos m) + e)) (-1074).

(** [(Ea, Ma)] is not above [(Eb, Mb)]: the order of two magnitudes. *)
Definition below (Ma Ea Mb Eb : BinNums.Z) : Prop :=
  (Ea < Eb \/ (Ea = Eb /\ Ma <= Mb))%Z.

(** * Properties *)

(** ** The order of binary64

    The comparisons of binary64 are a [ScalarOrder]. *)

Module SF.

(** The comparison of [SpecFloat], to which the axioms of [PrimFloat]
    reduce the primitive one. *)

Lemma compare_cont_Eq (m n : positive) :
  Pos.compare_cont Eq m n = Pos.compare m n.
Proof. reflexivity. Qed.

Ltac by_cases :=
  repeat match goal with
    | |- context [Z.compare ?a ?b] => destruct (Z.compare_spec a b); subst
    | H : context [Z.compare ?a ?b] |- _ =>
        destruct (Z.compare_spec a b); subst
    | |- context [Pos.compare_cont Eq ?a ?b] =>
        rewrite (compare_cont_Eq a b); destruct (Pos.compare_spec a b); subst
    | H : context [Pos.compare_cont Eq ?a ?b] |- _ =>
        rewrite (compare_cont_Eq a b) in H;
        destruct (Pos.compare_spec a b); subst
    end.

Ltac three x y z :=
  unfold SFeqb, SFltb, SFcompare;
  destruct x as [[]|[]| |[] ? ?], y as [[]|[]| |[] ? ?], z as [[]|[]| |[] ? ?];
  simpl; try discriminate; try reflexivity;
  by_cases; simpl; try discriminate; try reflexivity; try lia.

Ltac two x y :=
  unfold SFeqb, SFltb, SFcompare;
  destruct x as [[]|[]| |[] ? ?], y as [[]|[]| |[] ? ?];
  simpl; try discriminate; try reflexivity; auto.

Lemma leb_spec x y : SFleb x y = SFltb x y || SFeqb x y.
Proof.
  unfold SFleb, SFltb, SFeqb. destruct (SFcompare x y) as [[]|]; reflexivity.
Qed.

Lemma eqb_sym x y : SFeqb x y = SFeqb y x.
Proof. two x y; by_cases; simpl; try reflexivity; lia. Qed.

Lemma eqb_trans x y z :
  SFeqb x y = true -> SFeqb y z = true -> SFeqb x z = true.
Proof. three x y z. Qed.

Lemma ltb_irrefl x : SFltb x x = false.
Proof.
  unfold SFltb, SFcompare.
  destruct x as [[]|[]| |[] m e]; simpl; try reflexivity;
    rewrite Z.compare_refl, compare_cont_Eq, Pos.compare_refl; reflexivity.
Qed.

Lemma ltb_trans x y z :
  SFltb x y = true -> SFltb y z = true -> SFltb x z = true.
Proof. three x y z. Qed.

Lemma eqb_ltb_trans x y z :
  SFeqb x y = true -> SFltb y z = true -> SFltb x z = true.
Proof. three x y z. Qed.

Lemma ltb_eqb_trans x y z :
  SFltb x y = true -> SFeqb y z = true -> SFltb x z = true.
Proof. three x y z. Qed.

Lemma ltb_comparable x y :
  SFltb x y = true -> SFeqb x x = true /\ SFeqb y y = true.
Proof.
  two x y; intros _;
    rewrite ?Z.compare_refl, ?compare_cont_Eq, ?Pos.compare_refl; auto.
Qed.

Lemma total x y :
  SFeqb x x = true -> SFeqb y y = true ->
  SFltb x y = true \/ SFeqb x y = true \/ SFltb y x = true.
Proof. two x y; intros _ _; by_cases; simpl; auto; lia. Qed.

(** Two floats that compare equal are the same float, or both a zero. *)
Lemma eqb_eq x y :
  SFeqb x y = true ->
  x = y \/ (exists s t, x = S754_zero s /\ y = S754_zero t).
Proof.
  two x y; try (right; eauto; fail); by_cases; simpl; try discriminate;
    intros _; left; reflexivity.
Qed.

End SF.

Lemma binary64_order : ScalarOrder binary64.
Proof.
  constructor; unfold comparable; simpl; intros *;
    rewrite ?FloatAxioms.leb_spec, ?FloatAxioms.ltb_spec, ?FloatAxioms.eqb_spec.
  - apply SF.leb_spec.
  - apply SF.eqb_sym.
  - apply SF.eqb_trans.
  - apply SF.ltb_irrefl.
  - apply SF.ltb_trans.
  - apply SF.eqb_ltb_trans.
  - apply SF.ltb_eqb_trans.
  - apply SF.ltb_comparable.
  - apply SF.total.
Qed.

(** ** The literals of [binary64]

    [0.00001] and [0.05] are no binary64 numbers: the literal denotes the
    nearest one, m * 2^e with the [m] and [e] below, within half a unit in
    the last place of the decimal. *)
Lemma tolerance_literal :
  Prim2SF (lit_tolerance (Scalar := binary64))
  = S754_finite false 5902958103587057 (-69)
  /\ ((2 * 5902958103587057 - 1) * 10 ^ 5 < 2 ^ 70
      < (2 * 5902958103587057 + 1) * 10 ^ 5)%Z.
Proof. split; [reflexivity | split; reflexivity]. Qed.

Lemma ptol_literal :
  Prim2SF (lit_ptol (Scalar := binary64))
  = S754_finite false 7205759403792794 (-57)
  /\ ((2 * 7205759403792794 - 1) * 20 < 2 ^ 58
      < (2 * 7205759403792794 + 1) * 20)%Z.
Proof. split; [reflexivity | split; reflexivity]. Qed.

(** ** The reciprocal in binary64

    [1/x] is the quotient rounded to nearest, and the rounding keeps the
    order: of two numbers of one sign the greater has the reciprocal that
    is not greater. *)

Module Reciprocal.
Local Open Scope Z_scope.

(** A positive number of [d] binary digits lies in [2^(d-1), 2^d). *)
Lemma digits2_pos_bounds (m : positive) :
  2 ^ (Zpos (digits2_pos m) - 1) <= Zpos m < 2 ^ Zpos (digits2_pos m).
Proof.
  induction m as [p IH | p IH | ]; cbn [digits2_pos].
  - rewrite Pos2Z.inj_succ.
    replace (Z.succ (Zpos (digits2_pos p)) - 1) with (Z.succ (Zpos (digits2_pos p) - 1)) by lia.
    rewrite !Z.pow_succ_r by lia. lia.
  - rewrite Pos2Z.inj_succ.
    replace (Z.succ (Zpos (digits2_pos p)) - 1) with (Z.succ (Zpos (digits2_pos p) - 1)) by lia.
    rewrite !Z.pow_succ_r by lia. lia.
  - simpl. lia.
Qed.

(** The location of a remainder [r] tells where [2r] stands to the
    divisor. *)
Lemma new_location_spec (D r : Z) :
  0 < D -> 0 <= r < D ->
  match new_location D r with
  | loc_Exact => r = 0
  | loc_Inexact Lt => 0 < r /\ 2 * r < D
  | loc_Inexact Eq => 2 * r = D
  | loc_Inexact Gt => D < 2 * r
  end.
Proof.
  intros HD Hr. unfold new_location, new_location_even, new_location_odd.
  destruct (Z.even D) eqn:Heven.
  - destruct (Z.eqb_spec r 0) as [-> | Hne]; [reflexivity | ].
    destruct (Z.compare_spec (2 * r) D); lia.
  - destruct (Z.eqb_spec r 0) as [-> | Hne]; [reflexivity | ].
    assert (Z.odd D = true) as Hodd by (rewrite <- Z.negb_even, Heven; reflexivity).
    apply Z.odd_spec in Hodd as (k & ->).
    destruct (Z.compare_spec (2 * r + 1) (2 * k + 1)); lia.
Qed.

(** [rne N D] is an integer nearest to [N/D], the even one of two. *)
Lemma rne_spec (N D : Z) :
  0 < D -> 0 <= N ->
  (2 * rne N D - 1) * D <= 2 * N <= (2 * rne N D + 1) * D
  /\ (2 * N = (2 * rne N D + 1) * D -> Z.even (rne N D) = true)
  /\ (2 * N = (2 * rne N D - 1) * D -> Z.even (rne N D) = true).
Proof.
  intros HD HN. unfold rne.
  pose proof (Z.div_mod N D ltac:(lia)) as Hdiv.
  pose proof (Z.mod_pos_bound N D HD) as Hr.
  pose proof (new_location_spec HD Hr) as Hloc.
  set (q := N / D) in *. set (r := N mod D) in *.
  assert (0 <= q) as Hq by (apply Z.div_pos; lia).
  destruct (new_location D r) as [ | [ | | ]]; cbn [round_nearest_even].
  - subst r. rewrite Hloc in *. split; [nia | split; intros; nia].
  - destruct (Z.even q) eqn:Heven.
    + split; [nia | split; [intros _; exact Heven | intros; nia]].
    + split; [nia | split; [intros; nia | intros _]].
      rewrite Z.even_add, Heven. reflexivity.
  - split; [nia | split; intros; nia].
  - split; [nia | split; intros; nia].
Qed.

Lemma rne_lower (N D B : Z) :
  0 < D -> 0 <= N -> B * D <= N -> B <= rne N D.
Proof.
  intros HD HN HB. destruct (rne_spec HD HN) as ((_ & Hhi) & _). nia.
Qed.

Lemma rne_upper (N D B : Z) :
  0 < D -> 0 <= N -> N <= B * D -> rne N D <= B.
Proof.
  intros HD HN HB. destruct (rne_spec HD HN) as ((Hlo & _) & _). nia.
Qed.

(** Rounding to nearest keeps the order of the quotients. *)
Lemma rne_mono (N1 D1 N2 D2 : Z) :
  0 < D1 -> 0 < D2 -> 0 <= N1 -> 0 <= N2 ->
  N2 * D1 <= N1 * D2 -> rne N2 D2 <= rne N1 D1.
Proof.
  intros HD1 HD2 HN1 HN2 Hle.
  destruct (rne_spec HD1 HN1) as ((_ & Hhi1) & Htie1 & _).
  destruct (rne_spec HD2 HN2) as ((Hlo2 & _) & _ & Htie2).
  set (R1 := rne N1 D1) in *. set (R2 := rne N2 D2) in *.
  destruct (Z_le_gt_dec R2 R1) as [ | Hgt]; [assumption | exfalso].
  assert ((2 * R2 - 1) * D2 * D1 <= 2 * N2 * D1) as H1 by nia.
  assert (2 * N1 * D2 <= (2 * R1 + 1) * D1 * D2) as H2 by nia.
  assert ((2 * R1 + 1) * (D1 * D2) <= (2 * R2 - 1) * (D1 * D2)) as H3.
  { apply Z.mul_le_mono_nonneg_r; nia. }
  assert (0 < D1 * D2) as HDD by nia.
  assert ((2 * R2 - 1) * (D1 * D2) = (2 * R1 + 1) * (D1 * D2)) as Heq by nia.
  assert (2 * R2 - 1 = 2 * R1 + 1) as HR.
  { apply Z.mul_cancel_r in Heq; lia. }
  assert (R2 = R1 + 1) as HR' by lia.
  assert (2 * N1 = (2 * R1 + 1) * D1) as T1 by nia.
  assert (2 * N2 = (2 * R2 - 1) * D2) as T2 by nia.
  specialize (Htie1 T1). specialize (Htie2 T2).
  rewrite HR', Z.even_add, Htie1 in Htie2. discriminate.
Qed.

(** A mantissa of 53 digits or fewer is not shifted; [2^53] is shifted
    by one digit. *)
Lemma shr_fexp_small (M E : Z) (l : location) :
  -1074 <= E -> 0 < M < 2 ^ 53 ->
  shr_fexp prec emax M E l = (shr_record_of_loc M l, E).
Proof.
  intros HE HM. unfold shr_fexp.
  assert (Zdigits2 M <= 53) as Hd.
  { destruct M as [ | p | p]; try lia. cbn [Zdigits2].
    pose proof (digits2_pos_bounds p) as Hb.
    destruct (Z_le_gt_dec (Zpos (digits2_pos p)) 53) as [ | Hgt]; [assumption | ].
    assert (2 ^ 53 <= 2 ^ (Zpos (digits2_pos p) - 1)) by (apply Z.pow_le_mono_r; lia).
    lia. }
  unfold fexp. change prec with 53 in *. change (SpecFloat.emin 53 emax) with (-1074) in *.
  destruct (Z.max (Zdigits2 M + E - 53) (-1074) - E) as [ | p | p] eqn:Hn;
    try reflexivity.
  lia.
Qed.

Lemma shr_fexp_top (E : Z) :
  -1074 <= E ->
  shr_fexp prec emax (2 ^ 53) E loc_Exact
  = ({| shr_m := 2 ^ 52; shr_r := false; shr_s := false |}, E + 1).
Proof.
  intros HE. unfold shr_fexp, fexp.
  change (Zdigits2 (2 ^ 53)) with 54.
  change prec with 53 in *. change (SpecFloat.emin 53 emax) with (-1074) in *.
  replace (Z.max (54 + E - 53) (-1074) - E) with 1 by lia.
  reflexivity.
Qed.

Lemma round_nearest_even_cases (q : Z) (l : location) :
  round_nearest_even q l = q \/ round_nearest_even q l = q + 1.
Proof.
  destruct l as [ | [ | | ]]; cbn [round_nearest_even]; auto.
  destruct (Z.even q); auto.
Qed.

Lemma loc_of_shr_record_of_loc (m : Z) (l : location) :
  loc_of_shr_record (shr_record_of_loc m l) = l.
Proof. destruct l as [ | [ | | ]]; reflexivity. Qed.

Lemma shr_m_of_loc (m : Z) (l : location) :
  shr_m (shr_record_of_loc m l) = m.
Proof. destruct l as [ | [ | | ]]; reflexivity. Qed.

Lemma finish_round (s : bool) (M E : Z) :
  -1074 <= E -> 0 < M <= 2 ^ 53 ->
  (let '(mrs, e) := shr_fexp prec emax M E loc_Exact in
   match shr_m mrs with
   | Z0 => S754_zero s
   | Zpos m => if e <=? emax - prec then S754_finite s m e
               else S754_infinity s
   | Zneg _ => S754_nan
   end) = pack s M E.
Proof.
  intros HE HM. unfold pack. destruct (Z.eqb_spec M (2 ^ 53)) as [-> | Hne].
  - rewrite shr_fexp_top by assumption. reflexivity.
  - rewrite shr_fexp_small by (trivial; lia). cbn [shr_record_of_loc shr_m].
    destruct M as [ | p | p]; try lia. reflexivity.
Qed.

Lemma binary_round_aux_small (s : bool) (q E : Z) (l : location) :
  -1074 <= E -> 0 < q < 2 ^ 53 ->
  binary_round_aux prec emax s q E l = pack s (round_nearest_even q l) E.
Proof.
  intros HE Hq. unfold binary_round_aux.
  rewrite shr_fexp_small by assumption.
  rewrite loc_of_shr_record_of_loc, shr_m_of_loc.
  apply finish_round; [assumption | ].
  destruct (round_nearest_even_cases q l) as [-> | ->]; lia.
Qed.

Lemma binary_round_aux_top (s : bool) (E : Z) :
  -1074 <= E ->
  binary_round_aux prec emax s (2 ^ 53) E loc_Exact = pack s (2 ^ 53) E.
Proof.
  intros HE. unfold binary_round_aux.
  rewrite shr_fexp_top by assumption.
  cbn [shr_m loc_of_shr_record round_nearest_even].
  rewrite shr_fexp_small by lia.
  reflexivity.
Qed.

Lemma bounded_inv (m : positive) (e : Z) :
  bounded prec emax m e = true ->
  e <= 971 /\ Z.max (Zpos (digits2_pos m) + e - 53) (-1074) = e.
Proof.
  unfold bounded, canonical_mantissa, fexp. intros H.
  apply andb_true_iff in H as [Hc He].
  apply Z.eqb_eq in Hc. apply Z.leb_le in He.
  change prec with 53 in *. change (SpecFloat.emin 53 emax) with (-1074) in *.
  change (emax - 53) with 971 in He. split; assumption.
Qed.

Lemma div_eucl_div_mod (a b : Z) : Z.div_eucl a b = (a / b, a mod b).
Proof. unfold Z.div, Z.modulo. now destruct (Z.div_eucl a b). Qed.

(** The quotient and the exponent with which [SFdiv] divides 1 by the
    number [m * 2^e]. *)
Lemma core_spec (m : positive) (e : Z) :
  bounded prec emax m e = true ->
  SFdiv_core_binary prec emax 4503599627370496 (-52) (Zpos m) e
  = (2 ^ (- e - recip_exp m e) / Zpos m, recip_exp m e,
     new_location (Zpos m) (2 ^ (- e - recip_exp m e) mod Zpos m)).
Proof.
  intros Hb. apply bounded_inv in Hb as [He Hc].
  unfold SFdiv_core_binary, recip_exp, fexp.
  change (Zdigits2 4503599627370496) with 53. cbn [Zdigits2].
  change prec with 53. change (SpecFloat.emin 53 emax) with (-1074).
  set (d := Zpos (digits2_pos m)) in *.
  assert (0 < d) as Hd by (unfold d; lia).
  replace (Z.min (Z.max (53 + -52 - (d + e) - 53) (-1074)) (-52 - e))
    with (Z.max (-52 - (d + e)) (-1074)) by lia.
  set (E := Z.max (-52 - (d + e)) (-1074)).
  assert (0 <= -52 - e - E) as Hs by lia.
  assert (match -52 - e - E with
          | 0 => 4503599627370496
          | Zpos _ => Z.shiftl 4503599627370496 (-52 - e - E)
          | Zneg _ => 0
          end = 2 ^ (- e - E)) as ->.
  { replace (- e - E) with (52 + (-52 - e - E)) by lia.
    rewrite Z.pow_add_r by lia.
    destruct (-52 - e - E) as [ | p | p] eqn:Hp; [reflexivity | | lia].
    rewrite Z.shiftl_mul_pow2 by lia. reflexivity. }
  rewrite div_eucl_div_mod. reflexivity.
Qed.

Lemma recip_bounds (m : positive) (e : Z) :
  bounded prec emax m e = true ->
  let k := - e - recip_exp m e in
  0 <= k
  /\ 1 <= 2 ^ k / Zpos m <= 2 ^ 53
  /\ (2 ^ k / Zpos m = 2 ^ 53 -> 2 ^ k mod Zpos m = 0)
  /\ (recip_exp m e <> -1074 -> 2 ^ 52 * Zpos m <= 2 ^ k).
Proof.
  intros Hb k. apply bounded_inv in Hb as [He Hc].
  pose proof (digits2_pos_bounds m) as Hm. unfold k, recip_exp in *.
  set (d := Zpos (digits2_pos m)) in *.
  assert (0 < d) as Hd by (unfold d; lia).
  set (E := Z.max (-52 - (d + e)) (-1074)).
  assert (d <= - e - E <= 52 + d) as Hk by lia.
  assert (2 ^ d <= 2 ^ (- e - E)) as Hlow by (apply Z.pow_le_mono_r; lia).
  assert (2 ^ (- e - E) <= 2 ^ (52 + d)) as Hhigh by (apply Z.pow_le_mono_r; lia).
  assert (2 ^ (52 + d) = 2 ^ 53 * 2 ^ (d - 1)) as Hsplit.
  { rewrite <- Z.pow_add_r by lia. f_equal. lia. }
  assert (0 < 2 ^ (d - 1)) by (apply Z.pow_pos_nonneg; lia).
  pose proof (Z.div_mod (2 ^ (- e - E)) (Zpos m) ltac:(lia)) as Hdiv.
  pose proof (Z.mod_pos_bound (2 ^ (- e - E)) (Zpos m) ltac:(lia)) as Hr.
  split; [lia | ]. split; [split | split].
  - apply Z.div_le_lower_bound; lia.
  - apply Z.div_le_upper_bound; [lia | ]. nia.
  - intros Hq. rewrite Hq in Hdiv. nia.
  - intros HE. assert (- e - E = 52 + d) as -> by lia.
    rewrite Z.pow_add_r by lia. nia.
Qed.

(** [1 / (m * 2^e)] is the quotient [2^k / m] rounded to nearest even at
    the exponent [recip_exp m e]. *)
Lemma recip_spec (s : bool) (m : positive) (e : Z) :
  bounded prec emax m e = true ->
  SFdiv prec emax (S754_finite false 4503599627370496 (-52)) (S754_finite s m e)
  = pack s (rne (2 ^ (- e - recip_exp m e)) (Zpos m)) (recip_exp m e).
Proof.
  intros Hb. unfold SFdiv. rewrite (@core_spec m e Hb). cbn [xorb].
  destruct (@recip_bounds m e Hb) as (Hk & Hq & Hexact & _).
  assert (-1074 <= recip_exp m e) as HE by (unfold recip_exp; lia).
  unfold rne.
  destruct (Z.eq_dec (2 ^ (- e - recip_exp m e) / Zpos m) (2 ^ 53)) as [Htop | Hlt].
  - rewrite (Hexact Htop), Htop.
    assert (new_location (Zpos m) 0 = loc_Exact) as ->
        by (unfold new_location; destruct (Z.even (Zpos m)); reflexivity).
    rewrite binary_round_aux_top by assumption. reflexivity.
  - apply binary_round_aux_small; [assumption | lia].
Qed.

Lemma finite_or_inf_le (Ma Ea Mb Eb : Z) :
  0 < Ma -> 0 < Mb -> below Ma Ea Mb Eb ->
  SFleb (finite_or_inf false Ma Ea) (finite_or_inf false Mb Eb) = true
  /\ SFleb (finite_or_inf true Mb Eb) (finite_or_inf true Ma Ea) = true.
Proof.
  intros Ha Hb Hle. unfold finite_or_inf. change (emax - prec) with 971.
  destruct (Z.leb_spec Ea 971), (Z.leb_spec Eb 971);
    try (split; reflexivity); [ | unfold below in Hle; lia].
  unfold SFleb, SFcompare.
  destruct Hle as [Hlt | [-> Hm]].
  - rewrite (proj2 (Z.compare_gt_iff Eb Ea) Hlt).
    apply Z.compare_lt_iff in Hlt. rewrite Hlt. split; reflexivity.
  - rewrite Z.compare_refl.
    destruct Ma as [ | a | a]; try lia. destruct Mb as [ | b | b]; try lia.
    cbn [Z.to_pos].
    change (Pos.compare_cont Eq a b) with (Pos.compare a b).
    change (Pos.compare_cont Eq b a) with (Pos.compare b a).
    rewrite (Pos.compare_antisym a b).
    assert ((a ?= b)%positive <> Gt) as Hc by exact Hm.
    destruct (a ?= b)%positive; try congruence; split; reflexivity.
Qed.

Lemma pack_le (M2 E2 M1 E1 : Z) :
  0 < M2 <= 2 ^ 53 -> 0 < M1 <= 2 ^ 53 ->
  (E2 = E1 /\ M2 <= M1) \/ (E2 < E1 /\ 2 ^ 52 <= M1) ->
  SFleb (pack false M2 E2) (pack false M1 E1) = true
  /\ SFleb (pack true M1 E1) (pack true M2 E2) = true.
Proof.
  intros H2 H1 Hle. unfold pack.
  destruct (Z.eqb_spec M2 (2 ^ 53)), (Z.eqb_spec M1 (2 ^ 53));
    apply finite_or_inf_le; unfold below; lia.
Qed.

Lemma digits2_pos_le (m1 m2 : positive) :
  (m1 <= m2)%positive -> Zpos (digits2_pos m1) <= Zpos (digits2_pos m2).
Proof.
  intros Hle. pose proof (digits2_pos_bounds m1) as H1.
  pose proof (digits2_pos_bounds m2) as H2.
  destruct (Z_le_gt_dec (Zpos (digits2_pos m1)) (Zpos (digits2_pos m2)));
    [assumption | ].
  assert (2 ^ Zpos (digits2_pos m2) <= 2 ^ (Zpos (digits2_pos m1) - 1))
    by (apply Z.pow_le_mono_r; lia).
  lia.
Qed.

Lemma recip_rne_bounds (m : positive) (e : Z) :
  bounded prec emax m e = true ->
  0 < rne (2 ^ (- e - recip_exp m e)) (Zpos m) <= 2 ^ 53
  /\ (recip_exp m e <> -1074 ->
      2 ^ 52 <= rne (2 ^ (- e - recip_exp m e)) (Zpos m)).
Proof.
  intros Hb. destruct (@recip_bounds m e Hb) as (Hk & Hq & Hexact & Hnormal).
  cbv zeta in *.
  set (N := 2 ^ (- e - recip_exp m e)) in *.
  assert (0 <= N) as HN by (apply Z.pow_nonneg; lia).
  pose proof (Z.div_mod N (Zpos m) ltac:(lia)) as Hdiv.
  pose proof (Z.mod_pos_bound N (Zpos m) ltac:(lia)) as Hr.
  split; [split | ].
  - assert (1 <= rne N (Zpos m)); [ | lia].
    apply rne_lower; [lia | lia | nia].
  - apply rne_upper; [lia | lia | ].
    destruct (Z.eq_dec (N / Zpos m) (2 ^ 53)) as [Htop | Hlt].
    + rewrite (Hexact Htop), Htop in Hdiv. lia.
    + nia.
  - intros HE. apply rne_lower; [lia | lia | ]. specialize (Hnormal HE). lia.
Qed.

(** Of two binary64 magnitudes the greater has the reciprocal that is not
    greater, whatever the common sign [s] of the two. *)
Lemma recip_antitone (m1 m2 : positive) (e1 e2 : Z) :
  bounded prec emax m1 e1 = true ->
  bounded prec emax m2 e2 = true ->
  SFltb (S754_finite false m1 e1) (S754_finite false m2 e2) = true ->
  SFleb (SFdiv prec emax (S754_finite false 4503599627370496 (-52))
               (S754_finite false m2 e2))
        (SFdiv prec emax (S754_finite false 4503599627370496 (-52))
               (S754_finite false m1 e1)) = true
  /\ SFleb (SFdiv prec emax (S754_finite false 4503599627370496 (-52))
                  (S754_finite true m1 e1))
           (SFdiv prec emax (S754_finite false 4503599627370496 (-52))
                  (S754_finite true m2 e2)) = true.
Proof.
  intros Hb1 Hb2 Hlt.
  rewrite !(@recip_spec _ m1 e1 Hb1), !(@recip_spec _ m2 e2 Hb2).
  destruct (@recip_rne_bounds m1 e1 Hb1) as (HM1 & Hn1).
  destruct (@recip_rne_bounds m2 e2 Hb2) as (HM2 & Hn2).
  destruct (@recip_bounds m1 e1 Hb1) as (Hk1 & _).
  destruct (@recip_bounds m2 e2 Hb2) as (Hk2 & _).
  cbv zeta in *.
  pose proof (digits2_pos_bounds m1) as Hd1.
  pose proof (digits2_pos_bounds m2) as Hd2.
  apply bounded_inv in Hb1 as [He1 Hc1]. apply bounded_inv in Hb2 as [He2 Hc2].
  assert (e1 < e2 \/ (e1 = e2 /\ (m1 < m2)%positive)) as Horder.
  { revert Hlt. unfold SFltb, SFcompare.
    destruct (e1 ?= e2) eqn:Hcmp; intros Hlt.
    - apply Z.compare_eq in Hcmp. right. split; [exact Hcmp | ].
      unfold Pos.lt. revert Hlt.
      change (Pos.compare_cont Eq m1 m2) with (Pos.compare m1 m2).
      destruct (Pos.compare m1 m2); [discriminate | reflexivity | discriminate].
    - left. now apply Z.compare_lt_iff.
    - discriminate Hlt. }
  apply pack_le; trivial.
  unfold recip_exp in *.
  set (d1 := Zpos (digits2_pos m1)) in *. set (d2 := Zpos (digits2_pos m2)) in *.
  assert (0 < d1) as Hp1 by (unfold d1; lia).
  assert (0 < d2) as Hp2 by (unfold d2; lia).
  assert (d1 + e1 <= d2 + e2) as Hmu.
  { destruct Horder as [He | [-> Hm]]; [lia | ].
    assert (d1 <= d2); [ | lia].
    apply digits2_pos_le. lia. }
  set (E1 := Z.max (-52 - (d1 + e1)) (-1074)) in *.
  set (E2 := Z.max (-52 - (d2 + e2)) (-1074)) in *.
  destruct (Z.eq_dec E2 E1) as [HE | HE].
  - left. split; [exact HE | ].
    apply rne_mono; try lia; try (apply Z.pow_nonneg; lia).
    rewrite HE.
    destruct Horder as [He | [-> Hm]].
    + replace (- e1 - E1) with ((- e2 - E1) + (e2 - e1)) by lia.
      rewrite Z.pow_add_r by lia.
      assert (2 <= 2 ^ (e2 - e1)) as Hstep.
      { change 2 with (2 ^ 1) at 1. apply Z.pow_le_mono_r; lia. }
      assert (d2 = 53) as Hd2' by lia.
      assert (d1 <= 53) as Hd1' by lia.
      rewrite Hd2' in Hd2. change (2 ^ (53 - 1)) with 4503599627370496 in Hd2.
      assert (Zpos m1 < 2 ^ 53) as Hm1.
      { assert (2 ^ d1 <= 2 ^ 53) by (apply Z.pow_le_mono_r; lia). lia. }
      change (2 ^ 53) with 9007199254740992 in Hm1.
      assert (0 < 2 ^ (- e2 - E1)) as Hpos by (apply Z.pow_pos_nonneg; lia).
      rewrite <- Z.mul_assoc. apply Z.mul_le_mono_nonneg_l; [lia | ].
      set (B := 2 ^ (e2 - e1)) in *. nia.
    + assert (0 < 2 ^ (- e2 - E1)) as Hpos by (apply Z.pow_pos_nonneg; lia).
      nia.
  - right. split; [lia | ]. apply Hn1. lia.
Qed.

Lemma reciprocal_of_finite (s : bool) (m : positive) (e : Z) :
  bounded prec emax m e = true ->
  exists M E, (0 < M)%Z
    /\ SFdiv prec emax (S754_finite false 4503599627370496 (-52))
                       (S754_finite s m e) = finite_or_inf s M E.
Proof.
  intros Hb. rewrite (@recip_spec s m e Hb).
  destruct (@recip_rne_bounds m e Hb) as ((HM & _) & _).
  unfold pack. destruct (_ =? _)%Z; eexists _, _; (split; [ | reflexivity]); lia.
Qed.

(** In binary64, of two numbers of the same sign the greater has the
    reciprocal that is not greater. *)
Lemma reciprocal_antitone (x y : float) :
  PrimFloat.ltb 0 x = true \/ PrimFloat.ltb y 0 = true ->
  PrimFloat.ltb x y = true ->
  PrimFloat.leb (1 / y)%float (1 / x)%float = true.
Proof.
  rewrite !ltb_spec, leb_spec, !div_spec.
  change (Prim2SF 0) with (S754_zero false).
  change (Prim2SF 1) with (S754_finite false 4503599627370496 (-52)).
  pose proof (Prim2SF_valid x) as Hx. pose proof (Prim2SF_valid y) as Hy.
  unfold SF64div.
  destruct (Prim2SF x) as [[ | ] | [ | ] | | [ | ] mx ex],
           (Prim2SF y) as [[ | ] | [ | ] | | [ | ] my ey];
    intros [Hsign | Hsign] Hlt;
    try discriminate Hsign; try discriminate Hlt.
  - (* x < 0 is -inf, y < 0 finite *)
    destruct (@reciprocal_of_finite true my ey Hy) as (M & E & HM & ->).
    unfold SFdiv, xorb, finite_or_inf. destruct (_ <=? _)%Z; reflexivity.
  - (* x < y < 0 finite *)
    apply recip_antitone; try assumption.
    revert Hlt. unfold SFltb, SFcompare.
    rewrite (Z.compare_antisym ey ex).
    change (Pos.compare_cont Eq mx my) with (Pos.compare mx my).
    change (Pos.compare_cont Eq my mx) with (Pos.compare my mx).
    rewrite (Pos.compare_antisym mx my).
    destruct (ey ?= ex)%Z; cbn [CompOpp]; trivial.
  - (* 0 < x finite, y = +inf *)
    destruct (@reciprocal_of_finite false mx ex Hx) as (M & E & HM & ->).
    unfold SFdiv, xorb, finite_or_inf. destruct (_ <=? _)%Z; reflexivity.
  - (* 0 < x < y finite *)
    apply recip_antitone; assumption.
Qed.

End Reciprocal.

(** ** [is_it_in] *)

Local Open Scope num_scope.

(** The scan of [is_it_in] is an [any]. *)
Lemma is_it_in_existsb {S : Scalar} (anum : num) (aseq : list num) :
  is_it_in anum aseq = existsb (fun y => nabs (anum - y) <? tolerance) aseq.
Proof.
  induction aseq as [ | an_number aseq' IH]; simpl; [reflexivity | ].
  rewrite IH. now destruct (nabs (anum - an_number) <? tolerance).
Qed.

(** The scan answers [True] exactly when some element passes the test of
    its loop. *)
Lemma is_it_in_exists {S : Scalar} (anum : num) (aseq : list num) :
  is_it_in anum aseq = true
  <-> exists y, In y aseq /\ (nabs (anum - y) <? tolerance) = true.
Proof.
  rewrite is_it_in_existsb, existsb_exists. reflexivity.
Qed.

(** C4, amended.  In binary64, [is_it_in anum aseq] answers [True]
    exactly when some element [y] of [aseq] has the distance
    [abs(anum - y)], as the subtraction computes it, strictly below the
    number that the literal [0.00001] denotes: 5902958103587057 * 2^-69,
    the binary64 number nearest to 1/100000.  On an empty sequence it
    answers [False] whatever [anum] is. *)
Theorem is_it_in_spec (anum : float) (aseq : list float) :
  (is_it_in (S := binary64) anum aseq = true
   <-> exists y,
      In y aseq
      /\ PrimFloat.ltb (PrimFloat.abs (PrimFloat.sub anum y))
                       0x1.4f8b588e368f1p-17%float = true)
  /\ is_it_in (S := binary64) anum [] = false
  /\ Prim2SF 0x1.4f8b588e368f1p-17%float
     = S754_finite false 5902958103587057 (-69)
  /\ ((2 * 5902958103587057 - 1) * 10 ^ 5 < 2 ^ 70
      < (2 * 5902958103587057 + 1) * 10 ^ 5)%Z.
Proof.
  split; [exact (is_it_in_exists (S := binary64) anum aseq) | ].
  split; [reflexivity | exact tolerance_literal].
Qed.

(** C4, as stated, fails.  The number 0.00001 lies within the distance
    0.00001 of 0, the bound included, and [is_it_in] does not find it in
    the sequence that holds 0. *)
Lemma tolerance_bound_counterexample :
  within_tolerance (S := binary64) 0x1.4f8b588e368f1p-17%float 0%float = true
  /\ is_it_in (S := binary64) 0x1.4f8b588e368f1p-17%float [0%float] = false
  /\ ~ (is_it_in (S := binary64) 0x1.4f8b588e368f1p-17%float [0%float] = true
        <-> exists y, In y [0%float]
                      /\ within_tolerance (S := binary64)
                           0x1.4f8b588e368f1p-17%float y = true).
Proof.
  split; [reflexivity | split; [reflexivity | ]].
  intros [_ Hfound].
  assert (is_it_in (S := binary64) 0x1.4f8b588e368f1p-17%float [0%float]
          = true) as Habsurd.
  { apply Hfound. exists 0%float. split; [now left | reflexivity]. }
  discriminate Habsurd.
Qed.

(** ** The constructor *)

Section Constructor.
Context {S : Scalar}.
Variable to_crs : nat -> nat -> num * num -> num * num.

Lemma map_geometry_frame (edilist : list MT) :
  map geometry (gdf_rows (frame_of edilist))
  = map (fun mtobj => (lon mtobj, lat mtobj)) edilist.
Proof. unfold frame_of; simpl. rewrite map_map. reflexivity. Qed.

(** On a non-empty list the constructor ends normally, with the object
    [collection_of] and six records emitted. *)
Lemma init_cons (first : MT) (others : list MT) (tol : num) :
  __init__ to_crs (first :: others) tol
  = ([Log INFO (NumEdiFiles (length (first :: others)));
      Log STDOUT (NumStations (length (first :: others)));
      Log INFO (NumFrequencies (length (frequencies_of (first :: others))));
      Log INFO (NumPeriods (length (periods_of (first :: others))));
      Log DEBUG (PeriodsArray (periods_of (first :: others)));
      Log DEBUG (BoundBoxDict (box_of first others))],
     Ok (collection_of first others tol)).
Proof.
  unfold __init__, get_bounding_box, total_bounds; cbn [bind logger emit assert
    Nat.ltb Nat.leb length _get_all_periods all_frequencies app ret
    create_mt_station_gdf set_all_periods set_geopdf set_bound_box_dict
    set_all_frequencies geopdf mt_obj_list edifiles num_of_edifiles
    all_periods bound_box_dict ptol gdf_rows map geometry].
  unfold collection_of, box_of, frequencies_of, periods_of, frame_of.
  rewrite !map_map. cbn [fst snd map]. reflexivity.
Qed.

Lemma init_nil (ptol : num) :
  __init__ to_crs [] ptol = ([Log INFO (NumEdiFiles 0)], Raise AssertionError).
Proof. reflexivity. Qed.

Lemma init_inv (edilist : list MT) (ptol : num) (c : EdiCollection) :
  snd (__init__ to_crs edilist ptol) = Ok c ->
  exists first others,
    edilist = first :: others /\ c = collection_of first others ptol.
Proof.
  destruct edilist as [ | first others].
  - rewrite init_nil. discriminate.
  - rewrite init_cons. simpl. intros [= <-]. eauto.
Qed.

End Constructor.

(** ** Loops *)

Section Loops.
Context {S : Scalar}.
Variables A B : Type.

Lemma for_each_total (body : B -> A -> M B) ev step (l : list A) :
  (forall acc x, In x l -> body acc x = (ev acc x, Ok (step acc x))) ->
  forall acc,
    for_each l acc body = (loop_events ev step l acc, Ok (fold_left step l acc)).
Proof.
  induction l as [ | x l' IH]; intros Hbody acc; simpl.
  - reflexivity.
  - rewrite Hbody by (now left). simpl.
    rewrite IH by (intros; apply Hbody; now right). reflexivity.
Qed.

(** When the events of the body do not depend on the accumulator. *)
Lemma loop_events_flat_map (ev : A -> list event) (step : B -> A -> B)
      (l : list A) (acc : B) :
  loop_events (fun _ => ev) step l acc = flat_map ev l.
Proof.
  revert acc; induction l as [ | x l' IH]; intros acc; simpl;
    [ | rewrite IH]; reflexivity.
Qed.

End Loops.

Lemma fold_left_app_flat_map {A B} (f : A -> list B) (l : list A) (acc : list B) :
  fold_left (fun acc x => acc ++ f x) l acc = acc ++ flat_map f l.
Proof.
  revert acc; induction l as [ | x l' IH]; intros acc; simpl.
  - now rewrite app_nil_r.
  - rewrite IH. now rewrite app_assoc.
Qed.

(** ** The phase tensor table *)

Section ExportFacts.
Context {S : Scalar}.

Lemma in_enumerate_from {A} (l : list A) (s i : nat) (x : A) :
  In (i, x) (combine (seq s (length l)) l)
  <-> (s <= i)%nat /\ nth_error l (i - s) = Some x.
Proof.
  revert s; induction l as [ | y l' IH]; intros s; simpl.
  - split; [intros [] | intros [_ H]]. destruct (i - s)%nat; discriminate.
  - rewrite IH. split.
    + intros [[= <- <-] | [Hle Hnth]].
      * split; [lia | ]. now rewrite Nat.sub_diag.
      * split; [lia | ].
        replace (i - s)%nat with (Datatypes.S (i - Datatypes.S s)) by lia. exact Hnth.
    + intros [Hle Hnth]. destruct (Nat.eq_dec s i) as [<- | Hne].
      * left. rewrite Nat.sub_diag in Hnth. simpl in Hnth. congruence.
      * right. split; [lia | ].
        replace (i - s)%nat with (Datatypes.S (i - Datatypes.S s)) in Hnth by lia.
        exact Hnth.
Qed.

Lemma in_enumerate {A} (l : list A) (i : nat) (x : A) :
  In (i, x) (enumerate l) <-> nth_error l i = Some x.
Proof.
  unfold enumerate. rewrite in_enumerate_from, Nat.sub_0_r.
  split; [tauto | split; [lia | assumption]].
Qed.

(** The indices kept by a filter on an enumeration come in increasing
    order. *)
Lemma filter_enumerate_sorted {A} (keep : nat * A -> bool) (l : list A) (s : nat) :
  StronglySorted lt (map fst (filter keep (combine (seq s (length l)) l)))
  /\ Forall (le s) (map fst (filter keep (combine (seq s (length l)) l))).
Proof.
  revert s; induction l as [ | y l' IH]; intros s; simpl.
  - split; constructor.
  - destruct (IH (Datatypes.S s)) as [Hsorted Hge].
    assert (Forall (le s) (map fst (filter keep
              (combine (seq (Datatypes.S s) (length l')) l')))) as Hge'.
    { eapply Forall_impl; [ | exact Hge]. simpl; intros; lia. }
    destruct (keep (s, y)); simpl.
    + split; constructor; trivial.
    + split; trivial.
Qed.

Lemma f_index_list_In (self : EdiCollection) (fq : num) (mt_obj : MT) (i : nat) :
  In i (f_index_list self fq mt_obj)
  <-> exists f2, nth_error (freq (MT_Z mt_obj)) i = Some f2
                 /\ in_window self fq f2 = true.
Proof.
  unfold f_index_list. rewrite in_map_iff. split.
  - intros ([i' f2] & <- & Hin). apply filter_In in Hin as [Hin Hw].
    apply in_enumerate in Hin. exists f2. auto.
  - intros (f2 & Hnth & Hw). exists (i, f2). split; [reflexivity | ].
    apply filter_In. split; [now apply in_enumerate | exact Hw].
Qed.

Lemma f_index_list_sorted (self : EdiCollection) (fq : num) (mt_obj : MT) :
  StronglySorted lt (f_index_list self fq mt_obj).
Proof. apply filter_enumerate_sorted. Qed.

Lemma f_index_list_bound (self : EdiCollection) (fq : num) (mt_obj : MT) (i : nat) :
  In i (f_index_list self fq mt_obj) -> (i < length (freq (MT_Z mt_obj)))%nat.
Proof.
  intros Hin. apply f_index_list_In in Hin as (f2 & Hnth & _).
  apply nth_error_Some. congruence.
Qed.

Lemma index_nth_error {A} (a : list A) (i : nat) :
  index a i = ([], match nth_error a i with
                   | Some x => Ok x
                   | None => Raise IndexError
                   end).
Proof. unfold index. destruct (nth_error a i); reflexivity. Qed.

Lemma pt_stat_row_at (fq : num) (mt_obj : MT) (p_index : nat) :
  pt_stat fq mt_obj p_index
  = ([], match row_at fq mt_obj p_index with
         | Some row => Ok row
         | None => Raise IndexError
         end).
Proof.
  unfold pt_stat, row_at. rewrite !index_nth_error.
  destruct (nth_error (fst (phimin (pt mt_obj))) p_index); [ | reflexivity].
  destruct (nth_error (fst (phimax (pt mt_obj))) p_index); [ | reflexivity].
  destruct (nth_error (fst (azimuth (pt mt_obj))) p_index); [ | reflexivity].
  destruct (nth_error (fst (beta (pt mt_obj))) p_index); [ | reflexivity].
  destruct (nth_error (fst (ellipticity (pt mt_obj))) p_index); [ | reflexivity].
  destruct (nth_error (mag_real (Tipper mt_obj)) p_index); [ | reflexivity].
  destruct (nth_error (mag_imag (Tipper mt_obj)) p_index); [ | reflexivity].
  destruct (nth_error (angle_real (Tipper mt_obj)) p_index); [ | reflexivity].
  destruct (nth_error (angle_imag (Tipper mt_obj)) p_index); reflexivity.
Qed.

Lemma row_at_well_formed (fq : num) (mt_obj : MT) (p_index : nat) :
  well_formed mt_obj ->
  (p_index < length (freq (MT_Z mt_obj)))%nat ->
  exists row, row_at fq mt_obj p_index = Some row.
Proof.
  intros (H1 & H2 & H3 & H4 & H5 & H6 & H7 & H8 & H9) Hlt. unfold row_at.
  repeat match goal with
         | |- context [nth_error ?a p_index] =>
             let E := fresh "E" in
             destruct (nth_error a p_index) eqn:E;
             [ | apply nth_error_None in E; exfalso; lia]
         end.
  eauto.
Qed.

(** The body of the station loop: its events, and the rows it leaves. *)
Lemma export_station_total (self : EdiCollection) (fq : num)
      (ptlist : list PtRow) (mt_obj : MT) :
  well_formed mt_obj ->
  export_station self fq ptlist mt_obj
  = (station_events self fq mt_obj, Ok (ptlist ++ station_rows self fq mt_obj)).
Proof.
  intros Hwf. unfold export_station, station_events, station_rows.
  pose proof (f_index_list_bound self fq mt_obj) as Hbound.
  destruct (f_index_list self fq mt_obj) as [ | p_index [ | q rest]].
  - simpl. now rewrite app_nil_r.
  - destruct (row_at_well_formed fq Hwf (Hbound p_index (or_introl eq_refl)))
      as (row & Hrow).
    simpl. rewrite pt_stat_row_at, Hrow. reflexivity.
  - destruct (row_at_well_formed fq Hwf (Hbound p_index (or_introl eq_refl)))
      as (row & Hrow).
    simpl. rewrite pt_stat_row_at, Hrow. reflexivity.
Qed.

Lemma export_freq_total (self : EdiCollection) (dest_dir : string)
      (pt_dict : list (num * list PtRow)) (fq : num) :
  Forall well_formed (mt_obj_list self) ->
  export_freq self dest_dir pt_dict fq
  = (freq_events self dest_dir fq,
     Ok (dict_set neqb pt_dict fq (freq_rows self fq))).
Proof.
  intros Hwf. unfold export_freq, freq_events, freq_rows.
  rewrite (for_each_total (export_station self fq)
             (fun _ => station_events self fq)
             (fun acc mt_obj => acc ++ station_rows self fq mt_obj)).
  - rewrite loop_events_flat_map, fold_left_app_flat_map. reflexivity.
  - intros acc mt_obj Hin. apply export_station_total.
    rewrite Forall_forall in Hwf. now apply Hwf.
Qed.

(** The whole export of a well-formed collection: it ends normally, with
    one dictionary entry per frequency. *)
Lemma create_csv_files_moved_total (self : EdiCollection) (dest_dir : string)
      (freqs : list num) :
  all_frequencies self = Some freqs ->
  Forall well_formed (mt_obj_list self) ->
  create_csv_files_moved self (Some dest_dir)
  = (WriteCsv (SummaryCsv dest_dir) wb [Header]
       :: flat_map (freq_events self dest_dir) freqs,
     Ok (fold_left (fun d fq => dict_set neqb d fq (freq_rows self fq)) freqs [])).
Proof.
  intros Hfreqs Hwf. unfold create_csv_files_moved. rewrite Hfreqs. simpl.
  rewrite (for_each_total (export_freq self dest_dir)
             (fun _ => freq_events self dest_dir)
             (fun d fq => dict_set neqb d fq (freq_rows self fq))).
  - rewrite loop_events_flat_map. reflexivity.
  - intros acc fq _. now apply export_freq_total.
Qed.

End ExportFacts.

(** ** Loop invariants, also for a loop that may raise *)

Section LoopInvariant.
Context {S : Scalar}.
Variables A B : Type.
Variable Inv : B -> Prop.
Variable Good : event -> Prop.

Lemma for_each_invariant (body : B -> A -> M B) (l : list A) :
  (forall acc x, In x l -> Inv acc ->
                 Forall Good (fst (body acc x))
                 /\ forall acc', snd (body acc x) = Ok acc' -> Inv acc') ->
  forall acc, Inv acc ->
    Forall Good (fst (for_each l acc body))
    /\ forall acc', snd (for_each l acc body) = Ok acc' -> Inv acc'.
Proof.
  induction l as [ | x l' IH]; intros Hbody acc Hacc; simpl.
  - split; [constructor | intros acc' [= <-]; exact Hacc].
  - destruct (Hbody acc x (or_introl eq_refl) Hacc) as [Hev Hnext].
    destruct (body acc x) as [tr [acc1 | e]]; simpl in *.
    + destruct (IH (fun a y Hy => Hbody a y (or_intror Hy)) acc1 (Hnext _ eq_refl))
        as [Hev' Hnext'].
      destruct (for_each l' acc1 body) as [tr' r']; simpl in *.
      split; [apply Forall_app; auto | exact Hnext'].
    + split; [exact Hev | discriminate].
Qed.

End LoopInvariant.

Lemma in_dict_set {K V} (eqb : K -> K -> bool) (d : list (K * V)) k v k' v' :
  In (k', v') (dict_set eqb d k v) -> In (k', v') d \/ v' = v.
Proof.
  induction d as [ | [k0 v0] d' IH]; simpl.
  - intros [[= <- <-] | []]. now right.
  - destruct (eqb k0 k); simpl.
    + intros [[= <- <-] | Hin]; auto.
    + intros [Heq | Hin]; auto. destruct (IH Hin); auto.
Qed.

Section Skew.
Context {S : Scalar}.

Lemma row_at_skew (fq : num) (mt_obj : MT) (p_index : nat) (row : PtRow) :
  row_at fq mt_obj p_index = Some row ->
  nth_error (fst (beta (pt mt_obj))) p_index = Some (c_skew row)
  /\ c_n_skew row = lit 2 * c_skew row.
Proof.
  unfold row_at.
  destruct (nth_error (fst (phimin (pt mt_obj))) p_index); [ | discriminate].
  destruct (nth_error (fst (phimax (pt mt_obj))) p_index); [ | discriminate].
  destruct (nth_error (fst (azimuth (pt mt_obj))) p_index); [ | discriminate].
  destruct (nth_error (fst (beta (pt mt_obj))) p_index); [ | discriminate].
  destruct (nth_error (fst (ellipticity (pt mt_obj))) p_index); [ | discriminate].
  destruct (nth_error (mag_real (Tipper mt_obj)) p_index); [ | discriminate].
  destruct (nth_error (mag_imag (Tipper mt_obj)) p_index); [ | discriminate].
  destruct (nth_error (angle_real (Tipper mt_obj)) p_index); [ | discriminate].
  destruct (nth_error (angle_imag (Tipper mt_obj)) p_index); [ | discriminate].
  intros [= <-]. simpl. auto.
Qed.

Lemma export_station_derived (self : EdiCollection) (fq : num)
      (ptlist : list PtRow) (mt_obj : MT) :
  In mt_obj (mt_obj_list self) ->
  Forall (derived self) ptlist ->
  Forall (rows_derived self) (fst (export_station self fq ptlist mt_obj))
  /\ forall ptlist', snd (export_station self fq ptlist mt_obj) = Ok ptlist' ->
                     Forall (derived self) ptlist'.
Proof.
  intros Hin Hrows. unfold export_station.
  destruct (f_index_list self fq mt_obj) as [ | p_index rest] eqn:Hidx.
  - simpl. split; [repeat constructor | intros ? [= <-]; exact Hrows].
  - rewrite pt_stat_row_at.
    destruct (row_at fq mt_obj p_index) as [row | ] eqn:Hrow.
    + apply row_at_skew in Hrow as [Hbeta Htwice].
      destruct (1 <? length (p_index :: rest))%nat; simpl;
        (split; [repeat constructor | intros ? [= <-]]);
        (apply Forall_app; split; [exact Hrows | ]);
        constructor; [ | constructor | | constructor];
        exists fq, mt_obj, p_index, rest; auto.
    + destruct (1 <? length (p_index :: rest))%nat; simpl;
        (split; [repeat constructor | discriminate]).
Qed.

Lemma Forall_derived_lines (self : EdiCollection) (rows : list PtRow) :
  Forall (derived self) rows ->
  (forall row, In (Data row) (map Data rows) -> derived self row)
  /\ (forall row, In (Data row) (Header :: map Data rows) -> derived self row).
Proof.
  intros Hrows. rewrite Forall_forall in Hrows.
  split; intros row Hin; [ | destruct Hin as [Hin | Hin]; [discriminate | ]];
    apply in_map_iff in Hin as (r & [= ->] & Hin); auto.
Qed.

Lemma export_freq_derived (self : EdiCollection) (dest_dir : string)
      (pt_dict : list (num * list PtRow)) (fq : num) :
  Forall (fun kv => Forall (derived self) (snd kv)) pt_dict ->
  Forall (rows_derived self) (fst (export_freq self dest_dir pt_dict fq))
  /\ forall pt_dict', snd (export_freq self dest_dir pt_dict fq) = Ok pt_dict' ->
                      Forall (fun kv => Forall (derived self) (snd kv)) pt_dict'.
Proof.
  intros Hdict. unfold export_freq.
  destruct (@for_each_invariant _ _ _ (fun l => Forall (derived self) l)
              (rows_derived self) (export_station self fq) (mt_obj_list self))
    with (acc := @nil PtRow) as [Hev Hres].
  - intros acc mt_obj Hin Hacc. now apply export_station_derived.
  - constructor.
  - destruct (for_each (mt_obj_list self) [] (export_station self fq))
      as [tr [ptlist | e]]; simpl in *.
    + specialize (Hres _ eq_refl).
      destruct (Forall_derived_lines Hres) as [Hab Hwb].
      split.
      * apply Forall_app. split; [exact Hev | ]. repeat constructor; assumption.
      * intros ? [= <-]. rewrite Forall_forall in *. intros [k v] Hin.
        apply in_dict_set in Hin as [Hin | ->]; [now apply Hdict | ].
        simpl. now apply Forall_forall.
    + split; [exact Hev | discriminate].
Qed.

End Skew.

(** ** [create_csv_files_moved]: the samples matched *)

(** C5, as amended.  For every frequency [fq] and every station, the
    indices the export matches are exactly the indices of the samples [f2]
    of the station with [fq*(1-ptol) < f2 < fq*(1+ptol)]: the window is
    open, a sample on either end is not matched. *)
Theorem f_index_list_open_window {S : Scalar} (self : EdiCollection)
        (fq : num) (mt_obj : MT) (i : nat) :
  In i (f_index_list self fq mt_obj)
  <-> exists f2, nth_error (freq (MT_Z mt_obj)) i = Some f2
                 /\ (fq * (lit 1 - ptol self) <? f2) = true
                 /\ (f2 <? fq * (lit 1 + ptol self)) = true.
Proof.
  rewrite f_index_list_In. unfold in_window.
  split; intros (f2 & Hnth & Hw); exists f2; split; trivial.
  - now apply andb_true_iff in Hw.
  - now apply andb_true_iff.
Qed.

(** C5, as stated, fails.  A collection of the one station [ST04], built
    with [ptol = 0.5]: at the frequency 1 Hz the closed window is
    [0.5, 1.5] and holds the sample 0 (0.5 Hz), which the export does not
    match. *)
Lemma closed_window_counterexample :
  snd (__init__ no_reprojection [ST04] 0.5%float)
  = Ok (collection_of ST04 [] 0.5%float)
  /\ all_frequencies (collection_of ST04 [] 0.5%float) = Some [0.5; 1]%float
  /\ ~ (forall i : nat,
           In i (f_index_list (collection_of ST04 [] 0.5%float) 1%float ST04)
           <-> exists f2, nth_error (freq (MT_Z ST04)) i = Some f2
                          /\ in_closed_window (collection_of ST04 [] 0.5%float)
                               1%float f2 = true).
Proof.
  split; [reflexivity | split; [reflexivity | ]].
  intros Hclaim.
  assert (In 0%nat (f_index_list (collection_of ST04 [] 0.5%float) 1%float ST04))
    as Hin.
  { apply Hclaim. exists 0.5%float. split; reflexivity. }
  vm_compute in Hin. destruct Hin as [Hin | []]. discriminate.
Qed.

(** ** [create_csv_files_moved]: no match, several matches *)

(** C6.  The export of a collection of well-formed stations ends
    normally.  At a station none of whose samples matches the frequency the
    body of the loop logs the warning "Freq NOT found", adds no row and goes
    on; at a station where several samples match it logs the warning "more
    than one fre found" and adds the one row built at the first index of the
    list, which is the least of the matching indices. *)
Theorem export_policy {S : Scalar} (self : EdiCollection) (dest_dir : string)
        (freqs : list num) :
  all_frequencies self = Some freqs ->
  Forall well_formed (mt_obj_list self) ->
  (exists pt_dict,
      snd (create_csv_files_moved self (Some dest_dir)) = Ok pt_dict)
  /\ forall fq mt_obj ptlist,
      In mt_obj (mt_obj_list self) ->
      (f_index_list self fq mt_obj = [] ->
       export_station self fq ptlist mt_obj
       = ([Log WARN (FreqNotFound fq (station mt_obj))], Ok ptlist)
       /\ (In fq freqs ->
           In (Log WARN (FreqNotFound fq (station mt_obj)))
              (fst (create_csv_files_moved self (Some dest_dir)))))
      /\ (forall p_index q rest,
             f_index_list self fq mt_obj = p_index :: q :: rest ->
             exists row,
               export_station self fq ptlist mt_obj
               = ([Log WARN (MoreThanOneFreq (p_index :: q :: rest))],
                  Ok (ptlist ++ [row]))
               /\ row_at fq mt_obj p_index = Some row
               /\ Forall (lt p_index) (q :: rest)
               /\ (In fq freqs ->
                   In (Log WARN (MoreThanOneFreq (p_index :: q :: rest)))
                      (fst (create_csv_files_moved self (Some dest_dir))))).
Proof.
  intros Hfreqs Hwf.
  rewrite (create_csv_files_moved_total self dest_dir Hfreqs Hwf). simpl.
  split; [eauto | ].
  intros fq mt_obj ptlist Hin.
  assert (well_formed mt_obj) as Hwf1
      by (rewrite Forall_forall in Hwf; now apply Hwf).
  assert (In fq freqs ->
          forall ev, In ev (station_events self fq mt_obj) ->
                     In ev (WriteCsv (SummaryCsv dest_dir) wb [Header]
                              :: flat_map (freq_events self dest_dir) freqs))
    as Hlogged.
  { intros Hfq ev Hev. right. apply in_flat_map. exists fq. split; trivial.
    unfold freq_events. apply in_or_app. left.
    apply in_flat_map. exists mt_obj. auto. }
  rewrite (export_station_total self fq ptlist Hwf1).
  unfold station_events, station_rows in *.
  pose proof (f_index_list_sorted self fq mt_obj) as Hsorted.
  pose proof (f_index_list_bound self fq mt_obj) as Hbound.
  split.
  - intros Hnone. rewrite Hnone in *. rewrite app_nil_r.
    split; [reflexivity | ]. intros Hfq. apply (Hlogged Hfq). now left.
  - intros p_index q rest Hmany. rewrite Hmany in *.
    destruct (row_at_well_formed fq Hwf1 (Hbound p_index (or_introl eq_refl)))
      as (row & Hrow).
    rewrite Hrow. exists row. repeat split; trivial.
    + now inversion Hsorted.
    + intros Hfq. apply (Hlogged Hfq). now left.
Qed.

Lemma ST05_well_formed : well_formed ST05.
Proof. repeat split. Qed.

(** The collection of [ST05], exported at [ptol = 0.05]: its two samples
    both match each of its two frequencies. *)
Lemma export_policy_witness :
  all_frequencies (collection_of ST05 [] (lit_ptol (Scalar := binary64)))
  = Some [1; 1.03125]%float
  /\ Forall well_formed
            (mt_obj_list (collection_of ST05 [] (lit_ptol (Scalar := binary64))))
  /\ exists pt_dict,
      snd (create_csv_files_moved
             (collection_of ST05 [] (lit_ptol (Scalar := binary64)))
             (Some "out"%string))
      = Ok pt_dict.
Proof.
  split; [reflexivity | split; [repeat constructor | ]].
  refine (proj1 (@export_policy binary64
                   (collection_of ST05 [] (lit_ptol (Scalar := binary64)))
                   "out"%string [1; 1.03125]%float _ _)).
  - reflexivity.
  - repeat constructor.
Defined.

(** ** [create_csv_files_moved]: skew and normalised skew *)

(** C10.  Every row of the dictionary the export returns, and every row
    of every table it writes (also when it raises half way), has
    [n_skew = 2 * skew], where [skew] is the value of [beta] of a station
    at the first sample the station matches. *)
Theorem n_skew_twice_skew {S : Scalar} (self : EdiCollection)
        (dest_dir : option string) :
  (forall pt_dict fq rows row,
      snd (create_csv_files_moved self dest_dir) = Ok pt_dict ->
      In (fq, rows) pt_dict -> In row rows ->
      c_n_skew row = lit 2 * c_skew row /\ derived self row)
  /\ (forall p md lines row,
         In (WriteCsv p md lines) (fst (create_csv_files_moved self dest_dir)) ->
         In (Data row) lines ->
         c_n_skew row = lit 2 * c_skew row /\ derived self row).
Proof.
  assert (forall row, derived self row ->
                      c_n_skew row = lit 2 * c_skew row /\ derived self row)
    as Hderived.
  { intros row Hrow. split; [ | exact Hrow].
    destruct Hrow as (? & ? & ? & ? & _ & _ & _ & Htwice). exact Htwice. }
  assert (Forall (rows_derived self) (fst (create_csv_files_moved self dest_dir))
          /\ forall pt_dict,
              snd (create_csv_files_moved self dest_dir) = Ok pt_dict ->
              Forall (fun kv => Forall (derived self) (snd kv)) pt_dict)
    as [Hev Hres].
  { unfold create_csv_files_moved.
    destruct dest_dir as [dir | ]; simpl; [ | split; [constructor | discriminate]].
    destruct (all_frequencies self) as [freqs | ]; simpl.
    - destruct (@for_each_invariant _ _ _
                  (fun d => Forall (fun kv => Forall (derived self) (snd kv)) d)
                  (rows_derived self) (export_freq self dir) freqs)
        with (acc := @nil (num * list PtRow)) as [Hev Hres].
      + intros acc fq _ Hacc. now apply export_freq_derived.
      + constructor.
      + destruct (for_each freqs [] (export_freq self dir)) as [tr r]; simpl in *.
        split; [ | exact Hres].
        constructor; [ | exact Hev]. simpl. intros row [Hrow | []]. discriminate.
    - split; [ | discriminate].
      repeat constructor. simpl. intros row [Hrow | []]. discriminate. }
  split.
  - intros pt_dict fq rows row Hok Hin Hrow. apply Hderived.
    specialize (Hres _ Hok). rewrite Forall_forall in Hres.
    specialize (Hres _ Hin). simpl in Hres. rewrite Forall_forall in Hres. auto.
  - intros p md lines row Hin Hrow. apply Hderived.
    rewrite Forall_forall in Hev. exact (Hev _ Hin row Hrow).
Qed.

Lemma demo_export :
  snd (create_csv_files_moved demo (Some "out"%string)) = Ok demo_pt_dict.
Proof. reflexivity. Qed.

Lemma n_skew_twice_skew_witness :
  snd (create_csv_files_moved demo (Some "out"%string)) = Ok demo_pt_dict
  /\ In (2%float, demo_rows_2Hz) demo_pt_dict
  /\ In (station_rows_hd demo_rows_2Hz) demo_rows_2Hz
  /\ c_skew (station_rows_hd demo_rows_2Hz) = 2%float
  /\ c_n_skew (station_rows_hd demo_rows_2Hz) = 4%float
  /\ c_n_skew (station_rows_hd demo_rows_2Hz)
     = (lit 2 * c_skew (station_rows_hd demo_rows_2Hz))%num.
Proof.
  assert (In (2%float, demo_rows_2Hz) demo_pt_dict) as Hentry
      by (right; left; reflexivity).
  assert (In (station_rows_hd demo_rows_2Hz) demo_rows_2Hz) as Hrow
      by (left; reflexivity).
  split; [exact demo_export | ].
  split; [exact Hentry | split; [exact Hrow | ]].
  split; [reflexivity | split; [reflexivity | ]].
  exact (proj1 (proj1 (n_skew_twice_skew demo (Some "out"%string))
                      demo_pt_dict 2%float demo_rows_2Hz
                      (station_rows_hd demo_rows_2Hz)
                      demo_export Hentry Hrow)).
Defined.

(** ** The constructor on an empty list *)

(** C7.  On an empty list the constructor raises (the assertion
    [len(self.edifiles) > 0] fails) after its first log record and before
    anything is computed: no object results.  On every non-empty list it
    ends normally with an object. *)
Theorem init_empty_raises {S : Scalar}
        (to_crs : nat -> nat -> num * num -> num * num) (tol : num) :
  __init__ to_crs [] tol = ([Log INFO (NumEdiFiles 0)], Raise AssertionError)
  /\ forall edilist : list MT,
      edilist <> [] -> exists c, snd (__init__ to_crs edilist tol) = Ok c.
Proof.
  split; [reflexivity | ].
  intros [ | first others] Hne; [congruence | ].
  rewrite init_cons. simpl. eauto.
Qed.

Lemma init_empty_raises_witness :
  [ST01; ST02; ST03] <> []
  /\ exists c,
      snd (__init__ no_reprojection [ST01; ST02; ST03]
                    (lit_ptol (Scalar := binary64))) = Ok c.
Proof.
  split; [discriminate | ].
  apply (proj2 (init_empty_raises no_reprojection (lit_ptol (Scalar := binary64)))).
  discriminate.
Defined.

(** ** [_get_all_periods] called again *)

(** Once [all_frequencies] is assigned, [_get_all_periods] leaves by its
    bare [return]: it answers [None] and emits nothing. *)
Lemma get_all_periods_initialized {S : Scalar} (self : EdiCollection)
      (freqs : list num) :
  all_frequencies self = Some freqs ->
  _get_all_periods self = ([], Ok (None, self)).
Proof. intros H. unfold _get_all_periods. now rewrite H. Qed.

(** On any object the first call computes and the second does not: the
    two calls of [_get_all_periods] never answer the same. *)
Lemma get_all_periods_twice {S : Scalar} (self : EdiCollection) :
  all_frequencies self = None ->
  exists tr periods self',
    _get_all_periods self = (tr, Ok (Some periods, self'))
    /\ _get_all_periods self' = ([], Ok (None, self')).
Proof.
  intros Hnone. unfold _get_all_periods at 1. rewrite Hnone. simpl.
  do 3 eexists. split; [reflexivity | reflexivity].
Qed.

(** C9 fails on the code.  A collection of the one station [ST01]
    (frequencies 1 Hz and 2 Hz): the call of [_get_all_periods] in the
    constructor answered the periods 0.5 s and 1 s; the same call on the
    constructed object answers [None]. *)
Theorem get_all_periods_second_call :
  snd (__init__ no_reprojection [ST01] (lit_ptol (Scalar := binary64)))
  = Ok (collection_of ST01 [] lit_ptol)
  /\ all_periods (collection_of ST01 [] (lit_ptol (Scalar := binary64)))
     = Some [0.5; 1]%float
  /\ _get_all_periods (collection_of ST01 [] (lit_ptol (Scalar := binary64)))
     = ([], Ok (None, collection_of ST01 [] lit_ptol)).
Proof. repeat split. Qed.

(** ** [sorted], [set] and [dict] *)

Section SortFacts.
Variable A : Type.
Variable lt : A -> A -> bool.

Lemma sorted_fold_right (l : list A) :
  sorted lt l = fold_right (insert_sorted lt) [] l.
Proof. induction l as [ | x l' IH]; simpl; [ | rewrite IH]; reflexivity. Qed.

Lemma insert_sorted_perm (x : A) (l : list A) :
  Permutation (insert_sorted lt x l) (x :: l).
Proof.
  induction l as [ | y l' IH]; simpl; [reflexivity | ].
  destruct (lt y x); [ | reflexivity].
  rewrite IH. apply perm_swap.
Qed.

Lemma sorted_perm (l : list A) : Permutation (sorted lt l) l.
Proof.
  induction l as [ | x l' IH]; simpl; [reflexivity | ].
  rewrite insert_sorted_perm. now constructor.
Qed.

(** An element greater than all of a list goes to its end. *)
Lemma insert_sorted_last (x : A) (l : list A) :
  Forall (fun y => lt y x = true) l -> insert_sorted lt x l = l ++ [x].
Proof.
  induction 1 as [ | y l' Hy _ IH]; simpl; [reflexivity | ].
  now rewrite Hy, IH.
Qed.

Lemma StronglySorted_app_before (R : A -> A -> Prop) (a b : list A) (x : A) :
  StronglySorted R (a ++ x :: b) -> Forall (fun y => R y x) a.
Proof.
  induction a as [ | y a' IH]; simpl; intros Hs; [constructor | ].
  inversion Hs as [ | ? ? Hs' Hall]; subst. constructor.
  - rewrite Forall_forall in Hall. apply Hall, in_elt.
  - now apply IH.
Qed.

Lemma fold_insert_rev (b a : list A) :
  StronglySorted (fun x y => lt x y = true) (a ++ b) ->
  fold_right (insert_sorted lt) a (rev b) = a ++ b.
Proof.
  revert a; induction b as [ | x b' IH]; intros a Hs; simpl.
  - now rewrite app_nil_r.
  - rewrite fold_right_app. simpl.
    rewrite insert_sorted_last
      by exact (@StronglySorted_app_before (fun x y => lt x y = true) a b' x Hs).
    rewrite IH; rewrite <- app_assoc; [reflexivity | exact Hs].
Qed.

(** Sorting the reverse of a strictly ascending list gives the list back:
    [sorted(l, reverse=True)] reverses such a list. *)
Lemma sorted_rev_ascending (l : list A) :
  StronglySorted (fun x y => lt x y = true) l -> sorted lt (rev l) = l.
Proof. intros Hs. rewrite sorted_fold_right. now apply (fold_insert_rev l []). Qed.

Lemma sorted_reverse_ascending (l : list A) :
  StronglySorted (fun x y => lt x y = true) l -> sorted_reverse lt l = rev l.
Proof. intros Hs. unfold sorted_reverse. now rewrite sorted_rev_ascending. Qed.

(** Two strictly ascending lists with the same elements are the same list. *)
Lemma ascending_unique (l l' : list A) :
  (forall x, lt x x = false) ->
  (forall x y z, lt x y = true -> lt y z = true -> lt x z = true) ->
  StronglySorted (fun x y => lt x y = true) l ->
  StronglySorted (fun x y => lt x y = true) l' ->
  Permutation l l' -> l = l'.
Proof.
  intros Hirrefl Htrans. revert l'.
  induction l as [ | x l1 IH]; intros l' Hs Hs' Hperm.
  - apply Permutation_nil in Hperm. now subst.
  - destruct l' as [ | y l2]; [apply Permutation_sym, Permutation_nil in Hperm; discriminate | ].
    inversion Hs as [ | ? ? Hs1 Hx]; inversion Hs' as [ | ? ? Hs2 Hy]; subst.
    rewrite Forall_forall in Hx, Hy.
    assert (x = y) as ->.
    { assert (In x (y :: l2)) as [ | Hin] by (eapply Permutation_in; [exact Hperm | now left]); [congruence | ].
      assert (In y (x :: l1)) as [ | Hin'] by (eapply Permutation_in; [apply Permutation_sym; exact Hperm | now left]); [congruence | ].
      specialize (Hx _ Hin'). specialize (Hy _ Hin).
      pose proof (Htrans _ _ _ Hx Hy) as Hxx.
      rewrite Hirrefl in Hxx. discriminate. }
    f_equal. apply IH; trivial. eapply Permutation_cons_inv; exact Hperm.
Qed.

End SortFacts.

(** The listing of CPython 2.7 is a [DictOrder]. *)
Lemma python2_items_perm (adict : list (float * nat)) :
  Permutation (python2_items adict) adict.
Proof.
  unfold python2_items. destruct (slots (map fst adict)); [ | reflexivity].
  destruct (_ && _); [apply sorted_perm | reflexivity].
Qed.

Lemma python2_order : DictOrder (S := binary64).
Proof. exact (@Build_DictOrder binary64 python2_items python2_items_perm). Defined.

Section SetFacts.
Variable A : Type.
Variable eqb : A -> A -> bool.

Lemma set_add_spec (s : list A) (x : A) :
  set_add eqb s x = if existsb (fun y => eqb y x) s then s else s ++ [x].
Proof.
  induction s as [ | y s' IH]; simpl; [reflexivity | ].
  destruct (eqb y x); simpl; [reflexivity | ].
  rewrite IH. now destruct (existsb _ s').
Qed.

Lemma ForallOrdPairs_snoc (R : A -> A -> Prop) (s : list A) (x : A) :
  ForallOrdPairs R s -> Forall (fun y => R y x) s ->
  ForallOrdPairs R (s ++ [x]).
Proof.
  induction 1 as [ | y s' Hy _ IH]; simpl; intros Hx.
  - repeat constructor.
  - inversion Hx; subst. constructor; [ | auto].
    apply Forall_app. split; [exact Hy | now constructor].
Qed.

Lemma ForallOrdPairs_perm (R : A -> A -> Prop) (l l' : list A) :
  (forall x y, R x y -> R y x) ->
  Permutation l l' -> ForallOrdPairs R l -> ForallOrdPairs R l'.
Proof.
  intros Hsym. induction 1 as [ | x l l' Hperm IH | x y l | l l' l'' _ IH1 _ IH2];
    intros Hfop; auto.
  - inversion Hfop; subst. constructor; [ | auto].
    eapply Permutation_Forall; eassumption.
  - inversion Hfop as [ | ? ? Hy Hfop']; subst.
    inversion Hy; subst. inversion Hfop'; subst.
    repeat constructor; auto.
Qed.

(** The representatives [list(set(l))] keeps: pairwise unequal, all from
    [l], and one for every element of [l] that equals itself. *)
Lemma fold_set_add_spec (l s : list A) :
  ForallOrdPairs (fun a b => eqb a b = false) s ->
  let s' := fold_left (set_add eqb) l s in
  ForallOrdPairs (fun a b => eqb a b = false) s'
  /\ (forall y, In y s' -> In y s \/ In y l)
  /\ (forall y, In y s -> In y s')
  /\ (forall x, In x l -> eqb x x = true ->
                exists y, In y s' /\ eqb y x = true).
Proof.
  revert s; induction l as [ | x l' IH]; intros s Hs; simpl.
  - repeat split; auto. intros x [].
  - assert (ForallOrdPairs (fun a b => eqb a b = false) (set_add eqb s x)
            /\ (forall y, In y (set_add eqb s x) -> In y s \/ y = x)
            /\ (forall y, In y s -> In y (set_add eqb s x))
            /\ (eqb x x = true ->
                exists y, In y (set_add eqb s x) /\ eqb y x = true))
      as (Hs1 & Hsub1 & Hinc1 & Hrep1).
    { rewrite set_add_spec. destruct (existsb (fun y => eqb y x) s) eqn:Hex.
      - repeat split; auto. intros _.
        apply existsb_exists in Hex as (y & Hy & Hyx). eauto.
      - repeat split.
        + apply ForallOrdPairs_snoc; [exact Hs | ].
          apply Forall_forall. intros y Hy.
          destruct (eqb y x) eqn:Hyx; [ | reflexivity].
          rewrite <- Hex. symmetry. apply existsb_exists. eauto.
        + intros y Hy. apply in_app_or in Hy as [ | [ | []]]; auto.
        + intros y Hy. apply in_or_app. now left.
        + intros Hxx. exists x. split; [ | exact Hxx].
          apply in_or_app. right. now left. }
    destruct (IH _ Hs1) as (Hs2 & Hsub2 & Hinc2 & Hrep2).
    repeat split; auto.
    + intros y Hy. destruct (Hsub2 y Hy) as [Hy' | Hy']; [ | auto].
      destruct (Hsub1 y Hy'); auto.
    + intros x' [<- | Hx'] Hxx; [ | auto].
      destruct (Hrep1 Hxx) as (y & Hy & Hyx). exists y. auto.
Qed.

Lemma list_set_spec (l : list A) :
  ForallOrdPairs (fun a b => eqb a b = false) (list_set eqb l)
  /\ (forall y, In y (list_set eqb l) -> In y l)
  /\ (forall x, In x l -> eqb x x = true ->
                exists y, In y (list_set eqb l) /\ eqb y x = true).
Proof.
  destruct (fold_set_add_spec l (s := [])) as (H1 & H2 & _ & H4); [constructor | ].
  repeat split; auto. intros y Hy. destruct (H2 y Hy) as [[] | ]; trivial.
Qed.

End SetFacts.

Section NumOrder.
Context {S : Scalar} {O : ScalarOrder S}.
Local Open Scope num_scope.

Lemma neqb_nltb (x y : num) : (x ==? y) = true -> (x <? y) = false.
Proof.
  intros Heq. destruct (x <? y) eqn:Hlt; [ | reflexivity].
  rewrite neqb_sym in Heq.
  pose proof (nltb_neqb_trans _ _ _ Hlt Heq) as Hxx.
  now rewrite nltb_irrefl in Hxx.
Qed.

Lemma nltb_neqb (x y : num) : (x <? y) = true -> (x ==? y) = false.
Proof.
  intros Hlt. destruct (x ==? y) eqn:Heq; [ | reflexivity].
  apply neqb_nltb in Heq. congruence.
Qed.

Lemma nleb_refl (x : num) : comparable x -> (x <=? x) = true.
Proof. intros Hx. rewrite nleb_spec, Hx. apply orb_true_r. Qed.

Lemma nltb_nleb (x y : num) : (x <? y) = true -> (x <=? y) = true.
Proof. intros H. now rewrite nleb_spec, H. Qed.

Lemma nleb_trans (x y z : num) :
  (x <=? y) = true -> (y <=? z) = true -> (x <=? z) = true.
Proof.
  rewrite !nleb_spec, !orb_true_iff. intros [Hxy | Hxy] [Hyz | Hyz].
  - left. eapply nltb_trans; eassumption.
  - left. eapply nltb_neqb_trans; eassumption.
  - left. eapply neqb_nltb_trans; eassumption.
  - right. eapply neqb_trans; eassumption.
Qed.

Lemma insert_sorted_ascending (x : num) (s : list num) :
  comparable x -> Forall comparable s ->
  Forall (fun y => (x ==? y) = false) s ->
  ascending s -> ascending (insert_sorted nltb x s).
Proof.
  intros Hx. induction s as [ | y s' IH]; simpl; intros Hc Hne Hs.
  - repeat constructor.
  - apply Forall_cons_iff in Hc as [Hy Hc].
    apply Forall_cons_iff in Hne as [Hxy Hne].
    apply StronglySorted_inv in Hs as [Hs Hys].
    destruct (y <? x) eqn:Hyx.
    + constructor; [now apply IH | ].
      eapply Permutation_Forall;
        [apply Permutation_sym, insert_sorted_perm | ].
      now constructor.
    + assert ((x <? y) = true) as Hlt.
      { destruct (nltb_total Hx Hy) as [ | [ | ]]; trivial; congruence. }
      constructor; [now constructor | ]. constructor; [exact Hlt | ].
      eapply Forall_impl; [ | exact Hys].
      simpl. intros z Hz. eapply nltb_trans; eassumption.
Qed.

(** Sorting pairwise unequal comparable numbers gives a strictly
    ascending list. *)
Lemma sorted_ascending (l : list num) :
  Forall comparable l ->
  ForallOrdPairs (fun a b => (a ==? b) = false) l ->
  ascending (sorted nltb l).
Proof.
  induction l as [ | x l' IH]; simpl; intros Hc Hne.
  - constructor.
  - apply Forall_cons_iff in Hc as [Hx Hc].
    inversion Hne as [ | ? ? Hxl Hne']; subst.
    apply insert_sorted_ascending; auto.
    + eapply Permutation_Forall; [apply Permutation_sym, sorted_perm | assumption].
    + eapply Permutation_Forall; [apply Permutation_sym, sorted_perm | assumption].
Qed.

(** The order in which a set is listed does not show in the sorted
    list. *)
Lemma sorted_set_order_irrelevant (l l' : list num) :
  Forall comparable l ->
  ForallOrdPairs (fun a b => (a ==? b) = false) l ->
  Permutation l l' ->
  sorted nltb l' = sorted nltb l.
Proof.
  intros Hc Hne Hperm.
  apply (@ascending_unique _ nltb).
  - apply nltb_irrefl.
  - apply nltb_trans.
  - apply sorted_ascending.
    + eapply Permutation_Forall; eassumption.
    + eapply ForallOrdPairs_perm; [ | exact Hperm | exact Hne].
      intros x y. now rewrite neqb_sym.
  - now apply sorted_ascending.
  - rewrite !sorted_perm. now apply Permutation_sym.
Qed.

End NumOrder.

(** ** [all_frequencies] and [all_periods] *)

Lemma StronglySorted_snoc {A} (R : A -> A -> Prop) (l : list A) (x : A) :
  StronglySorted R l -> Forall (fun y => R y x) l ->
  StronglySorted R (l ++ [x]).
Proof.
  induction 1 as [ | y l' Hs IH Hy]; simpl; intros Hx.
  - repeat constructor.
  - apply Forall_cons_iff in Hx as [Hyx Hx]. constructor; [auto | ].
    apply Forall_app. split; [exact Hy | now constructor].
Qed.

Lemma StronglySorted_rev {A} (R : A -> A -> Prop) (l : list A) :
  StronglySorted R l -> StronglySorted (fun x y => R y x) (rev l).
Proof.
  induction 1 as [ | y l' Hs IH Hy]; simpl; [constructor | ].
  apply StronglySorted_snoc; [exact IH | ].
  apply Forall_forall. intros z Hz. apply in_rev in Hz.
  rewrite Forall_forall in Hy. auto.
Qed.

Lemma StronglySorted_map_in {A B} (R : A -> A -> Prop) (R' : B -> B -> Prop)
      (f : A -> B) (l : list A) :
  (forall x y, In x l -> In y l -> R x y -> R' (f x) (f y)) ->
  StronglySorted R l -> StronglySorted R' (map f l).
Proof.
  intros Hf Hs. induction Hs as [ | y l' Hs IH Hy]; simpl; [constructor | ].
  constructor.
  - apply IH. intros x z Hx Hz. apply Hf; now right.
  - apply Forall_forall. intros z Hz. apply in_map_iff in Hz as (x & <- & Hx).
    rewrite Forall_forall in Hy. apply Hf; [now left | now right | auto].
Qed.

(** In any arithmetic: [all_frequencies] is the sorted set of the
    frequencies of the stations and [all_periods] its reciprocals in the
    opposite order, ascending when the reciprocal reverses the order of
    the frequencies at hand. *)
Lemma all_periods_reversed {S : Scalar} {O : ScalarOrder S}
        (to_crs : nat -> nat -> num * num -> num * num)
        (edilist : list MT) (tol : num) :
  edilist <> [] ->
  Forall comparable (flat_map (fun mt_obj => freq (MT_Z mt_obj)) edilist) ->
  exists c freqs periods,
    snd (__init__ to_crs edilist tol) = Ok c
    /\ all_frequencies c = Some freqs
    /\ all_periods c = Some periods
    /\ ascending freqs
    /\ (forall f, In f freqs ->
                  exists mt_obj, In mt_obj edilist /\ In f (freq (MT_Z mt_obj)))
    /\ (forall mt_obj f, In mt_obj edilist -> In f (freq (MT_Z mt_obj)) ->
                         exists f', In f' freqs /\ (f' ==? f) = true)
    /\ length periods = length freqs
    /\ (forall i, (i < length freqs)%nat ->
                  exists f, nth_error freqs (length freqs - 1 - i) = Some f
                            /\ nth_error periods i = Some (lit 1 / f))
    /\ (reciprocal_reverses freqs ->
        StronglySorted (fun p q => (p <=? q) = true) periods).
Proof.
  intros Hne Hcomparable.
  destruct edilist as [ | first others]; [congruence | ].
  set (edilist := first :: others) in *.
  set (raw := flat_map (fun mt_obj => freq (MT_Z mt_obj)) edilist) in *.
  destruct (list_set_spec neqb raw) as (Hdistinct & Hsub & Hrep).
  assert (Forall comparable (list_set neqb raw)) as Hcomparable'.
  { rewrite Forall_forall in *. auto. }
  assert (ascending (frequencies_of edilist)) as Hasc
      by (now apply sorted_ascending).
  assert (periods_of edilist
          = map (fun f => lit 1 / f) (rev (frequencies_of edilist))) as Hperiods.
  { unfold periods_of. now rewrite sorted_reverse_ascending. }
  exists (collection_of first others tol), (frequencies_of edilist),
    (periods_of edilist).
  split; [unfold edilist; now rewrite init_cons | ].
  split; [reflexivity | split; [reflexivity | ]].
  split; [exact Hasc | ].
  split; [ | split; [ | split; [ | split]]].
  - intros f Hf.
    eapply Permutation_in in Hf; [ | apply sorted_perm].
    apply Hsub, in_flat_map in Hf. exact Hf.
  - intros mt_obj f Hmt Hf.
    assert (In f raw) as Hraw by (apply in_flat_map; eauto).
    destruct (Hrep f Hraw) as (f' & Hf' & Heq).
    { rewrite Forall_forall in Hcomparable. now apply Hcomparable. }
    exists f'. split; [ | exact Heq].
    eapply Permutation_in; [apply Permutation_sym, sorted_perm | exact Hf'].
  - rewrite Hperiods. now rewrite length_map, length_rev.
  - intros i Hi. rewrite Hperiods, nth_error_map, nth_error_rev.
    apply Nat.ltb_lt in Hi as Hi'. rewrite Hi'.
    replace (length (frequencies_of edilist) - Datatypes.S i)%nat
      with (length (frequencies_of edilist) - 1 - i)%nat by lia.
    destruct (nth_error (frequencies_of edilist)
                        (length (frequencies_of edilist) - 1 - i)) as [f | ] eqn:Hnth.
    + exists f. split; reflexivity.
    + apply nth_error_None in Hnth. lia.
  - intros Hrecip. rewrite Hperiods.
    apply StronglySorted_map_in
      with (R := fun x y => (y <? x) = true).
    + intros x y Hx Hy Hlt. apply in_rev in Hx, Hy. now apply Hrecip.
    + now apply StronglySorted_rev in Hasc.
Qed.




(** ** The bounding box *)

Section BoundingBox.
Context {S : Scalar} {O : ScalarOrder S}.
Variable to_crs : nat -> nat -> num * num -> num * num.
Local Open Scope num_scope.

Lemma nmin_cases (x y : num) : nmin x y = x \/ nmin x y = y.
Proof. unfold nmin. destruct (y <? x); auto. Qed.

Lemma nmax_cases (x y : num) : nmax x y = x \/ nmax x y = y.
Proof. unfold nmax. destruct (x <? y); auto. Qed.

Lemma fold_nmin_le (l : list num) (x : num) :
  comparable x -> Forall comparable l ->
  comparable (fold_left nmin l x) /\ (fold_left nmin l x <=? x) = true.
Proof.
  revert x; induction l as [ | y l' IH]; simpl; intros x Hx Hl.
  - split; [exact Hx | now apply nleb_refl].
  - apply Forall_cons_iff in Hl as [Hy Hl].
    assert (comparable (nmin x y)) as Hm
        by (destruct (nmin_cases x y) as [-> | ->]; assumption).
    destruct (IH _ Hm Hl) as [Hc Hle]. split; [exact Hc | ].
    eapply nleb_trans; [exact Hle | ].
    unfold nmin. destruct (y <? x) eqn:Hlt;
      [now apply nltb_nleb | now apply nleb_refl].
Qed.

Lemma fold_nmax_ge (l : list num) (x : num) :
  comparable x -> Forall comparable l ->
  comparable (fold_left nmax l x) /\ (x <=? fold_left nmax l x) = true.
Proof.
  revert x; induction l as [ | y l' IH]; simpl; intros x Hx Hl.
  - split; [exact Hx | now apply nleb_refl].
  - apply Forall_cons_iff in Hl as [Hy Hl].
    assert (comparable (nmax x y)) as Hm
        by (destruct (nmax_cases x y) as [-> | ->]; assumption).
    destruct (IH _ Hm Hl) as [Hc Hle]. split; [exact Hc | ].
    eapply nleb_trans; [ | exact Hle].
    unfold nmax. destruct (x <? y) eqn:Hlt;
      [now apply nltb_nleb | now apply nleb_refl].
Qed.

Lemma fold_nmin_nmax (l : list num) (x : num) :
  comparable x -> Forall comparable l ->
  (fold_left nmin l x <=? fold_left nmax l x) = true.
Proof.
  intros Hx Hl. eapply nleb_trans;
    [apply fold_nmin_le | apply fold_nmax_ge]; assumption.
Qed.

(** The bounds of a frame of located points: there are bounds as soon as
    there is a row, the lower are not above the upper, and for one row
    they coincide. *)
Lemma total_bounds_ordered (g : GeoDataFrame) :
  gdf_rows g <> [] ->
  Forall (fun r => located (geometry r)) (gdf_rows g) ->
  exists minx miny maxx maxy,
    total_bounds g = Some (minx, miny, maxx, maxy)
    /\ (minx <=? maxx) = true /\ (miny <=? maxy) = true
    /\ (length (gdf_rows g) = 1%nat ->
        minx = maxx /\ miny = maxy
        /\ (minx ==? maxx) = true /\ (miny ==? maxy) = true).
Proof.
  unfold total_bounds.
  destruct (gdf_rows g) as [ | r rows]; [congruence | ]. intros _ Hloc.
  apply Forall_cons_iff in Hloc as [[Hx Hy] Hloc]. simpl.
  destruct (geometry r) as [x y]. simpl in Hx, Hy.
  assert (Forall comparable (map fst (map geometry rows))
          /\ Forall comparable (map snd (map geometry rows))) as [Hxs Hys].
  { split; rewrite map_map; apply Forall_map;
      (eapply Forall_impl; [ | exact Hloc]); intros r' [? ?]; assumption. }
  do 4 eexists. split; [reflexivity | ].
  split; [now apply fold_nmin_nmax | split; [now apply fold_nmin_nmax | ]].
  intros Hone. destruct rows; [ | discriminate]. simpl. auto.
Qed.

(** C8.  For every non-empty list of stations whose longitudes and
    latitudes are comparable (no NaN), the box the constructor stores, and
    the box [get_bounding_box] answers in any projection that keeps
    coordinates comparable, has [MinLon <= MaxLon] and [MinLat <= MaxLat];
    for a single station [MinLon] is [MaxLon] and [MinLat] is [MaxLat]. *)
Theorem bounding_box_ordered (edilist : list MT) (tol : num) :
  edilist <> [] ->
  Forall (fun mt_obj => located (lon mt_obj, lat mt_obj)) edilist ->
  (forall from to p, located p -> located (to_crs from to p)) ->
  exists c,
    snd (__init__ to_crs edilist tol) = Ok c
    /\ forall epsgcode, exists bdict,
        snd (get_bounding_box to_crs c epsgcode) = Ok bdict
        /\ (epsgcode = None -> bound_box_dict c = Some bdict)
        /\ (MinLon bdict <=? MaxLon bdict) = true
        /\ (MinLat bdict <=? MaxLat bdict) = true
        /\ (length edilist = 1%nat ->
            MinLon bdict = MaxLon bdict /\ MinLat bdict = MaxLat bdict
            /\ (MinLon bdict ==? MaxLon bdict) = true
            /\ (MinLat bdict ==? MaxLat bdict) = true).
Proof.
  intros Hne Hloc Hcrs.
  destruct edilist as [ | first others]; [congruence | ].
  exists (collection_of first others tol).
  split; [now rewrite init_cons | ].
  intros epsgcode.
  set (frame := match epsgcode with
                | None => frame_of (first :: others)
                | Some code => gdf_to_crs to_crs (frame_of (first :: others)) code
                end).
  assert (length (gdf_rows frame) = length (first :: others)) as Hlen.
  { unfold frame. destruct epsgcode; simpl; now rewrite ?length_map. }
  destruct (total_bounds_ordered frame)
    as (minx & miny & maxx & maxy & Hbounds & Hlon & Hlat & Hone).
  - intros Hnil. rewrite Hnil in Hlen. discriminate.
  - rewrite Forall_forall in *. intros r Hr. unfold frame in Hr.
    destruct epsgcode as [code | ]; cbn [gdf_rows gdf_to_crs frame_of] in Hr.
    + apply in_map_iff in Hr as (r' & <- & Hr).
      apply in_map_iff in Hr as (mt_obj & <- & Hmt).
      cbn [geometry]. apply Hcrs. now apply Hloc.
    + apply in_map_iff in Hr as (mt_obj & <- & Hmt).
      cbn [geometry]. now apply Hloc.
  - exists {| MinLon := minx; MinLat := miny; MaxLon := maxx; MaxLat := maxy |}.
    unfold get_bounding_box. cbn [geopdf collection_of bind ret].
    fold frame. rewrite Hbounds. simpl.
    split; [reflexivity | ]. split.
    + intros ->. unfold frame, total_bounds in Hbounds.
      rewrite map_geometry_frame in Hbounds. simpl in Hbounds.
      injection Hbounds as <- <- <- <-. unfold box_of.
      rewrite !map_map. reflexivity.
    + split; [exact Hlon | split; [exact Hlat | ]].
      intros Hsingle. apply Hone. now rewrite Hlen.
Qed.

End BoundingBox.

(** The stations [ST01], [ST02], [ST03] in binary64: longitudes from
    136.25 to 136.75, latitudes from -20.75 to -20.25. *)
Lemma bounding_box_ordered_witness :
  [ST01; ST02; ST03] <> []
  /\ Forall (fun mt_obj => located (S := binary64) (lon mt_obj, lat mt_obj))
            [ST01; ST02; ST03]
  /\ (forall from to p, located p -> located (no_reprojection from to p))
  /\ exists c bdict,
      snd (__init__ no_reprojection [ST01; ST02; ST03]
                    (lit_ptol (Scalar := binary64))) = Ok c
      /\ bound_box_dict c = Some bdict
      /\ (MinLon bdict <=? MaxLon bdict) = true
      /\ (MinLat bdict <=? MaxLat bdict) = true.
Proof.
  assert ([ST01; ST02; ST03] <> []) as Hne by discriminate.
  assert (Forall (fun mt_obj => located (S := binary64) (lon mt_obj, lat mt_obj))
                 [ST01; ST02; ST03]) as Hloc by (repeat constructor).
  assert (forall from to p, located p -> located (no_reprojection from to p))
    as Hcrs by (intros from to p Hp; exact Hp).
  split; [exact Hne | split; [exact Hloc | split; [exact Hcrs | ]]].
  destruct (@bounding_box_ordered binary64 binary64_order no_reprojection
              [ST01; ST02; ST03] lit_ptol Hne Hloc Hcrs) as (c & Hc & Hbox).
  destruct (Hbox None) as (bdict & _ & Hstored & Hlon & Hlat & _).
  exists c, bdict. auto.
Defined.

(** ** [get_periods_by_stats] *)

Section StableSort.
Variable A : Type.
Variable key : A -> nat.

Lemma insert_sorted_key (x : A) (l : list A) :
  StronglySorted (fun a b => (key a <= key b)%nat) l ->
  StronglySorted (fun a b => (key a <= key b)%nat) (insert_sorted (key_lt key) x l).
Proof.
  induction l as [ | y l' IH]; simpl; intros Hs; [repeat constructor | ].
  apply StronglySorted_inv in Hs as [Hs Hy]. unfold key_lt at 1.
  destruct (key y <? key x)%nat eqn:Hyx.
  - apply Nat.ltb_lt in Hyx. constructor; [auto | ].
    eapply Permutation_Forall; [apply Permutation_sym, insert_sorted_perm | ].
    constructor; [lia | exact Hy].
  - apply Nat.ltb_ge in Hyx. constructor; [now constructor | ].
    constructor; [exact Hyx | ].
    eapply Forall_impl; [ | exact Hy]. simpl. intros; lia.
Qed.

Lemma sorted_key (l : list A) :
  StronglySorted (fun a b => (key a <= key b)%nat) (sorted (key_lt key) l).
Proof.
  induction l as [ | x l' IH]; simpl; [constructor | ].
  now apply insert_sorted_key.
Qed.

(** Stability: the elements of one key keep their order. *)
Lemma insert_sorted_stable (k : nat) (x : A) (l : list A) :
  filter (fun a => key a =? k)%nat (insert_sorted (key_lt key) x l)
  = filter (fun a => key a =? k)%nat (x :: l).
Proof.
  induction l as [ | y l' IH]; [reflexivity | ].
  cbn [insert_sorted]. unfold key_lt at 1.
  destruct (key y <? key x)%nat eqn:Hyx; [ | reflexivity].
  apply Nat.ltb_lt in Hyx. cbn [filter] in *. rewrite IH.
  destruct (key y =? k)%nat eqn:Hy, (key x =? k)%nat eqn:Hx; try reflexivity.
  apply Nat.eqb_eq in Hy, Hx. lia.
Qed.

Lemma sorted_stable (k : nat) (l : list A) :
  filter (fun a => key a =? k)%nat (sorted (key_lt key) l)
  = filter (fun a => key a =? k)%nat l.
Proof.
  induction l as [ | x l' IH]; [reflexivity | ].
  cbn [sorted]. rewrite insert_sorted_stable. cbn [filter]. now rewrite IH.
Qed.

(** [sorted(l, key=key, reverse=True)]: a permutation of [l], keys
    descending, the elements of one key in their order in [l]. *)
Lemma sorted_reverse_key (l : list A) :
  Permutation (sorted_reverse (key_lt key) l) l
  /\ StronglySorted (fun a b => (key b <= key a)%nat) (sorted_reverse (key_lt key) l)
  /\ forall k, filter (fun a => key a =? k)%nat (sorted_reverse (key_lt key) l)
               = filter (fun a => key a =? k)%nat l.
Proof.
  unfold sorted_reverse. repeat split.
  - rewrite <- Permutation_rev, sorted_perm. apply Permutation_sym, Permutation_rev.
  - apply (StronglySorted_rev (sorted_key (rev l))).
  - intros k. now rewrite filter_rev, sorted_stable, filter_rev, rev_involutive.
Qed.

(** Sorting a list all of one key leaves it as it is. *)
Lemma sorted_reverse_constant (k : nat) (l : list A) :
  Forall (fun a => key a = k) l -> sorted_reverse (key_lt key) l = l.
Proof.
  intros Hk. destruct (sorted_reverse_key l) as (Hperm & _ & Hstable).
  specialize (Hstable k).
  rewrite !forallb_filter_id in Hstable; [exact Hstable | | ].
  - apply forallb_forall. rewrite Forall_forall in Hk.
    intros a Ha. apply Nat.eqb_eq. auto.
  - apply forallb_forall. rewrite Forall_forall in Hk.
    intros a Ha. apply Nat.eqb_eq, Hk.
    eapply Permutation_in; [exact Hperm | exact Ha].
Qed.

End StableSort.

Section Subsequences.
Variable A : Type.

Lemma subseq_refl (l : list A) : subseq l l.
Proof. induction l; constructor; assumption. Qed.

Lemma subseq_In (s l : list A) (x : A) : subseq s l -> In x s -> In x l.
Proof.
  induction 1 as [ | y s l _ IH | y s l _ IH]; simpl; intros Hin.
  - destruct Hin.
  - destruct Hin; auto.
  - auto.
Qed.

Lemma subseq_app (s l s' l' : list A) :
  subseq s l -> subseq s' l' -> subseq (s ++ s') (l ++ l').
Proof.
  induction 1 as [l | | ]; simpl; intros Hs'; try (constructor; auto; fail).
  induction l; simpl; [assumption | now constructor].
Qed.

Lemma subseq_filter (f : A -> bool) (l : list A) : subseq (filter f l) l.
Proof.
  induction l as [ | x l' IH]; simpl; [constructor | ].
  destruct (f x); now constructor.
Qed.

Lemma subseq_fold_set_add (eqb : A -> A -> bool) (l s : list A) :
  exists t, fold_left (set_add eqb) l s = s ++ t /\ subseq t l.
Proof.
  revert s; induction l as [ | x l' IH]; intros s; simpl.
  - exists []. split; [now rewrite app_nil_r | constructor].
  - destruct (IH (set_add eqb s x)) as (t & -> & Ht).
    rewrite set_add_spec. destruct (existsb _ s).
    + exists t. split; [reflexivity | now constructor].
    + exists (x :: t). split; [now rewrite <- app_assoc | now constructor].
Qed.

Lemma subseq_list_set (eqb : A -> A -> bool) (l : list A) :
  subseq (list_set eqb l) l.
Proof.
  unfold list_set. destruct (subseq_fold_set_add eqb l []) as (t & -> & Ht).
  exact Ht.
Qed.

Lemma subseq_cons_inv (x : A) (s l : list A) :
  subseq (x :: s) l -> exists l1 l2, l = l1 ++ x :: l2 /\ subseq s l2.
Proof.
  remember (x :: s) as xs eqn:Hxs. intros Hsub. revert x s Hxs.
  induction Hsub as [ | y s' l Hsub IH | y s' l Hsub IH]; intros x s Hxs.
  - discriminate.
  - injection Hxs as -> ->. exists [], l. auto.
  - destruct (IH x s Hxs) as (l1 & l2 & -> & Hs).
    exists (y :: l1), l2. auto.
Qed.

Lemma subseq_app_inv (s1 s2 l : list A) :
  subseq (s1 ++ s2) l -> exists l1 l2, l = l1 ++ l2 /\ subseq s2 l2.
Proof.
  revert l; induction s1 as [ | x s1' IH]; simpl; intros l Hsub.
  - exists [], l. auto.
  - apply subseq_cons_inv in Hsub as (l1 & l2 & -> & Hsub).
    destruct (IH _ Hsub) as (l3 & l4 & -> & Hs2).
    exists (l1 ++ x :: l3), l4. split; [ | exact Hs2].
    now rewrite <- app_assoc.
Qed.

(** What stands before in a subsequence stands before in the list. *)
Lemma before_subseq (s l : list A) (p q : A) :
  subseq s l -> before s p q -> before l p q.
Proof.
  intros Hsub (s1 & s2 & s3 & ->).
  apply subseq_app_inv in Hsub as (l1 & l2 & -> & Hsub).
  apply subseq_cons_inv in Hsub as (l3 & l4 & -> & Hsub).
  apply subseq_app_inv in Hsub as (l5 & l6 & -> & Hsub).
  apply subseq_cons_inv in Hsub as (l7 & l8 & -> & _).
  exists (l1 ++ l3), (l5 ++ l7), l8.
  now rewrite <- !app_assoc.
Qed.

Lemma before_filter (f : A -> bool) (l : list A) (p q : A) :
  before l p q -> f p = true -> f q = true -> before (filter f l) p q.
Proof.
  intros (l1 & l2 & l3 & ->) Hp Hq.
  exists (filter f l1), (filter f l2), (filter f l3).
  rewrite filter_app. simpl. rewrite Hp, filter_app. simpl. now rewrite Hq.
Qed.

End Subsequences.

Lemma before_In {A} (l : list A) (p q : A) :
  before l p q -> In p l /\ In q l.
Proof.
  intros (l1 & l2 & l3 & ->). split.
  - apply in_or_app. right. now left.
  - apply in_or_app. right. right. apply in_or_app. right. now left.
Qed.

Lemma before_map {A B} (f : A -> B) (l : list A) (a b : A) :
  before l a b -> before (map f l) (f a) (f b).
Proof.
  intros (l1 & l2 & l3 & ->). exists (map f l1), (map f l2), (map f l3).
  rewrite map_app. simpl. now rewrite map_app.
Qed.

Lemma before_map_inv {A B} (f : A -> B) (l : list A) (x y : B) :
  before (map f l) x y ->
  exists a b, f a = x /\ f b = y /\ before l a b.
Proof.
  intros (m1 & m2 & m3 & Heq).
  apply map_eq_app in Heq as (l1 & r1 & -> & <- & Heq).
  apply map_eq_cons in Heq as (a & r2 & -> & <- & Heq).
  apply map_eq_app in Heq as (l2 & r3 & -> & <- & Heq).
  apply map_eq_cons in Heq as (b & l3 & -> & <- & <-).
  exists a, b. split; [reflexivity | split; [reflexivity | ]].
  now exists l1, l2, l3.
Qed.

Section DictFacts.
Variables K V : Type.
Variable eqb : K -> K -> bool.

Lemma dict_set_map (g : K -> V) (keys : list K) (k : K) :
  (forall k', In k' keys -> eqb k' k = true -> g k = g k') ->
  dict_set eqb (map (fun x => (x, g x)) keys) k (g k)
  = map (fun x => (x, g x)) (set_add eqb keys k).
Proof.
  induction keys as [ | k' keys' IH]; simpl; intros Hg; [reflexivity | ].
  destruct (eqb k' k) eqn:Hk; simpl.
  - rewrite (Hg k') by auto. reflexivity.
  - rewrite IH by auto. reflexivity.
Qed.

(** Assigning [g k] to the keys [k] of [l] that pass [keep], in order:
    the dictionary stores the kept keys, each once, with its [g k]. *)
Lemma fold_dict_set (g : K -> V) (keep : K -> bool) (l keys : list K) :
  (forall k k', In k l -> In k' (keys ++ l) -> eqb k' k = true -> g k = g k') ->
  fold_left (fun d k => if keep k then dict_set eqb d k (g k) else d) l
            (map (fun x => (x, g x)) keys)
  = map (fun x => (x, g x)) (fold_left (set_add eqb) (filter keep l) keys).
Proof.
  revert keys; induction l as [ | x l' IH]; intros keys Hg; simpl;
    [reflexivity | ].
  assert (forall keys', (forall y, In y keys' -> In y (keys ++ [x])) ->
            forall k k', In k l' -> In k' (keys' ++ l') -> eqb k' k = true ->
                         g k = g k') as Hnext.
  { intros keys' Hsub k k' Hk Hk' Heq. apply Hg; [now right | | exact Heq].
    apply in_app_or in Hk' as [Hk' | Hk'].
    - apply Hsub, in_app_or in Hk' as [ | [<- | []]];
        apply in_or_app; [now left | right; now left].
    - apply in_or_app. right. now right. }
  destruct (keep x); simpl.
  - rewrite dict_set_map.
    + apply IH, Hnext. intros y Hy. rewrite set_add_spec in Hy.
      destruct (existsb _ keys); [apply in_or_app; now left | exact Hy].
    + intros k' Hk' Heq. apply Hg; [now left | | exact Heq].
      apply in_or_app. now left.
  - apply IH, Hnext. intros y Hy. apply in_or_app. now left.
Qed.

Lemma dict_set_keys (d : list (K * V)) (k : K) (v : V) :
  map fst (dict_set eqb d k v) = set_add eqb (map fst d) k.
Proof.
  induction d as [ | [k' v'] d' IH]; simpl; [reflexivity | ].
  destruct (eqb k' k); simpl; [reflexivity | now rewrite IH].
Qed.

(** The keys stored in a dictionary filled in a loop are the set of the
    keys assigned, whatever the values. *)
Lemma fold_dict_set_keys (g : K -> V) (keep : K -> bool) (l : list K)
      (d : list (K * V)) :
  map fst (fold_left (fun d k => if keep k then dict_set eqb d k (g k) else d) l d)
  = fold_left (set_add eqb) (filter keep l) (map fst d).
Proof.
  revert d; induction l as [ | x l' IH]; intros d; simpl; [reflexivity | ].
  rewrite IH. destruct (keep x); simpl; [now rewrite dict_set_keys | reflexivity].
Qed.

Lemma in_dict_set_key (d : list (K * V)) k v k' v' :
  In (k', v') (dict_set eqb d k v) ->
  In (k', v') d \/ (v' = v /\ (k' = k \/ eqb k' k = true)).
Proof.
  induction d as [ | [k0 v0] d' IH]; simpl.
  - intros [[= <- <-] | []]. auto.
  - destruct (eqb k0 k) eqn:Hk; simpl.
    + intros [[= <- <-] | Hin]; auto.
    + intros [Heq | Hin]; auto. destruct (IH Hin) as [ | ]; auto.
Qed.

End DictFacts.

Lemma sorted_map {A B} (lt : A -> A -> bool) (lt' : B -> B -> bool)
      (g : A -> B) (l : list A) :
  (forall x y, lt' (g x) (g y) = lt x y) ->
  sorted lt' (map g l) = map g (sorted lt l).
Proof.
  intros Hg. induction l as [ | x l' IH]; simpl; [reflexivity | ].
  rewrite IH. generalize (sorted lt l'). intros s.
  induction s as [ | y s' IHs]; simpl; [reflexivity | ].
  rewrite Hg. destruct (lt y x); simpl; [now rewrite IHs | reflexivity].
Qed.

Section Selection.
Context {S : Scalar} {D : DictOrder}.
Local Open Scope num_scope.

Lemma acount_of_stations (self : EdiCollection) (afreq : num) :
  acount_of self afreq
  = length (filter (fun mt_obj => is_it_in afreq (freq (MT_Z mt_obj)))
                   (mt_obj_list self)).
Proof.
  unfold acount_of.
  assert (forall l n,
             fold_left (fun acount mt_obj =>
                          if is_it_in afreq (freq (MT_Z mt_obj))
                          then (acount + 1)%nat else acount) l n
             = (n + length (filter (fun mt_obj =>
                                      is_it_in afreq (freq (MT_Z mt_obj))) l))%nat)
    as Hfold.
  { induction l as [ | mt_obj l' IH]; intros n; simpl; [lia | ].
    rewrite IH. destruct (is_it_in afreq (freq (MT_Z mt_obj))); simpl; lia. }
  now rewrite Hfold.
Qed.

(** The count of the inner loop is the [coverage] of the period. *)
Lemma acount_of_coverage (self : EdiCollection) (aper : num) :
  acount_of self (lit 1 / aper) = coverage self aper.
Proof. apply acount_of_stations. Qed.

(** [get_periods_by_stats] on an object with stations and periods: it
    ends normally, logs the periods it ignores and answers the keys of
    [adict], listed the way the interpreter lists a dict and then sorted
    by descending count. *)
Lemma get_periods_by_stats_fold (self : EdiCollection) (percentage : num)
      (periods : list num) :
  num_of_edifiles self <> 0%nat ->
  all_periods self = Some periods ->
  get_periods_by_stats self percentage
  = (flat_map (fun aper => if retained self percentage aper then []
                           else [Log INFO (PeriodIgnored aper)]) periods,
     Ok (map fst
           (sorted_reverse (key_lt snd)
              (items (fold_left
                        (fun adict aper =>
                           if retained self percentage aper
                           then dict_set neqb adict aper (coverage self aper)
                           else adict)
                        periods []))))).
Proof.
  intros Hn Hperiods. unfold get_periods_by_stats. rewrite Hperiods.
  cbn [iter bind ret app].
  rewrite (for_each_total
             (fun adict aper =>
                keep <- enough self (acount_of self (lit 1 / aper)) percentage;;
                if keep then ret (dict_set neqb adict aper (acount_of self (lit 1 / aper)))
                else logger INFO (PeriodIgnored aper);;; ret adict)
             (fun _ aper => if retained self percentage aper then []
                            else [Log INFO (PeriodIgnored aper)])
             (fun adict aper =>
                if retained self percentage aper
                then dict_set neqb adict aper (coverage self aper) else adict)).
  - rewrite loop_events_flat_map. cbn [bind ret]. rewrite app_nil_r.
    reflexivity.
  - intros adict aper _. rewrite !acount_of_coverage.
    unfold enough, retained, percent.
    apply Nat.eqb_neq in Hn. rewrite Hn. cbn [bind ret app].
    destruct (_ <=? _); reflexivity.
Qed.

(** Whatever the periods, the answer holds the keys of [adict], in some
    order. *)
Lemma get_periods_by_stats_run (self : EdiCollection)
      (percentage : num) (periods : list num) :
  num_of_edifiles self <> 0%nat ->
  all_periods self = Some periods ->
  exists selected,
    get_periods_by_stats self percentage
    = (flat_map (fun aper => if retained self percentage aper then []
                             else [Log INFO (PeriodIgnored aper)]) periods,
       Ok selected)
    /\ Permutation selected (kept self percentage periods).
Proof.
  intros Hn Hperiods.
  rewrite (@get_periods_by_stats_fold self percentage periods Hn Hperiods).
  eexists. split; [reflexivity | ].
  unfold kept, list_set. change (@nil num) with (map fst (@nil (num * nat))).
  rewrite <- (@fold_dict_set_keys num nat neqb (coverage self)
                (retained self percentage) periods []).
  apply Permutation_map.
  rewrite (proj1 (sorted_reverse_key snd _)). apply items_perm.
Qed.

(** When periods that compare equal are the same number, [adict] is
    [kept_dict]. *)
Lemma get_periods_by_stats_total (self : EdiCollection) (percentage : num)
      (periods : list num) :
  num_of_edifiles self <> 0%nat ->
  all_periods self = Some periods ->
  keys_same periods ->
  get_periods_by_stats self percentage
  = (flat_map (fun aper => if retained self percentage aper then []
                           else [Log INFO (PeriodIgnored aper)]) periods,
     Ok (map fst (sorted_reverse (key_lt snd)
                                 (items (kept_dict self percentage periods))))).
Proof.
  intros Hn Hperiods Hkeys.
  rewrite (@get_periods_by_stats_fold self percentage periods Hn Hperiods).
  do 5 f_equal. unfold kept_dict, kept, list_set.
  change (@nil (num * nat)) with (map (fun x => (x, coverage self x)) (@nil num)).
  apply fold_dict_set.
  intros k k' Hk Hk' Heq. simpl in Hk'.
  now rewrite (Hkeys k' k Hk' Hk Heq).
Qed.

End Selection.

Lemma fold_set_add_incl {A} (eqb : A -> A -> bool) (l s : list A) (y : A) :
  In y s -> In y (fold_left (set_add eqb) l s).
Proof.
  revert s; induction l as [ | z l' IH]; intros s Hy; simpl; [exact Hy | ].
  apply IH. rewrite set_add_spec. destruct (existsb _ s); [exact Hy | ].
  apply in_or_app. now left.
Qed.

(** Every element of [l] has its representative in [list(set(l))]:
    itself, or an earlier element equal to it. *)
Lemma list_set_represents {A} (eqb : A -> A -> bool) (l : list A) (x : A) :
  In x l -> exists y, In y (list_set eqb l) /\ (y = x \/ eqb y x = true).
Proof.
  unfold list_set. generalize (@nil A).
  induction l as [ | z l' IH]; intros s; simpl; [intros [] | ].
  intros [-> | Hx]; [ | now apply IH].
  assert (exists y, In y (set_add eqb s x) /\ (y = x \/ eqb y x = true))
    as (y & Hy & Hyx).
  { rewrite set_add_spec. destruct (existsb _ s) eqn:Hex.
    - apply existsb_exists in Hex as (y & Hy & Hyx). eauto.
    - exists x. split; [apply in_or_app; right; now left | now left]. }
  exists y. split; [now apply fold_set_add_incl | exact Hyx].
Qed.

(** ** The order of the selected periods *)

(** Every item of [kept_dict] holds the count of its period. *)
Lemma kept_dict_counts {S : Scalar} (self : EdiCollection)
      (percentage : num) (periods : list num) (item : num * nat) :
  In item (kept_dict self percentage periods) ->
  snd item = coverage self (fst item).
Proof.
  unfold kept_dict. intros Hin. apply in_map_iff in Hin as (p & <- & _).
  reflexivity.
Qed.

(** The kept periods, listed and then sorted by descending count: counts
    descend, the periods of one count keep the order in which the dict is
    listed, and the answer holds the periods that pass the test. *)
Lemma kept_sorted_order {S : Scalar} {D : DictOrder} (self : EdiCollection)
      (percentage : num) (periods : list num) :
  keys_same periods ->
  let listed := items (kept_dict self percentage periods) in
  let selected := map fst (sorted_reverse (key_lt snd) listed) in
  StronglySorted (fun p q => (coverage self q <= coverage self p)%nat) selected
  /\ (forall p q, before selected p q -> coverage self p = coverage self q ->
                  before (map fst listed) p q)
  /\ (forall p, In p selected
                <-> In p periods /\ retained self percentage p = true).
Proof.
  intros Hkeys listed selected.
  destruct (sorted_reverse_key snd listed) as (Hperm & Hsorted & Hstable).
  assert (forall item, In item (sorted_reverse (key_lt snd) listed) ->
                       snd item = coverage self (fst item)) as Hcount.
  { intros item Hin. apply (kept_dict_counts self percentage periods).
    eapply Permutation_in; [apply items_perm | ].
    eapply Permutation_in; [exact Hperm | exact Hin]. }
  split; [ | split].
  - unfold selected. eapply StronglySorted_map_in; [ | exact Hsorted].
    intros a b Ha Hb Hle. simpl in Hle.
    rewrite <- (Hcount a Ha), <- (Hcount b Hb). exact Hle.
  - intros p q Hbefore Heq.
    apply before_map_inv in Hbefore as (a & b & <- & <- & Hab).
    destruct (before_In Hab) as [Ha Hb].
    apply before_map.
    apply before_subseq
      with (s := filter (fun x => snd x =? snd a)%nat listed);
      [apply subseq_filter | ].
    rewrite <- Hstable. apply before_filter; [exact Hab | | ].
    + apply Nat.eqb_refl.
    + rewrite (Hcount b Hb), (Hcount a Ha), Heq. apply Nat.eqb_refl.
  - intros p.
    assert (In p selected <-> In p (kept self percentage periods)) as ->.
    { unfold selected.
      assert (Permutation (map fst (sorted_reverse (key_lt snd) listed))
                          (kept self percentage periods)) as Hp.
      { eapply Permutation_trans; [apply Permutation_map, Hperm | ].
        eapply Permutation_trans; [apply Permutation_map, items_perm | ].
        unfold kept_dict. rewrite map_map. simpl. rewrite map_id.
        apply Permutation_refl. }
      split; intros Hin;
        [eapply Permutation_in; [exact Hp | exact Hin]
        | eapply Permutation_in; [apply Permutation_sym, Hp | exact Hin]]. }
    split.
    + intros Hp. unfold kept in Hp.
      eapply subseq_In in Hp; [ | apply subseq_list_set].
      now apply filter_In in Hp.
    + intros Hp. apply filter_In in Hp.
      destruct (list_set_represents neqb _ _ Hp) as (y & Hy & Hyp).
      assert (y = p) as <-; [ | exact Hy].
      destruct Hyp as [ | Heq]; [assumption | ].
      apply Hkeys; [ | now apply filter_In in Hp | exact Heq].
      eapply subseq_In in Hy; [ | apply subseq_list_set].
      now apply filter_In in Hy.
Qed.

(** C2, as amended.  For every collection and every percentage, provided
    no two of its periods compare equal without being the same number,
    [get_periods_by_stats] ends normally; the periods it answers are the
    periods of [all_periods] that pass the test, by descending count (the
    number of stations at which [is_it_in] finds the frequency of the
    period), and of two of them with the same count the one that comes
    first in the answer comes first in the listing [adict.items()] of the
    dict of kept periods, whatever the order in which the interpreter
    lists a dict. *)
Theorem selected_periods_order {S : Scalar} {D : DictOrder}
        (to_crs : nat -> nat -> num * num -> num * num)
        (edilist : list MT) (tol percentage : num)
        (c : EdiCollection) (periods : list num) :
  snd (__init__ to_crs edilist tol) = Ok c ->
  all_periods c = Some periods ->
  keys_same periods ->
  exists selected,
    snd (get_periods_by_stats c percentage) = Ok selected
    /\ StronglySorted (fun p q => (coverage c q <= coverage c p)%nat) selected
    /\ (forall p q, before selected p q -> coverage c p = coverage c q ->
                    before (map fst (items (kept_dict c percentage periods))) p q)
    /\ (forall p, In p selected
                  <-> In p periods /\ retained c percentage p = true).
Proof.
  intros Hinit Hperiods Hkeys.
  apply init_inv in Hinit as (first & others & Hlist & Hc).
  assert (num_of_edifiles c <> 0%nat) as Hstations
      by (rewrite Hc; discriminate).
  rewrite (@get_periods_by_stats_total S D c percentage periods
             Hstations Hperiods Hkeys).
  eexists. split; [reflexivity | ].
  exact (@kept_sorted_order S D c percentage periods Hkeys).
Qed.

(** ** The thresholds 0 and 100 *)

Lemma ForallOrdPairs_subseq {A} (R : A -> A -> Prop) (s l : list A) :
  subseq s l -> ForallOrdPairs R l -> ForallOrdPairs R s.
Proof.
  induction 1 as [ | x s l Hsub IH | x s l Hsub IH]; intros Hl.
  - constructor.
  - inversion Hl as [ | ? ? Hx Hl']; subst. constructor; [ | auto].
    rewrite Forall_forall in *. intros y Hy. apply Hx.
    eapply subseq_In; eassumption.
  - inversion Hl; subst. auto.
Qed.

Lemma fold_set_add_distinct {A} (eqb : A -> A -> bool) (l s : list A) :
  ForallOrdPairs (fun a b => eqb a b = false) (s ++ l) ->
  fold_left (set_add eqb) l s = s ++ l.
Proof.
  revert s; induction l as [ | x l' IH]; intros s Hd; simpl.
  - now rewrite app_nil_r.
  - assert (existsb (fun y => eqb y x) s = false) as Hex.
    { destruct (existsb (fun y => eqb y x) s) eqn:Hex; [ | reflexivity].
      apply existsb_exists in Hex as (y & Hy & Hyx).
      apply in_split in Hy as (s1 & s2 & ->).
      rewrite <- app_assoc in Hd. simpl in Hd.
      apply ForallOrdPairs_subseq
        with (s := [y; x]) in Hd.
      - inversion Hd as [ | ? ? Hyx' _]; subst.
        apply Forall_inv in Hyx'. congruence.
      - change [y; x] with ([] ++ [y] ++ [] ++ [x] ++ []).
        change (s1 ++ y :: s2 ++ x :: l')
          with (s1 ++ [y] ++ s2 ++ [x] ++ l').
        repeat (apply subseq_app; try apply subseq_refl; try apply subseq_nil). }
    rewrite set_add_spec, Hex, IH; rewrite <- app_assoc; [reflexivity | exact Hd].
Qed.

Lemma list_set_distinct {A} (eqb : A -> A -> bool) (l : list A) :
  ForallOrdPairs (fun a b => eqb a b = false) l -> list_set eqb l = l.
Proof. intros Hd. unfold list_set. now rewrite fold_set_add_distinct. Qed.

Lemma filter_all_length {A} (f : A -> bool) (l : list A) :
  length (filter f l) = length l <-> forallb f l = true.
Proof.
  induction l as [ | x l' IH]; simpl; [tauto | ].
  pose proof (filter_length_le f l') as Hle.
  destruct (f x); simpl.
  - rewrite <- IH. split; [intros [= H]; exact H | intros ->; reflexivity].
  - split; [intros H; exfalso; lia | discriminate].
Qed.

Section Thresholds.
Context {S : Scalar} {O : ScalarOrder S}.
Local Open Scope num_scope.

Lemma distinct_keys_same (periods : list num) :
  distinct periods -> keys_same periods.
Proof.
  intros Hd p q Hp Hq Heq.
  destruct (ForallOrdPairs_In Hd _ _ Hp Hq) as [ | [Hne | Hne]]; trivial.
  - congruence.
  - rewrite neqb_sym in Hne. congruence.
Qed.

Lemma coverage_le (self : EdiCollection) (aper : num) :
  (coverage self aper <= length (mt_obj_list self))%nat.
Proof. unfold coverage. apply filter_length_le. Qed.

Lemma coverage_full (self : EdiCollection) (aper : num) :
  coverage self aper = length (mt_obj_list self)
  <-> present_everywhere self aper = true.
Proof. unfold coverage. apply filter_all_length. Qed.

End Thresholds.

(** The two thresholds, for any object whose [num_of_edifiles] counts its
    stations. *)
Section ThresholdsOfObject.
Context {S : Scalar} {O : ScalarOrder S} {D : DictOrder}.
Local Open Scope num_scope.
Variable self : EdiCollection.
Variable periods : list num.
Hypothesis Hnum : num_of_edifiles self = length (mt_obj_list self).
Hypothesis Hstations : num_of_edifiles self <> 0%nat.
Hypothesis Hperiods : all_periods self = Some periods.
Hypothesis Hdistinct : distinct periods.
Hypothesis Hpercent : percent_exact (num_of_edifiles self).

Lemma kept_filter (percentage : num) :
  kept self percentage periods = filter (retained self percentage) periods.
Proof.
  apply list_set_distinct.
  eapply ForallOrdPairs_subseq; [apply subseq_filter | exact Hdistinct].
Qed.

Lemma retained_zero (aper : num) : retained self (of_int 0) aper = true.
Proof.
  unfold retained. apply Hpercent. rewrite Hnum. apply coverage_le.
Qed.

Lemma retained_full (aper : num) :
  retained self (lit 100) aper = present_everywhere self aper.
Proof.
  unfold retained.
  assert (coverage self aper <= num_of_edifiles self)%nat as Hle
      by (rewrite Hnum; apply coverage_le).
  destruct (present_everywhere self aper) eqn:Hp.
  - apply coverage_full in Hp. apply (Hpercent Hle). congruence.
  - destruct (_ <=? _) eqn:Hr; [ | reflexivity].
    apply (Hpercent Hle) in Hr. rewrite Hnum in Hr.
    apply (coverage_full self aper) in Hr. congruence.
Qed.

Lemma threshold_zero_keeps_all :
  exists selected,
    snd (get_periods_by_stats self (of_int 0)) = Ok selected
    /\ Permutation selected periods.
Proof.
  destruct (@get_periods_by_stats_run S D self (of_int 0) periods
              Hstations Hperiods) as (selected & Hrun & Hperm).
  exists selected. split; [now rewrite Hrun | ].
  rewrite Hperm, kept_filter. rewrite forallb_filter_id; [reflexivity | ].
  apply forallb_forall. intros p _. apply retained_zero.
Qed.

Lemma threshold_full_everywhere :
  exists selected,
    snd (get_periods_by_stats self (lit 100)) = Ok selected
    /\ Permutation selected (filter (present_everywhere self) periods).
Proof.
  destruct (@get_periods_by_stats_run S D self (lit 100) periods
              Hstations Hperiods) as (selected & Hrun & Hperm).
  exists selected. split; [now rewrite Hrun | ].
  rewrite Hperm, kept_filter. now rewrite (filter_ext _ _ retained_full).
Qed.

End ThresholdsOfObject.

(** C3, as amended.  For every collection no two of whose periods compare
    equal, the percentage being computed exactly enough
    ([percent_exact]), and whatever the order in which the interpreter
    lists a dict: [get_periods_by_stats(0)] answers every period of
    [all_periods] once, that is a permutation of [all_periods];
    [get_periods_by_stats(100)] answers once each exactly the periods [p]
    for which [is_it_in] finds [1/p] among the frequencies of every
    station. *)
Theorem coverage_thresholds {S : Scalar} {O : ScalarOrder S} {D : DictOrder}
        (to_crs : nat -> nat -> num * num -> num * num)
        (edilist : list MT) (tol : num)
        (c : EdiCollection) (periods : list num) :
  snd (__init__ to_crs edilist tol) = Ok c ->
  all_periods c = Some periods ->
  distinct periods ->
  percent_exact (length edilist) ->
  (exists selected,
      snd (get_periods_by_stats c (of_int 0)) = Ok selected
      /\ Permutation selected periods)
  /\ (exists selected,
         snd (get_periods_by_stats c (lit 100)) = Ok selected
         /\ Permutation selected (filter (present_everywhere c) periods)).
Proof.
  intros Hinit Hperiods Hdistinct Hpercent.
  apply init_inv in Hinit as (first & others & -> & ->).
  set (self := collection_of first others tol) in *.
  assert (num_of_edifiles self = length (mt_obj_list self)) as Hnum
      by reflexivity.
  assert (num_of_edifiles self <> 0%nat) as Hstations by discriminate.
  split.
  - apply threshold_zero_keeps_all; assumption.
  - apply threshold_full_everywhere; assumption.
Qed.

(** *** The hypotheses in binary64 *)

(** Two floats that compare equal are the same float unless they are
    zeros: periods none of which is zero are [keys_same]. *)
Lemma binary64_keys_same (periods : list float) :
  Forall (fun p => PrimFloat.eqb p 0 = false) periods ->
  keys_same (S := binary64) periods.
Proof.
  intros Hnz p q Hp Hq Heq. simpl in Heq.
  rewrite FloatAxioms.eqb_spec in Heq.
  destruct (SF.eqb_eq _ _ Heq) as [Hsame | (s & t & Hzero & _)].
  - now apply Prim2SF_inj.
  - rewrite Forall_forall in Hnz. specialize (Hnz p Hp).
    rewrite FloatAxioms.eqb_spec, Hzero in Hnz. discriminate.
Qed.

Lemma percent_exactb_sound {S : Scalar} (n : nat) :
  percent_exactb n = true -> percent_exact n.
Proof.
  unfold percent_exactb. rewrite forallb_forall. intros Hall k Hk.
  specialize (Hall k). rewrite in_seq in Hall.
  apply andb_true_iff in Hall as [Hzero Hfull]; [ | lia].
  split; [exact Hzero | ]. apply eqb_prop in Hfull. rewrite Hfull.
  apply Nat.eqb_eq.
Qed.

Lemma of_int_uint63 (i : PrimInt63.int) :
  of_int (Scalar := binary64) (Uint63.to_Z i) = PrimFloat.of_uint63 i.
Proof.
  simpl. rewrite <- FloatAxioms.of_uint63_spec.
  apply FloatAxioms.SF2Prim_Prim2SF.
Qed.

Lemma percent_check_sound (fuel k0 n0 : nat) (k n : PrimInt63.int) :
  Uint63.to_Z k = Z.of_nat k0 ->
  Uint63.to_Z n = Z.of_nat n0 ->
  (Z.of_nat (k0 + fuel) < 2 ^ 62)%Z ->
  percent_check fuel k n (PrimFloat.of_uint63 n) = true ->
  forall j, (k0 <= j < k0 + fuel)%nat ->
            (percent (S := binary64) j n0 >=? of_int 0) = true
            /\ ((percent (S := binary64) j n0 >=? lit 100) = true <-> j = n0).
Proof.
  revert k0 k. induction fuel as [ | fuel' IH]; intros k0 k Hk Hn Hbound Hcheck j Hj;
    [lia | ].
  cbn [percent_check] in Hcheck.
  apply andb_true_iff in Hcheck as [Hcheck Hrest].
  apply andb_true_iff in Hcheck as [Hzero Hfull].
  destruct (Nat.eq_dec j k0) as [-> | Hne].
  - unfold percent. rewrite <- Hk, <- Hn, !of_int_uint63.
    split; [exact Hzero | ]. apply eqb_prop in Hfull.
    change (lit (S := binary64) 100) with 100%float.
    simpl. rewrite Hfull, Uint63.eqb_spec. split.
    + intros ->. apply Nat2Z.inj. congruence.
    + intros ->. apply Uint63.to_Z_inj. congruence.
  - apply (IH (Datatypes.S k0) (Uint63.add k (Uint63.of_Z 1))); trivial.
    + rewrite Uint63.add_spec, Hk.
      change (Uint63.to_Z (Uint63.of_Z 1)) with 1%Z.
      rewrite Z.mod_small; [lia | ].
      change Uint63.wB with (2 ^ 63)%Z. lia.
    + replace (Datatypes.S k0 + fuel')%nat with (k0 + Datatypes.S fuel')%nat by lia.
      exact Hbound.
    + lia.
Qed.

Lemma percent_check_upto_sound (bound n : nat) :
  percent_check_upto bound = true ->
  (Z.of_nat bound < 2 ^ 61)%Z ->
  (1 <= n <= bound)%nat ->
  percent_exact (S := binary64) n.
Proof.
  intros Hall Hbound Hn k Hk.
  unfold percent_check_upto in Hall. rewrite forallb_forall in Hall.
  specialize (Hall n). cbv zeta in Hall.
  apply (@percent_check_sound (Datatypes.S n) 0 n (Uint63.of_Z 0)
           (Uint63.of_Z (Z.of_nat n))).
  - reflexivity.
  - rewrite Uint63.of_Z_spec, Z.mod_small; [reflexivity | ].
    change Uint63.wB with (2 ^ 63)%Z. lia.
  - rewrite Nat.add_0_l. lia.
  - apply Hall, in_seq. lia.
  - lia.
Qed.

Lemma percent_check_bound : percent_check_upto station_bound = true.
Proof. vm_compute. reflexivity. Qed.

(** In binary64 the percentage is exact enough for every collection of
    up to five thousand stations: checked for each pair [k <= n]. *)
Lemma binary64_percent_exact (n : nat) :
  (1 <= Z.of_nat n <= 5000)%Z -> percent_exact (S := binary64) n.
Proof.
  intros Hn. apply (@percent_check_upto_sound station_bound n percent_check_bound).
  - unfold station_bound. rewrite Z2Nat.id by lia. reflexivity.
  - unfold station_bound. lia.
Qed.

Local Open Scope num_scope.

(** *** The thresholds on sample data *)

(** C3, as stated, fails.  The stations [ST07] (0.125 Hz, 1 Hz) and
    [ST08] (0.125 Hz): [all_periods] is 1 s, 8 s, found at one and at two
    stations.  At the threshold 0 both are kept and, however the
    interpreter lists a dict, the answer is 8 s, 1 s: not [all_periods]. *)
Lemma threshold_zero_counterexample :
  snd (__init__ no_reprojection [ST07; ST08] lit_ptol) = Ok octave_pair
  /\ all_periods octave_pair = Some [1; 8]%float
  /\ map (coverage octave_pair) [1; 8]%float = [1; 2]%nat
  /\ forall D : DictOrder,
      snd (get_periods_by_stats (D := D) octave_pair (of_int 0))
      = Ok [8; 1]%float
      /\ snd (get_periods_by_stats (D := D) octave_pair (of_int 0))
         <> Ok [1; 8]%float.
Proof.
  split; [reflexivity | split; [reflexivity | split; [reflexivity | ]]].
  intros D.
  assert (snd (get_periods_by_stats (D := D) octave_pair (of_int 0))
          = Ok [8; 1]%float) as Hrun.
  { assert (keys_same (S := binary64) [1; 8]%float) as Hkeys
        by (apply binary64_keys_same; repeat constructor).
    rewrite (@get_periods_by_stats_total binary64 D octave_pair (of_int 0)
               [1; 8]%float ltac:(discriminate) eq_refl Hkeys).
    cbn [snd]. f_equal.
    pose proof (@kept_sorted_order binary64 D octave_pair (of_int 0)
                  [1; 8]%float Hkeys) as Horder.
    cbv zeta in Horder. destruct Horder as (Hsorted & _ & _).
    assert (kept_dict octave_pair (of_int 0) [1; 8]%float
            = [(1%float, 1%nat); (8%float, 2%nat)]) as Hdict by reflexivity.
    set (listed := items (kept_dict octave_pair (of_int 0) [1; 8]%float)) in *.
    assert (Permutation [(1%float, 1%nat); (8%float, 2%nat)]
                        (sorted_reverse (key_lt snd) listed)) as Hperm.
    { rewrite <- Hdict. apply Permutation_sym.
      eapply Permutation_trans;
        [exact (proj1 (sorted_reverse_key snd listed))
        | exact (@items_perm binary64 D _)]. }
    apply Permutation_length_2_inv in Hperm as [Heq | Heq];
      rewrite Heq in Hsorted |- *; [ | reflexivity].
    exfalso. cbn [map fst] in Hsorted.
    apply StronglySorted_inv in Hsorted as [_ Hle].
    apply Forall_inv in Hle.
    change (coverage octave_pair 8%float) with 2%nat in Hle.
    change (coverage octave_pair 1%float) with 1%nat in Hle. lia. }
  split; [exact Hrun | ]. rewrite Hrun. intros Hclaim.
  apply (f_equal (fun r => match r with
                           | Ok (p :: _) => PrimFloat.eqb p 1
                           | _ => false
                           end)) in Hclaim.
  discriminate Hclaim.
Qed.

Lemma demo_periods_distinct : distinct (S := binary64) (periods_of [ST01; ST02; ST03]).
Proof. repeat constructor. Qed.

Lemma coverage_thresholds_witness :
  snd (__init__ no_reprojection [ST01; ST02; ST03] lit_ptol) = Ok demo
  /\ all_periods demo = Some (periods_of [ST01; ST02; ST03])
  /\ distinct (S := binary64) (periods_of [ST01; ST02; ST03])
  /\ percent_exact (S := binary64) (length [ST01; ST02; ST03])
  /\ (exists selected,
        snd (get_periods_by_stats (D := python2_order) demo (of_int 0))
        = Ok selected
        /\ Permutation selected (periods_of [ST01; ST02; ST03]))
  /\ (exists selected,
        snd (get_periods_by_stats (D := python2_order) demo (lit 100))
        = Ok selected
        /\ Permutation selected
             (filter (present_everywhere demo) (periods_of [ST01; ST02; ST03]))).
Proof.
  assert (percent_exact (S := binary64) (length [ST01; ST02; ST03])) as Hpercent
      by (apply binary64_percent_exact; simpl; lia).
  split; [reflexivity | split; [reflexivity | ]].
  split; [exact demo_periods_distinct | split; [exact Hpercent | ]].
  exact (@coverage_thresholds binary64 binary64_order python2_order
           no_reprojection [ST01; ST02; ST03] lit_ptol demo
           (periods_of [ST01; ST02; ST03])
           eq_refl eq_refl demo_periods_distinct Hpercent).
Defined.

Lemma selected_periods_order_witness :
  snd (__init__ no_reprojection [ST01; ST02; ST03] lit_ptol) = Ok demo
  /\ all_periods demo = Some (periods_of [ST01; ST02; ST03])
  /\ keys_same (S := binary64) (periods_of [ST01; ST02; ST03])
  /\ exists selected,
      snd (get_periods_by_stats (D := python2_order) demo (of_int 50))
      = Ok selected
      /\ StronglySorted (fun p q => (coverage demo q <= coverage demo p)%nat)
                        selected.
Proof.
  assert (keys_same (S := binary64) (periods_of [ST01; ST02; ST03])) as Hkeys
      by (apply binary64_keys_same; repeat constructor).
  split; [reflexivity | split; [reflexivity | split; [exact Hkeys | ]]].
  destruct (@selected_periods_order binary64 python2_order no_reprojection
              [ST01; ST02; ST03] lit_ptol (of_int 50) demo
              (periods_of [ST01; ST02; ST03]) eq_refl eq_refl Hkeys)
    as (selected & Hrun & Hsorted & _).
  exists selected. auto.
Defined.

(** C2, as stated, fails.  One station sampled at 0.125 Hz and 1 Hz:
    [all_periods] is 1 s, 8 s, each found at the one station.  CPython 2.7
    stores the key 8.0 (hash 8) in slot 0 of the table and the key 1.0 in
    slot 1, and lists 8.0 first: the answer is 8 s, 1 s, two periods of
    the same count in the order opposite to that of [all_periods]. *)
Lemma tie_order_counterexample :
  snd (__init__ no_reprojection [ST07] lit_ptol) = Ok octave
  /\ all_periods octave = Some [1; 8]%float
  /\ map (coverage octave) [1; 8]%float = [1; 1]%nat
  /\ snd (get_periods_by_stats (D := python2_order) octave (of_int 50))
     = Ok [8; 1]%float
  /\ ~ (forall p q, before [8; 1]%float p q ->
                    coverage octave p = coverage octave q ->
                    before [1; 8]%float p q).
Proof.
  split; [reflexivity | split; [reflexivity | split; [reflexivity | ]]].
  split; [reflexivity | ].
  intros Hclaim.
  destruct (Hclaim 8%float 1%float) as (l1 & l2 & l3 & Heq).
  - now exists [], [], [].
  - reflexivity.
  - destruct l1 as [ | x [ | y l1]].
    + apply (f_equal (fun l => match l with
                               | p :: _ => PrimFloat.eqb p 1
                               | [] => false
                               end)) in Heq.
      discriminate Heq.
    + injection Heq as _ Heq. destruct l2; discriminate Heq.
    + injection Heq as _ _ Heq. destruct l1; discriminate Heq.
Qed.

(** * More properties of the module *)

(** ** [is_it_in]: what the scan depends on, and what it never finds *)

(** X1.  The answer of [is_it_in] depends on the elements of the sequence
    only, not on their order or on how often they occur: two sequences
    with the same elements give the same answer. *)
Theorem is_it_in_same_elements {S : Scalar} (anum : num) (aseq aseq' : list num) :
  (forall y, In y aseq <-> In y aseq') ->
  is_it_in anum aseq = is_it_in anum aseq'.
Proof.
  intros Hsame. rewrite !is_it_in_existsb. apply eq_true_iff_eq.
  rewrite !existsb_exists.
  split; intros (y & Hy & Hnear); exists y; split; trivial; now apply Hsame.
Qed.

Lemma is_it_in_same_elements_witness :
  (forall y, In y [1; 2]%float <-> In y [2; 1; 1]%float)
  /\ is_it_in (S := binary64) 2%float [1; 2]%float
     = is_it_in (S := binary64) 2%float [2; 1; 1]%float.
Proof.
  assert (forall y, In y [1; 2]%float <-> In y [2; 1; 1]%float) as Hsame
      by (intros y; simpl; tauto).
  split; [exact Hsame | ].
  exact (@is_it_in_same_elements binary64 2%float _ _ Hsame).
Defined.

(** In binary64 the distance of a NaN or an infinity to any number is a
    NaN or an infinity, never below the tolerance. *)
Lemma near_not_finite (x y : float) :
  PrimFloat.is_finite x = false ->
  PrimFloat.ltb (PrimFloat.abs (PrimFloat.sub x y)) (tolerance (S := binary64))
  = false.
Proof.
  unfold PrimFloat.is_finite, PrimFloat.is_nan, PrimFloat.is_infinity.
  rewrite negb_false_iff, orb_true_iff, negb_true_iff.
  rewrite !FloatAxioms.eqb_spec, FloatAxioms.ltb_spec, !FloatAxioms.abs_spec,
    FloatAxioms.sub_spec.
  unfold tolerance. rewrite (proj1 tolerance_literal).
  change (Prim2SF infinity) with (S754_infinity false).
  unfold SF64sub, SFeqb.
  destruct (Prim2SF x) as [sx | sx | | sx mx ex].
  - intros [H | H]; discriminate H.
  - intros _. destruct sx, (Prim2SF y) as [sy | sy | | sy my ey];
      try destruct sy; reflexivity.
  - intros _. destruct (Prim2SF y); reflexivity.
  - intros [H | H]; [ | discriminate H].
    unfold SFcompare in H. rewrite Z.compare_refl, Pos.compare_cont_refl in H.
    destruct sx; discriminate H.
Qed.

(** X2.  In binary64, [is_it_in] never finds a NaN or an infinity, not
    even in a sequence that holds it. *)
Theorem is_it_in_not_finite (anum : float) (aseq : list float) :
  PrimFloat.is_finite anum = false ->
  is_it_in (S := binary64) anum aseq = false.
Proof.
  intros Hx. rewrite is_it_in_existsb.
  induction aseq as [ | y aseq' IH]; [reflexivity | ].
  cbn [existsb]. rewrite IH. cbn [nltb nabs nsub binary64].
  now rewrite (@near_not_finite anum y Hx).
Qed.

Lemma is_it_in_not_finite_witness :
  PrimFloat.is_finite infinity = false
  /\ is_it_in (S := binary64) infinity [infinity; 1; nan]%float = false.
Proof.
  split; [reflexivity | ].
  exact (@is_it_in_not_finite infinity [infinity; 1; nan]%float eq_refl).
Defined.

(** A finite float minus itself is zero. *)
Lemma sub_diag_finite (x : float) :
  PrimFloat.is_finite x = true -> PrimFloat.sub x x = 0%float.
Proof.
  unfold PrimFloat.is_finite, PrimFloat.is_nan, PrimFloat.is_infinity.
  rewrite negb_true_iff, orb_false_iff, negb_false_iff.
  rewrite !FloatAxioms.eqb_spec, FloatAxioms.abs_spec.
  change (Prim2SF infinity) with (S754_infinity false).
  intros [Hnan Hinf]. apply Prim2SF_inj. rewrite FloatAxioms.sub_spec.
  change (Prim2SF 0) with (S754_zero false). unfold SF64sub.
  destruct (Prim2SF x) as [sx | sx | | sx mx ex]; try discriminate.
  - now destruct sx.
  - unfold SFsub. rewrite Z.sub_diag. reflexivity.
Qed.

(** X3.  In binary64, [is_it_in] finds every finite number that the
    sequence holds: the test by tolerance extends plain membership. *)
Theorem is_it_in_member (anum : float) (aseq : list float) :
  PrimFloat.is_finite anum = true -> In anum aseq ->
  is_it_in (S := binary64) anum aseq = true.
Proof.
  intros Hx Hin. rewrite is_it_in_existsb. apply existsb_exists.
  exists anum. split; [exact Hin | ].
  cbn [nltb nabs nsub binary64]. now rewrite (@sub_diag_finite anum Hx).
Qed.

Lemma is_it_in_member_witness :
  PrimFloat.is_finite 2 = true /\ In 2%float [1; 2]%float
  /\ is_it_in (S := binary64) 2%float [1; 2]%float = true.
Proof.
  split; [reflexivity | ]. split; [simpl; auto | ].
  apply (@is_it_in_member 2%float [1; 2]%float); [reflexivity | simpl; auto].
Defined.

(** ** The constructor: frequencies, periods and the station frame *)

Section SetOfComparable.
Context {S : Scalar} {O : ScalarOrder S}.

Lemma distinct_NoDup (l : list num) :
  Forall comparable l -> distinct l -> NoDup l.
Proof.
  intros Hc Hd. induction Hd as [ | x l' Hx Hl IH]; constructor.
  - intros Hin. rewrite Forall_forall in Hx. specialize (Hx x Hin).
    apply Forall_inv in Hc. unfold comparable in Hc. congruence.
  - apply IH. now apply Forall_inv_tail in Hc.
Qed.

Lemma list_set_same_elements (l : list num) (x : num) :
  Forall comparable l -> keys_same l ->
  In x (list_set neqb l) <-> In x l.
Proof.
  intros Hc Hk. destruct (list_set_spec neqb l) as (_ & Hsub & Hrep).
  split; [apply Hsub | ]. intros Hx.
  rewrite Forall_forall in Hc.
  destruct (Hrep x Hx (Hc x Hx)) as (y & Hy & Heq).
  now rewrite <- (Hk y x (Hsub y Hy) Hx Heq).
Qed.

(** [sorted(list(set(l)))] depends on the elements of [l] only. *)
Lemma sorted_list_set_same_elements (l l' : list num) :
  Forall comparable l -> keys_same l ->
  (forall f, In f l <-> In f l') ->
  sorted nltb (list_set neqb l') = sorted nltb (list_set neqb l).
Proof.
  intros Hc Hk Hsame.
  assert (Forall comparable l') as Hc'.
  { rewrite Forall_forall in *. intros f Hf. now apply Hc, Hsame. }
  assert (keys_same l') as Hk'.
  { intros p q Hp Hq. apply Hk; now apply Hsame. }
  destruct (list_set_spec neqb l) as (Hd & Hsub & _).
  destruct (list_set_spec neqb l') as (Hd' & Hsub' & _).
  assert (Forall comparable (list_set neqb l)) as Hcs
      by (rewrite Forall_forall in *; auto).
  assert (Forall comparable (list_set neqb l')) as Hcs'
      by (rewrite Forall_forall in *; auto).
  apply sorted_set_order_irrelevant; trivial.
  apply NoDup_Permutation; try now apply distinct_NoDup.
  intros f. rewrite !list_set_same_elements by trivial. apply Hsame.
Qed.

End SetOfComparable.

(** X4.  The frequencies and periods of a collection do not depend on the
    order in which the stations are listed, nor on a station being listed
    twice: two lists of stations whose sampled frequencies are the same
    numbers (comparable, and equal only when they are the same number, so
    no zero of either sign next to the other) give the same
    [all_frequencies] and the same [all_periods]. *)
Theorem frequencies_order_irrelevant {S : Scalar} {O : ScalarOrder S}
        (to_crs : nat -> nat -> num * num -> num * num)
        (edilist edilist' : list MT) (tol tol' : num)
        (c c' : EdiCollection) :
  snd (__init__ to_crs edilist tol) = Ok c ->
  snd (__init__ to_crs edilist' tol') = Ok c' ->
  Forall comparable (flat_map (fun mt_obj => freq (MT_Z mt_obj)) edilist) ->
  keys_same (flat_map (fun mt_obj => freq (MT_Z mt_obj)) edilist) ->
  (forall f, In f (flat_map (fun mt_obj => freq (MT_Z mt_obj)) edilist)
             <-> In f (flat_map (fun mt_obj => freq (MT_Z mt_obj)) edilist')) ->
  all_frequencies c' = all_frequencies c /\ all_periods c' = all_periods c.
Proof.
  intros Hinit Hinit' Hc Hk Hsame.
  apply init_inv in Hinit as (first & others & -> & ->).
  apply init_inv in Hinit' as (first' & others' & -> & ->).
  cbn [collection_of all_frequencies all_periods]. unfold periods_of, frequencies_of.
  now rewrite (@sorted_list_set_same_elements S O _ _ Hc Hk Hsame).
Qed.

(** The stations of [demo], listed in another order and [ST03] twice. *)
Lemma frequencies_order_irrelevant_witness :
  (forall f,
      In f (flat_map (fun mt_obj => freq (MT_Z mt_obj)) [ST01; ST02; ST03])
      <-> In f (flat_map (fun mt_obj => freq (MT_Z mt_obj))
                         [ST02; ST03; ST01; ST03]))
  /\ all_frequencies (collection_of ST02 [ST03; ST01; ST03] 0.5%float)
     = all_frequencies demo
  /\ all_periods (collection_of ST02 [ST03; ST01; ST03] 0.5%float)
     = all_periods demo.
Proof.
  assert (forall f,
             In f (flat_map (fun mt_obj => freq (MT_Z mt_obj)) [ST01; ST02; ST03])
             <-> In f (flat_map (fun mt_obj => freq (MT_Z mt_obj))
                                [ST02; ST03; ST01; ST03])) as Hsame
      by (intros f; simpl; tauto).
  split; [exact Hsame | ].
  apply (@frequencies_order_irrelevant binary64 binary64_order no_reprojection
           [ST01; ST02; ST03] [ST02; ST03; ST01; ST03] lit_ptol 0.5%float
           demo (collection_of ST02 [ST03; ST01; ST03] 0.5%float)
           eq_refl eq_refl).
  - repeat constructor.
  - apply binary64_keys_same. repeat constructor.
  - exact Hsame.
Defined.

(** X6.  On a collection the constructor has built, [_get_all_periods]
    answers [None], logs nothing and leaves the object as it is; assigning
    its answer to [all_periods], the way the constructor does, makes
    [get_periods_by_stats] raise a [TypeError]. *)
Theorem reassigned_periods_raise {S : Scalar} {D : DictOrder}
        (to_crs : nat -> nat -> num * num -> num * num)
        (edilist : list MT) (tol percentage : num) (c : EdiCollection) :
  snd (__init__ to_crs edilist tol) = Ok c ->
  exists periods,
    all_periods c = Some periods
    /\ _get_all_periods c = ([], Ok (None, c))
    /\ get_periods_by_stats (set_all_periods c None) percentage
       = ([], Raise TypeError).
Proof.
  intros Hinit. apply init_inv in Hinit as (first & others & -> & ->).
  exists (periods_of (first :: others)). repeat split.
Qed.

Lemma reassigned_periods_raise_witness :
  snd (__init__ no_reprojection [ST01; ST02; ST03] lit_ptol) = Ok demo
  /\ get_periods_by_stats (D := python2_order) (set_all_periods demo None)
                          (of_int 50)
     = ([], Raise TypeError).
Proof.
  split; [reflexivity | ].
  destruct (@reassigned_periods_raise binary64 python2_order no_reprojection
              [ST01; ST02; ST03] lit_ptol (of_int 50) demo eq_refl)
    as (periods & _ & _ & Hraise).
  exact Hraise.
Defined.

(** ** [get_periods_by_stats]: what every call answers *)

(** X8.  On every object with at least one station and with periods,
    whatever the threshold, [get_periods_by_stats] ends normally; it logs
    "Period ... is ignored" once for every period of [all_periods] that
    fails the test, in order, and nothing else; it answers no period twice
    (no two periods of the answer compare equal, also when [all_periods]
    repeats one); every period it answers is one of [all_periods] that
    passes the test, and every comparable period that passes is answered,
    itself or one equal to it. *)
Theorem selection_never_repeats {S : Scalar} {O : ScalarOrder S}
        {D : DictOrder} (self : EdiCollection) (percentage : num) (periods : list num) :
  num_of_edifiles self <> 0%nat ->
  all_periods self = Some periods ->
  exists selected,
    get_periods_by_stats self percentage
    = (flat_map (fun aper => if retained self percentage aper then []
                             else [Log INFO (PeriodIgnored aper)]) periods,
       Ok selected)
    /\ distinct selected
    /\ (forall p, In p selected ->
                  In p periods /\ retained self percentage p = true)
    /\ (forall p, In p periods -> retained self percentage p = true ->
                  comparable p ->
                  exists q, In q selected /\ (q ==? p) = true).
Proof.
  intros Hn Hperiods.
  destruct (@get_periods_by_stats_run S D self percentage periods Hn Hperiods)
    as (selected & Hrun & Hperm).
  exists selected. split; [exact Hrun | ].
  destruct (list_set_spec neqb (filter (retained self percentage) periods))
    as (Hd & Hsub & Hrep).
  split; [ | split].
  - apply ForallOrdPairs_perm with (l := kept self percentage periods).
    + intros x y Hxy. now rewrite neqb_sym.
    + now apply Permutation_sym.
    + exact Hd.
  - intros p Hp. apply (Permutation_in _ Hperm), Hsub, filter_In in Hp. exact Hp.
  - intros p Hp Hkeep Hcomp.
    destruct (Hrep p) as (q & Hq & Heq); [now apply filter_In | exact Hcomp | ].
    exists q. split; [ | exact Heq].
    eapply Permutation_in; [apply Permutation_sym, Hperm | exact Hq].
Qed.

Lemma selection_never_repeats_witness :
  num_of_edifiles demo <> 0%nat
  /\ all_periods demo = Some (periods_of [ST01; ST02; ST03])
  /\ exists selected,
      snd (get_periods_by_stats (D := python2_order) demo (of_int 50))
      = Ok selected
      /\ distinct selected.
Proof.
  assert (num_of_edifiles demo <> 0%nat) as Hn by discriminate.
  split; [exact Hn | split; [reflexivity | ]].
  destruct (@selection_never_repeats binary64 binary64_order python2_order
              demo (of_int 50) (periods_of [ST01; ST02; ST03]) Hn eq_refl)
    as (selected & Hrun & Hdistinct & _).
  exists selected. split; [now rewrite Hrun | exact Hdistinct].
Defined.

(** X9.  Raising the threshold only removes periods: every period
    answered at a threshold is answered at every lower one (the periods
    being equal only when they are the same number). *)
Theorem selection_antitone {S : Scalar} {O : ScalarOrder S}
        {D : DictOrder} (self : EdiCollection) (low high : num) (periods : list num) :
  num_of_edifiles self <> 0%nat ->
  all_periods self = Some periods ->
  keys_same periods ->
  (low <=? high) = true ->
  exists wide narrow,
    snd (get_periods_by_stats self low) = Ok wide
    /\ snd (get_periods_by_stats self high) = Ok narrow
    /\ incl narrow wide.
Proof.
  intros Hn Hperiods Hkeys Hle.
  rewrite !(@get_periods_by_stats_total S D self _ periods Hn Hperiods Hkeys).
  do 2 eexists. split; [reflexivity | ]. split; [reflexivity | ].
  intros p Hp.
  apply (@kept_sorted_order S D self high periods Hkeys) in Hp as [Hin Hkeep].
  apply (@kept_sorted_order S D self low periods Hkeys). split; [exact Hin | ].
  unfold retained in *. eapply nleb_trans; eassumption.
Qed.

Lemma selection_antitone_witness :
  num_of_edifiles demo <> 0%nat
  /\ keys_same (S := binary64) (periods_of [ST01; ST02; ST03])
  /\ PrimFloat.leb 50 100 = true
  /\ exists wide narrow,
      snd (get_periods_by_stats (D := python2_order) demo 50%float) = Ok wide
      /\ snd (get_periods_by_stats (D := python2_order) demo 100%float)
         = Ok narrow
      /\ incl narrow wide.
Proof.
  assert (num_of_edifiles demo <> 0%nat) as Hn by discriminate.
  assert (keys_same (S := binary64) (periods_of [ST01; ST02; ST03])) as Hkeys
      by (apply binary64_keys_same; repeat constructor).
  split; [exact Hn | split; [exact Hkeys | split; [reflexivity | ]]].
  exact (@selection_antitone binary64 binary64_order python2_order demo
           50%float 100%float
           (periods_of [ST01; ST02; ST03]) Hn eq_refl Hkeys eq_refl).
Defined.

(** X10.  In binary64, for a collection of up to five thousand stations
    no two of whose periods compare equal, and whatever the order in which
    the interpreter lists a dict: at the threshold 0.0 every period of
    [all_periods] is answered, once; at the threshold 100.0 the answer
    holds, once each, exactly the periods that [is_it_in] finds at every
    station.  The rounding of [100.0*acount/n] does not disturb either
    threshold. *)
Theorem coverage_thresholds_binary64 {D : DictOrder (S := binary64)}
        (to_crs : nat -> nat -> float * float -> float * float)
        (edilist : list (MT (S := binary64))) (tol : float)
        (c : EdiCollection (S := binary64)) (periods : list float) :
  snd (__init__ (S := binary64) to_crs edilist tol) = Ok c ->
  all_periods c = Some periods ->
  distinct (S := binary64) periods ->
  (Z.of_nat (length edilist) <= 5000)%Z ->
  (exists selected,
      snd (get_periods_by_stats c 0%float) = Ok selected
      /\ Permutation selected periods)
  /\ (exists selected,
         snd (get_periods_by_stats c 100%float) = Ok selected
         /\ Permutation selected (filter (present_everywhere c) periods)).
Proof.
  intros Hinit Hperiods Hdistinct Hbound.
  destruct (init_inv _ _ _ Hinit) as (first & others & Hlist & Hc).
  assert (num_of_edifiles c = length (mt_obj_list c)) as Hnum
      by now rewrite Hc.
  assert (num_of_edifiles c <> 0%nat) as Hstations
      by (rewrite Hc; discriminate).
  assert (percent_exact (S := binary64) (num_of_edifiles c)) as Hpercent.
  { apply binary64_percent_exact. rewrite Hc. cbn [num_of_edifiles collection_of].
    rewrite Hlist in Hbound. split; [simpl; lia | exact Hbound]. }
  split.
  - exact (@threshold_zero_keeps_all binary64 D c periods Hnum Hstations
             Hperiods Hdistinct Hpercent).
  - exact (@threshold_full_everywhere binary64 D c periods Hnum Hstations
             Hperiods Hdistinct Hpercent).
Qed.

Lemma coverage_thresholds_binary64_witness :
  snd (__init__ no_reprojection [ST01; ST02; ST03] lit_ptol) = Ok demo
  /\ distinct (S := binary64) (periods_of [ST01; ST02; ST03])
  /\ (Z.of_nat (length [ST01; ST02; ST03]) <= 5000)%Z
  /\ exists selected,
      snd (get_periods_by_stats (D := python2_order) demo 100%float)
      = Ok selected
      /\ Permutation selected
           (filter (present_everywhere demo) (periods_of [ST01; ST02; ST03])).
Proof.
  assert (Z.of_nat (length [ST01; ST02; ST03]) <= 5000)%Z as Hbound
      by (simpl; lia).
  split; [reflexivity | split; [exact demo_periods_distinct | ]].
  split; [exact Hbound | ].
  exact (proj2 (@coverage_thresholds_binary64 python2_order no_reprojection
                  [ST01; ST02; ST03] (lit_ptol (Scalar := binary64)) demo
                  (periods_of [ST01; ST02; ST03])
                  eq_refl eq_refl demo_periods_distinct Hbound)).
Defined.

(** ** [create_csv_files_moved]: the tables, the rows and the failures *)

Section ExportTables.
Context {S : Scalar} {O : ScalarOrder S}.

Lemma summary_file_station_events (self : EdiCollection) (dest_dir : string)
      (fq : num) (l : list MT) (file : option (list csv_line)) :
  fold_left (summary_write dest_dir) (flat_map (station_events self fq) l) file
  = file.
Proof.
  revert file; induction l as [ | mt_obj l' IH]; intros file;
    cbn [flat_map]; [reflexivity | ].
  rewrite fold_left_app, IH. unfold station_events.
  destruct (f_index_list self fq mt_obj) as [ | p [ | q rest]]; reflexivity.
Qed.

Lemma summary_file_one_freq (self : EdiCollection) (dest_dir : string)
      (fq : num) (old : list csv_line) :
  fold_left (summary_write dest_dir) (freq_events self dest_dir fq) (Some old)
  = Some (old ++ map Data (freq_rows self fq)).
Proof.
  unfold freq_events. rewrite fold_left_app, summary_file_station_events.
  cbn [fold_left summary_write]. now rewrite String.eqb_refl.
Qed.

Lemma summary_file_freq_events (self : EdiCollection) (dest_dir : string)
      (freqs : list num) (old : list csv_line) :
  fold_left (summary_write dest_dir)
            (flat_map (freq_events self dest_dir) freqs) (Some old)
  = Some (old ++ map Data (flat_map (freq_rows self) freqs)).
Proof.
  revert old; induction freqs as [ | fq freqs' IH]; intros old; cbn [flat_map].
  - simpl. now rewrite app_nil_r.
  - rewrite fold_left_app, summary_file_one_freq, IH, map_app, app_assoc.
    reflexivity.
Qed.

(** With frequencies no two of which compare equal the dictionary stores
    one entry per frequency. *)
Lemma fold_dict_set_distinct (self : EdiCollection) (freqs : list num) :
  distinct freqs ->
  fold_left (fun d fq => dict_set neqb d fq (freq_rows self fq)) freqs []
  = map (fun fq => (fq, freq_rows self fq)) freqs.
Proof.
  intros Hd.
  change (@nil (num * list PtRow))
    with (map (fun fq => (fq, freq_rows self fq)) (@nil num)).
  rewrite (@fold_dict_set num (list PtRow) neqb (freq_rows self)
             (fun _ => true) freqs []).
  - rewrite forallb_filter_id by (apply forallb_forall; reflexivity).
    now rewrite fold_set_add_distinct.
  - intros k k' Hk Hk' Heq. simpl in Hk'.
    now rewrite (distinct_keys_same Hd k' k Hk' Hk Heq).
Qed.

End ExportTables.

(** X12.  The export of a collection of well-formed stations whose
    frequencies are pairwise different ends normally and: the keys of the
    dictionary it answers are the frequencies of [all_frequencies], each
    once; the summary file holds the header followed by the rows of each
    frequency, frequency after frequency in the order of
    [all_frequencies]; for every entry of the dictionary the file of its
    frequency has been written with the header and the rows of the entry;
    and these rows are, in the order of the stations, one row for each
    station that has a sample in the window, so that their number is the
    number of such stations. *)
Theorem export_tables {S : Scalar} {O : ScalarOrder S}
        (self : EdiCollection) (dest_dir : string) (freqs : list num) :
  all_frequencies self = Some freqs ->
  distinct freqs ->
  Forall well_formed (mt_obj_list self) ->
  exists tr pt_dict,
    create_csv_files_moved self (Some dest_dir) = (tr, Ok pt_dict)
    /\ Permutation (map fst pt_dict) freqs
    /\ summary_file dest_dir tr
       = Some (Header
                 :: map Data
                      (flat_map
                         (fun fq => flat_map (station_rows self fq)
                                             (mt_obj_list self)) freqs))
    /\ forall fq rows,
        In (fq, rows) pt_dict ->
        In (WriteCsv (FreqCsv dest_dir fq) wb (Header :: map Data rows)) tr
        /\ rows = flat_map (station_rows self fq) (mt_obj_list self)
        /\ length rows = length (filter (matched self fq) (mt_obj_list self)).
Proof.
  intros Hfreqs Hd Hwf.
  rewrite (create_csv_files_moved_total self dest_dir Hfreqs Hwf).
  rewrite (@fold_dict_set_distinct S O self freqs Hd).
  do 2 eexists. split; [reflexivity | ]. split; [ | split].
  - rewrite map_map. cbn [fst]. rewrite map_id. apply Permutation_refl.
  - unfold summary_file. cbn [fold_left summary_write].
    rewrite String.eqb_refl, summary_file_freq_events.
    reflexivity.
  - intros fq rows Hin. apply in_map_iff in Hin as (fq' & [= <- <-] & Hfq).
    split; [ | split; [reflexivity | ]].
    + right. apply in_flat_map. exists fq'. split; [exact Hfq | ].
      unfold freq_events. apply in_or_app. right. right. now left.
    + unfold freq_rows. clear Hfreqs.
      induction (mt_obj_list self) as [ | mt_obj l IH]; [reflexivity | ].
      apply Forall_cons_iff in Hwf as [Hwf1 Hwf]. simpl.
      rewrite length_app, (IH Hwf). unfold station_rows, matched.
      pose proof (f_index_list_bound self fq' mt_obj) as Hbound.
      destruct (f_index_list self fq' mt_obj) as [ | p_index rest]; [reflexivity | ].
      destruct (row_at_well_formed fq' Hwf1 (Hbound p_index (or_introl eq_refl)))
        as (row & ->).
      reflexivity.
Qed.

(** The export of [demo]: three tables, of three, two and one rows. *)
Lemma export_tables_witness :
  all_frequencies demo = Some [1; 2; 3]%float
  /\ distinct (S := binary64) [1; 2; 3]%float
  /\ Forall well_formed (mt_obj_list demo)
  /\ exists tr pt_dict,
      create_csv_files_moved demo (Some "out"%string) = (tr, Ok pt_dict)
      /\ Permutation (map fst pt_dict) [1; 2; 3]%float
      /\ summary_file "out" tr
         = Some (Header
                   :: map Data
                        (flat_map
                           (fun fq => flat_map (station_rows demo fq)
                                               (mt_obj_list demo))
                           [1; 2; 3]%float)).
Proof.
  assert (distinct (S := binary64) [1; 2; 3]%float) as Hdistinct
      by (repeat constructor).
  assert (Forall well_formed (mt_obj_list demo)) as Hwf
      by (repeat constructor).
  split; [reflexivity | split; [exact Hdistinct | split; [exact Hwf | ]]].
  destruct (@export_tables binary64 binary64_order demo "out"%string
              [1; 2; 3]%float eq_refl Hdistinct Hwf)
    as (tr & pt_dict & Hrun & Hkeys & Hsummary & _).
  exists tr, pt_dict. auto.
Defined.

Section Sourced.
Context {S : Scalar}.

Lemma row_at_freq (fq : num) (mt_obj : MT) (p_index : nat) (row : PtRow) :
  row_at fq mt_obj p_index = Some row -> c_freq row = fq.
Proof.
  unfold row_at.
  destruct (nth_error (fst (phimin (pt mt_obj))) p_index); [ | discriminate].
  destruct (nth_error (fst (phimax (pt mt_obj))) p_index); [ | discriminate].
  destruct (nth_error (fst (azimuth (pt mt_obj))) p_index); [ | discriminate].
  destruct (nth_error (fst (beta (pt mt_obj))) p_index); [ | discriminate].
  destruct (nth_error (fst (ellipticity (pt mt_obj))) p_index); [ | discriminate].
  destruct (nth_error (mag_real (Tipper mt_obj)) p_index); [ | discriminate].
  destruct (nth_error (mag_imag (Tipper mt_obj)) p_index); [ | discriminate].
  destruct (nth_error (angle_real (Tipper mt_obj)) p_index); [ | discriminate].
  destruct (nth_error (angle_imag (Tipper mt_obj)) p_index); [ | discriminate].
  now intros [= <-].
Qed.

Lemma export_station_sourced (self : EdiCollection) (fq : num)
      (ptlist : list PtRow) (mt_obj : MT) :
  In mt_obj (mt_obj_list self) ->
  Forall (fun row => sourced self row /\ c_freq row = fq) ptlist ->
  Forall (lines_sourced self) (fst (export_station self fq ptlist mt_obj))
  /\ forall ptlist', snd (export_station self fq ptlist mt_obj) = Ok ptlist' ->
                     Forall (fun row => sourced self row /\ c_freq row = fq) ptlist'.
Proof.
  intros Hin Hrows. unfold export_station.
  destruct (f_index_list self fq mt_obj) as [ | p_index rest] eqn:Hidx.
  - simpl. split; [repeat constructor | intros ? [= <-]; exact Hrows].
  - rewrite pt_stat_row_at.
    destruct (row_at fq mt_obj p_index) as [row | ] eqn:Hrow.
    + pose proof (@row_at_freq fq mt_obj p_index row Hrow) as Hfq.
      assert (sourced self row /\ c_freq row = fq) as Hnew.
      { split; [ | exact Hfq]. exists mt_obj, p_index, rest. now rewrite Hfq. }
      destruct (1 <? length (p_index :: rest))%nat; simpl;
        (split; [repeat constructor | intros ? [= <-]]);
        (apply Forall_app; split; [exact Hrows | now constructor]).
    + destruct (1 <? length (p_index :: rest))%nat; simpl;
        (split; [repeat constructor | discriminate]).
Qed.

Lemma export_freq_sourced (self : EdiCollection) (dest_dir : string)
      (pt_dict : list (num * list PtRow)) (fq : num) :
  Forall (entry_sourced self) pt_dict ->
  Forall (lines_sourced self) (fst (export_freq self dest_dir pt_dict fq))
  /\ forall pt_dict', snd (export_freq self dest_dir pt_dict fq) = Ok pt_dict' ->
                      Forall (entry_sourced self) pt_dict'.
Proof.
  intros Hdict. unfold export_freq.
  destruct (@for_each_invariant _ _ _
              (fun l => Forall (fun row => sourced self row /\ c_freq row = fq) l)
              (lines_sourced self) (export_station self fq) (mt_obj_list self))
    with (acc := @nil PtRow) as [Hev Hres].
  - intros acc mt_obj Hin Hacc. now apply export_station_sourced.
  - constructor.
  - destruct (for_each (mt_obj_list self) [] (export_station self fq))
      as [tr [ptlist | e]]; simpl in *.
    + specialize (Hres _ eq_refl). rewrite Forall_forall in Hres.
      assert (forall row, In (Data row) (map Data ptlist) -> sourced self row)
        as Hlines.
      { intros row Hrow. apply in_map_iff in Hrow as (r & [= ->] & Hr).
        now apply Hres. }
      split.
      * apply Forall_app. split; [exact Hev | ].
        repeat constructor; simpl; [exact Hlines | ].
        intros row [Hrow | Hrow]; [discriminate | auto].
      * intros ? [= <-]. rewrite Forall_forall in *. intros [k rows] Hin.
        apply in_dict_set_key in Hin as [Hin | [-> Hkey]]; [now apply Hdict | ].
        unfold entry_sourced. simpl. apply Forall_forall. intros row Hrow.
        destruct (Hres row Hrow) as [Hs ->]. split; [exact Hs | ].
        destruct Hkey as [-> | Hkey]; auto.
    + split; [exact Hev | discriminate].
Qed.

End Sourced.

(** X13.  Every row of the dictionary the export answers, and every row
    of every table it writes (also when it raises half way), is read off
    one station of the collection at one sample: the row carries the
    frequency of the loop, the name and the coordinates of the station,
    and the values of all the arrays of the station at the first index at
    which the station has a sample in the open window of that frequency.
    The key of the entry is that frequency, or compares equal to it. *)
Theorem export_rows_sourced {S : Scalar} (self : EdiCollection)
        (dest_dir : option string) :
  (forall pt_dict key rows row,
      snd (create_csv_files_moved self dest_dir) = Ok pt_dict ->
      In (key, rows) pt_dict -> In row rows ->
      (c_freq row = key \/ (key ==? c_freq row) = true)
      /\ exists mt_obj p_index rest,
          In mt_obj (mt_obj_list self)
          /\ f_index_list self (c_freq row) mt_obj = p_index :: rest
          /\ row_at (c_freq row) mt_obj p_index = Some row)
  /\ (forall p md lines row,
         In (WriteCsv p md lines) (fst (create_csv_files_moved self dest_dir)) ->
         In (Data row) lines ->
         exists mt_obj p_index rest,
           In mt_obj (mt_obj_list self)
           /\ f_index_list self (c_freq row) mt_obj = p_index :: rest
           /\ row_at (c_freq row) mt_obj p_index = Some row).
Proof.
  assert (Forall (lines_sourced self) (fst (create_csv_files_moved self dest_dir))
          /\ forall pt_dict,
              snd (create_csv_files_moved self dest_dir) = Ok pt_dict ->
              Forall (entry_sourced self) pt_dict)
    as [Hev Hres].
  { unfold create_csv_files_moved.
    destruct dest_dir as [dir | ]; simpl; [ | split; [constructor | discriminate]].
    destruct (all_frequencies self) as [freqs | ]; simpl.
    - destruct (@for_each_invariant _ _ _
                  (fun d => Forall (entry_sourced self) d)
                  (lines_sourced self) (export_freq self dir) freqs)
        with (acc := @nil (num * list PtRow)) as [Hev Hres].
      + intros acc fq _ Hacc. now apply export_freq_sourced.
      + constructor.
      + destruct (for_each freqs [] (export_freq self dir)) as [tr r]; simpl in *.
        split; [ | exact Hres].
        constructor; [ | exact Hev]. simpl. intros row [Hrow | []]. discriminate.
    - split; [ | discriminate].
      repeat constructor. simpl. intros row [Hrow | []]. discriminate. }
  split.
  - intros pt_dict key rows row Hok Hin Hrow.
    specialize (Hres _ Hok). rewrite Forall_forall in Hres.
    specialize (Hres _ Hin). unfold entry_sourced in Hres. simpl in Hres.
    rewrite Forall_forall in Hres. destruct (Hres _ Hrow) as [Hs Hk].
    split; [exact Hk | exact Hs].
  - intros p md lines row Hin Hrow.
    rewrite Forall_forall in Hev. exact (Hev _ Hin row Hrow).
Qed.

(** The row of [ST01] in the table of 2 Hz of [demo]. *)
Lemma export_rows_sourced_witness :
  snd (create_csv_files_moved demo (Some "out"%string)) = Ok demo_pt_dict
  /\ In (2%float, demo_rows_2Hz) demo_pt_dict
  /\ In (station_rows_hd demo_rows_2Hz) demo_rows_2Hz
  /\ exists mt_obj p_index rest,
      In mt_obj (mt_obj_list demo)
      /\ f_index_list demo (c_freq (station_rows_hd demo_rows_2Hz)) mt_obj
         = p_index :: rest
      /\ row_at (c_freq (station_rows_hd demo_rows_2Hz)) mt_obj p_index
         = Some (station_rows_hd demo_rows_2Hz).
Proof.
  assert (In (2%float, demo_rows_2Hz) demo_pt_dict) as Hentry
      by (right; left; reflexivity).
  assert (In (station_rows_hd demo_rows_2Hz) demo_rows_2Hz) as Hrow
      by (left; reflexivity).
  split; [exact demo_export | ].
  split; [exact Hentry | split; [exact Hrow | ]].
  exact (proj2 (proj1 (export_rows_sourced demo (Some "out"%string))
                      demo_pt_dict 2%float demo_rows_2Hz
                      (station_rows_hd demo_rows_2Hz)
                      demo_export Hentry Hrow)).
Defined.

Section LoopRaises.
Context {S : Scalar}.
Variables A B : Type.

(** A loop whose body can raise [e] only, and does raise it at some
    element whatever the accumulator, raises [e]. *)
Lemma for_each_raises (body : B -> A -> M B) (l : list A) (e : exn) (x : A) :
  (forall acc y e', In y l -> snd (body acc y) = Raise e' -> e' = e) ->
  In x l ->
  (forall acc, snd (body acc x) = Raise e) ->
  forall acc, snd (for_each l acc body) = Raise e.
Proof.
  intros Honly Hin Hx. induction l as [ | y l' IH]; intros acc; [destruct Hin | ].
  simpl. destruct (body acc y) as [tr [acc' | e']] eqn:Hbody; simpl.
  - destruct Hin as [-> | Hin].
    + specialize (Hx acc). rewrite Hbody in Hx. discriminate.
    + specialize (IH (fun a z e0 Hz => Honly a z e0 (or_intror Hz)) Hin acc').
      destruct (for_each l' acc' body); simpl in *. exact IH.
  - f_equal. apply (Honly acc y e'); [now left | now rewrite Hbody].
Qed.

(** A loop raises only what its body raises. *)
Lemma for_each_raise_inv (body : B -> A -> M B) (l : list A) (e : exn) :
  forall acc, snd (for_each l acc body) = Raise e ->
              exists acc' y, In y l /\ snd (body acc' y) = Raise e.
Proof.
  induction l as [ | y l' IH]; intros acc; simpl; [discriminate | ].
  destruct (body acc y) as [tr [acc1 | e1]] eqn:Hbody; simpl.
  - specialize (IH acc1). destruct (for_each l' acc1 body); simpl in *.
    intros Hr. destruct (IH Hr) as (acc' & z & Hz & Hraise). eauto.
  - intros [= <-]. exists acc, y. split; [now left | now rewrite Hbody].
Qed.

End LoopRaises.

Section ExportRaises.
Context {S : Scalar}.

Lemma export_station_raises_only (self : EdiCollection) (fq : num)
      (ptlist : list PtRow) (mt_obj : MT) (e : exn) :
  snd (export_station self fq ptlist mt_obj) = Raise e -> e = IndexError.
Proof.
  unfold export_station.
  destruct (f_index_list self fq mt_obj) as [ | p_index rest].
  - simpl. discriminate.
  - rewrite pt_stat_row_at.
    destruct (row_at fq mt_obj p_index);
      destruct (1 <? length (p_index :: rest))%nat; simpl; congruence.
Qed.

Lemma export_station_raises (self : EdiCollection) (fq : num)
      (ptlist : list PtRow) (mt_obj : MT) (p_index : nat) (rest : list nat) :
  f_index_list self fq mt_obj = p_index :: rest ->
  row_at fq mt_obj p_index = None ->
  snd (export_station self fq ptlist mt_obj) = Raise IndexError.
Proof.
  intros Hidx Hrow. unfold export_station. rewrite Hidx, pt_stat_row_at, Hrow.
  destruct (1 <? length (p_index :: rest))%nat; reflexivity.
Qed.

Lemma export_freq_raises_only (self : EdiCollection) (dest_dir : string)
      (pt_dict : list (num * list PtRow)) (fq : num) (e : exn) :
  snd (export_freq self dest_dir pt_dict fq) = Raise e -> e = IndexError.
Proof.
  unfold export_freq.
  destruct (for_each (mt_obj_list self) [] (export_station self fq))
    as [tr [ptlist | e']] eqn:Hloop; simpl; [discriminate | ].
  intros [= <-].
  destruct (@for_each_raise_inv _ _ _ (export_station self fq) (mt_obj_list self)
              e' []) as (acc & mt_obj & _ & Hraise); [now rewrite Hloop | ].
  now apply export_station_raises_only in Hraise.
Qed.

Lemma export_freq_raises (self : EdiCollection) (dest_dir : string)
      (pt_dict : list (num * list PtRow)) (fq : num) (mt_obj : MT)
      (p_index : nat) (rest : list nat) :
  In mt_obj (mt_obj_list self) ->
  f_index_list self fq mt_obj = p_index :: rest ->
  row_at fq mt_obj p_index = None ->
  snd (export_freq self dest_dir pt_dict fq) = Raise IndexError.
Proof.
  intros Hin Hidx Hrow. unfold export_freq.
  pose proof (@for_each_raises _ _ _ (export_station self fq) (mt_obj_list self)
                IndexError mt_obj
                (fun acc y e' _ => @export_station_raises_only self fq acc y e')
                Hin
                (fun acc => @export_station_raises self fq acc mt_obj p_index rest
                              Hidx Hrow) []) as Hloop.
  destruct (for_each (mt_obj_list self) [] (export_station self fq)) as [tr r].
  simpl in Hloop. now rewrite Hloop.
Qed.

End ExportRaises.

(** X14.  When the first sample that a station has in the window of one
    of the frequencies of the collection stands at an index that one of
    its arrays does not reach, the export raises an [IndexError]; the
    summary file has been created with its header by then, and stays.
    (Only the first index of the window is read: a later one that the
    arrays do not reach raises nothing.) *)
Theorem export_short_arrays_raise {S : Scalar} (self : EdiCollection)
        (dest_dir : string) (freqs : list num) (fq : num) (mt_obj : MT)
        (p_index : nat) (rest : list nat) :
  all_frequencies self = Some freqs ->
  In fq freqs ->
  In mt_obj (mt_obj_list self) ->
  f_index_list self fq mt_obj = p_index :: rest ->
  row_at fq mt_obj p_index = None ->
  exists tr,
    create_csv_files_moved self (Some dest_dir)
    = (WriteCsv (SummaryCsv dest_dir) wb [Header] :: tr, Raise IndexError).
Proof.
  intros Hfreqs Hfq Hin Hidx Hrow. unfold create_csv_files_moved.
  rewrite Hfreqs. cbn [bind emit iter ret app].
  pose proof (@for_each_raises _ _ _ (export_freq self dest_dir) freqs
                IndexError fq
                (fun acc y e' _ => @export_freq_raises_only _ self dest_dir acc y e')
                Hfq
                (fun acc => @export_freq_raises _ self dest_dir acc fq mt_obj
                              p_index rest Hin Hidx Hrow) []) as Hloop.
  destruct (for_each freqs [] (export_freq self dest_dir)) as [tr r].
  simpl in Hloop. rewrite Hloop. eauto.
Qed.

(** [ST06] has two frequencies and arrays of one entry: at 2 Hz its
    sample 1 matches, and no array has an entry 1. *)
Lemma export_short_arrays_raise_witness :
  all_frequencies short_collection = Some [1; 2]%float
  /\ f_index_list short_collection 2%float ST06 = [1%nat]
  /\ row_at (S := binary64) 2%float ST06 1 = None
  /\ exists tr,
      create_csv_files_moved short_collection (Some "out"%string)
      = (WriteCsv (SummaryCsv "out") wb [Header] :: tr, Raise IndexError).
Proof.
  split; [reflexivity | split; [reflexivity | split; [reflexivity | ]]].
  apply (@export_short_arrays_raise binary64 short_collection "out"%string
           [1; 2]%float 2%float ST06 1%nat []).
  - reflexivity.
  - right. left. reflexivity.
  - left. reflexivity.
  - reflexivity.
  - reflexivity.
Defined.

(** X15.  A frequency whose window is empty, the lower end
    [fq*(1-ptol)] not being below the upper end [fq*(1+ptol)], matches no
    sample of any station: the station loop logs "Freq NOT found" and adds
    no row.  Zero is such a frequency. *)
Theorem empty_window_no_match {S : Scalar} {O : ScalarOrder S}
        (self : EdiCollection) (fq : num) (mt_obj : MT) (ptlist : list PtRow) :
  (fq * (lit 1 - ptol self) <? fq * (lit 1 + ptol self)) = false ->
  f_index_list self fq mt_obj = []
  /\ export_station self fq ptlist mt_obj
     = ([Log WARN (FreqNotFound fq (station mt_obj))], Ok ptlist).
Proof.
  intros Hempty.
  assert (f_index_list self fq mt_obj = []) as Hnone.
  { destruct (f_index_list self fq mt_obj) as [ | i rest] eqn:Hidx; [reflexivity | ].
    assert (In i (f_index_list self fq mt_obj)) as Hin by (rewrite Hidx; now left).
    apply f_index_list_In in Hin as (f2 & _ & Hw). unfold in_window in Hw.
    apply andb_true_iff in Hw as [Hlo Hhi].
    rewrite (nltb_trans _ _ _ Hlo Hhi) in Hempty. discriminate. }
  split; [exact Hnone | ]. unfold export_station. now rewrite Hnone.
Qed.

(** A station sampled at 0 Hz and 1 Hz, asked for 0 Hz. *)
Lemma empty_window_no_match_witness :
  (0 * (1 - 0x1.999999999999ap-5) <? 0 * (1 + 0x1.999999999999ap-5))%float = false
  /\ f_index_list demo 0%float (station_of "ST00" 0 0 [0; 1])%float = [].
Proof.
  split; [reflexivity | ].
  apply (@empty_window_no_match binary64 binary64_order demo 0%float
           (station_of "ST00" 0 0 [0; 1])%float []).
  reflexivity.
Defined.

(** ** The script *)

Section CommandLineFacts.
Context {S : Scalar}.
Variable to_crs : nat -> nat -> num * num -> num * num.
Variable MT_of : string -> MT.

Lemma collect_cons (edi : string) (edilist : list string) :
  collect to_crs MT_of (edi :: edilist)
  = (map Collected (fst (__init__ to_crs (map MT_of (edi :: edilist)) lit_ptol)),
     inl (collection_of (MT_of edi) (map MT_of edilist) lit_ptol)).
Proof. unfold collect, lift. cbn [map]. now rewrite init_cons. Qed.

(** The constructor logs and prints; it writes no file. *)
Lemma init_logs_only (edilist : list MT) (tol : num) (ev : event) :
  In ev (fst (__init__ to_crs edilist tol)) -> exists l m, ev = Log l m.
Proof.
  destruct edilist as [ | first others].
  - rewrite init_nil. simpl. intros [<- | []]. eauto.
  - rewrite init_cons. cbn [fst].
    intros Hin. repeat (destruct Hin as [<- | Hin]; [eauto | ]). destruct Hin.
Qed.

End CommandLineFacts.



(** X19.  Given a first argument that is neither a directory nor an
    existing file named [*.edi], the script puts out nothing and stops
    with a [NameError]: the name [obj] was never bound. *)
Theorem main_unbound_collection {S : Scalar} {D : DictOrder}
        (to_crs : nat -> nat -> num * num -> num * num)
        (isdir isfile : string -> bool) (glob : string -> list string)
        (MT_of : string -> MT) (prog argv1 : string) (rest : list string) :
  isdir argv1 = false ->
  isfile argv1 && endswith argv1 ".edi" = false ->
  main to_crs isdir isfile glob MT_of (prog :: argv1 :: rest)
  = ([], inr NameError).
Proof.
  intros Hdir Hfile. unfold main.
  cbn [length Nat.ltb Nat.leb arg nth_error pbind pret app].
  now rewrite Hdir, Hfile.
Qed.

Lemma main_unbound_collection_witness :
  survey_isdir "notes.txt" = false
  /\ survey_isfile "notes.txt" && endswith "notes.txt" ".edi" = false
  /\ main (D := python2_order) no_reprojection
          survey_isdir survey_isfile survey_glob survey_MT
          ["edi_collection.py"; "notes.txt"; "out"]%string
     = ([], inr NameError).
Proof.
  split; [reflexivity | split; [reflexivity | ]].
  exact (@main_unbound_collection binary64 python2_order no_reprojection
           survey_isdir survey_isfile survey_glob survey_MT
           "edi_collection.py"%string "notes.txt"%string ["out"%string]
           eq_refl eq_refl).
Defined.

(** X21.  Given a directory that holds at least one EDI file, all of
    well-formed stations, and a destination, the script runs to its last
    line: it builds the collection of the files of the directory, exports
    its tables to the destination, selects the periods at 10 percent and
    prints them after the heading "selected periods:".  Further arguments
    are not read. *)
Theorem main_directory_run {S : Scalar} {D : DictOrder}
        (to_crs : nat -> nat -> num * num -> num * num)
        (isdir isfile : string -> bool) (glob : string -> list string)
        (MT_of : string -> MT) (prog argv1 argv2 : string) (rest : list string)
        (edi : string) (edilist : list string) :
  isdir argv1 = true ->
  glob (argv1 ++ "/*.edi")%string = edi :: edilist ->
  Forall well_formed (map MT_of (edi :: edilist)) ->
  exists obj pt_dict myper,
    snd (__init__ to_crs (map MT_of (edi :: edilist)) lit_ptol) = Ok obj
    /\ snd (create_csv_files_moved obj (Some argv2)) = Ok pt_dict
    /\ snd (get_periods_by_stats obj (of_int 10)) = Ok myper
    /\ main to_crs isdir isfile glob MT_of (prog :: argv1 :: argv2 :: rest)
       = (map Collected
              (fst (__init__ to_crs (map MT_of (edi :: edilist)) lit_ptol)
               ++ fst (create_csv_files_moved obj (Some argv2))
               ++ fst (get_periods_by_stats obj (of_int 10)))
          ++ [SelectedHeading; SelectedPeriods myper],
          inl tt).
Proof.
  intros Hdir Hglob Hwf. unfold main.
  cbn [length Nat.ltb Nat.leb arg nth_error pbind pret app tl].
  rewrite Hdir, Hglob.
  cbn [length Nat.ltb Nat.leb assert lift ret fst snd map pbind app].
  rewrite collect_cons.
  change (MT_of edi :: map MT_of edilist) with (map MT_of (edi :: edilist)) in *.
  change (map MT_of (edi :: edilist))
    with (MT_of edi :: map MT_of edilist) at 1 2 3.
  rewrite init_cons. cbn [fst snd].
  set (obj := collection_of (MT_of edi) (map MT_of edilist) lit_ptol).
  assert (Forall well_formed (mt_obj_list obj)) as Hwf' by exact Hwf.
  pose proof (@create_csv_files_moved_total S obj argv2 _ eq_refl Hwf') as Hexp.
  destruct (@get_periods_by_stats_run S D obj (of_int 10) _
              ltac:(discriminate) eq_refl) as (myper & Hrun & _).
  exists obj. cbn [pbind pret app nth_error]. rewrite Hexp, Hrun.
  do 2 eexists.
  split; [reflexivity | ]. split; [reflexivity | ]. split; [reflexivity | ].
  cbn [pbind pret app nth_error lift fst snd print].
  rewrite app_nil_r. cbn [map app]. rewrite map_app, <- app_assoc. reflexivity.
Qed.

(** The directory [survey] exported to [out]: the script ends with the
    periods found at three, two and one station of three. *)
Lemma main_directory_run_witness :
  survey_isdir "survey" = true
  /\ survey_glob "survey/*.edi" = ["ST01.edi"; "ST02.edi"; "ST03.edi"]%string
  /\ Forall well_formed
            (map survey_MT ["ST01.edi"; "ST02.edi"; "ST03.edi"]%string)
  /\ snd (main (D := python2_order) no_reprojection
               survey_isdir survey_isfile survey_glob survey_MT
               ["edi_collection.py"; "survey"; "out"]%string)
     = inl tt.
Proof.
  assert (Forall well_formed
                 (map survey_MT ["ST01.edi"; "ST02.edi"; "ST03.edi"]%string))
    as Hwf by (repeat constructor).
  split; [reflexivity | split; [reflexivity | split; [exact Hwf | ]]].
  destruct (@main_directory_run binary64 python2_order no_reprojection
              survey_isdir survey_isfile survey_glob survey_MT
              "edi_collection.py"%string "survey"%string "out"%string []
              "ST01.edi"%string ["ST02.edi"; "ST03.edi"]%string
              eq_refl eq_refl Hwf)
    as (obj & pt_dict & myper & _ & _ & _ & Hrun).
  now rewrite Hrun.
Defined.
